(** * Nitpix: the queue store, the activity broadcaster and the dispatch loop

    A shallow embedding of [types.ts], [server/queue.ts], the activity
    and task routes of [server/index.ts] and the dispatch loop of
    [watcher.ts], with the properties of the specification stated and
    proved over it.

    Conventions of the embedding
    - a TypeScript interface is a record inside a module of the same name,
      so that [Task.id], [Queue.items] read as in the source;
    - the file system is a finite map from paths to file contents;
    - [async] code that can throw lives in a small state and exception
      monad over the file system and the clock;
    - [JSON.stringify], [JSON.parse], [new Date(s).getTime()] and
      [Buffer.from(s, "base64")] are platform functions and stay abstract
      (section variables);
    - the dispatch loop is a transition system: one transition per
      callback that the event loop can run. *)

From Stdlib Require Import ZArith Lia Bool Ascii.
From stdpp Require Import base option strings list gmap countable.

Local Open Scope string_scope.
Local Open Scope list_scope.
Local Open Scope Z_scope.

(** ** types.ts *)

Inductive TaskType := Element | Page | Region.
Inductive TaskCategory := Tweak | Bug | Feature.
Inductive TaskPriority := High | Medium | Low.

(** [TaskStatus] is a union of four string literals.  The store checks a
    status against a set of strings at run time, so the embedding keeps
    the string. *)
Abbreviation TaskStatus := string (only parsing).

(** Pixel rectangles and line numbers are JavaScript numbers; no function
    modelled here computes with them. *)
Module Rect.
Record t := { x : Z; y : Z; width : Z; height : Z }.
End Rect.

Module ElementInfo.
Record t := {
  component : string;
  sourceFile : string;
  sourceLine : Z;
  selector : string;
  rect : option Rect.t;
  computedStyles : option (list (string * string));
}.
End ElementInfo.

Module PageInfo.
Record t := {
  component : string;
  sourceFile : string;
  sourceLine : option Z;
}.
End PageInfo.

Module RegionInfo.
Record t := { rect : Rect.t }.
End RegionInfo.

Module TaskAttempt.
Record t := {
  agentNotes : string;
  filesModified : list string;
  retryReason : string;
  afterScreenshot : option string;
  timestamp : string;
}.
End TaskAttempt.

Module Task.
Record t := {
  id : string;
  createdAt : string;
  updatedAt : string;
  url : string;
  type : TaskType;
  note : string;
  category : TaskCategory;
  priority : TaskPriority;
  status : TaskStatus;
  screenshotPath : string;
  element : option ElementInfo.t;
  page : PageInfo.t;
  region : option RegionInfo.t;
  agentNotes : string;
  filesModified : list string;
  afterScreenshot : option string;
  attempts : list TaskAttempt.t;
}.

(** Assignment to one property of a task object: [k.f = v]. *)
Definition set_id (v : string) (k : t) : t :=
  Build_t v (createdAt k) (updatedAt k) (url k) (type k) (note k)
    (category k) (priority k) (status k) (screenshotPath k) (element k)
    (page k) (region k) (agentNotes k) (filesModified k)
    (afterScreenshot k) (attempts k).
Definition set_createdAt (v : string) (k : t) : t :=
  Build_t (id k) v (updatedAt k) (url k) (type k) (note k) (category k)
    (priority k) (status k) (screenshotPath k) (element k) (page k)
    (region k) (agentNotes k) (filesModified k) (afterScreenshot k)
    (attempts k).
Definition set_updatedAt (v : string) (k : t) : t :=
  Build_t (id k) (createdAt k) v (url k) (type k) (note k) (category k)
    (priority k) (status k) (screenshotPath k) (element k) (page k)
    (region k) (agentNotes k) (filesModified k) (afterScreenshot k)
    (attempts k).
Definition set_url (v : string) (k : t) : t :=
  Build_t (id k) (createdAt k) (updatedAt k) v (type k) (note k)
    (category k) (priority k) (status k) (screenshotPath k) (element k)
    (page k) (region k) (agentNotes k) (filesModified k)
    (afterScreenshot k) (attempts k).
Definition set_type (v : TaskType) (k : t) : t :=
  Build_t (id k) (createdAt k) (updatedAt k) (url k) v (note k)
    (category k) (priority k) (status k) (screenshotPath k) (element k)
    (page k) (region k) (agentNotes k) (filesModified k)
    (afterScreenshot k) (attempts k).
Definition set_note (v : string) (k : t) : t :=
  Build_t (id k) (createdAt k) (updatedAt k) (url k) (type k) v
    (category k) (priority k) (status k) (screenshotPath k) (element k)
    (page k) (region k) (agentNotes k) (filesModified k)
    (afterScreenshot k) (attempts k).
Definition set_category (v : TaskCategory) (k : t) : t :=
  Build_t (id k) (createdAt k) (updatedAt k) (url k) (type k) (note k) v
    (priority k) (status k) (screenshotPath k) (element k) (page k)
    (region k) (agentNotes k) (filesModified k) (afterScreenshot k)
    (attempts k).
Definition set_priority (v : TaskPriority) (k : t) : t :=
  Build_t (id k) (createdAt k) (updatedAt k) (url k) (type k) (note k)
    (category k) v (status k) (screenshotPath k) (element k) (page k)
    (region k) (agentNotes k) (filesModified k) (afterScreenshot k)
    (attempts k).
Definition set_status (v : TaskStatus) (k : t) : t :=
  Build_t (id k) (createdAt k) (updatedAt k) (url k) (type k) (note k)
    (category k) (priority k) v (screenshotPath k) (element k) (page k)
    (region k) (agentNotes k) (filesModified k) (afterScreenshot k)
    (attempts k).
Definition set_screenshotPath (v : string) (k : t) : t :=
  Build_t (id k) (createdAt k) (updatedAt k) (url k) (type k) (note k)
    (category k) (priority k) (status k) v (element k) (page k) (region k)
    (agentNotes k) (filesModified k) (afterScreenshot k) (attempts k).
Definition set_element (v : option ElementInfo.t) (k : t) : t :=
  Build_t (id k) (createdAt k) (updatedAt k) (url k) (type k) (note k)
    (category k) (priority k) (status k) (screenshotPath k) v (page k)
    (region k) (agentNotes k) (filesModified k) (afterScreenshot k)
    (attempts k).
Definition set_page (v : PageInfo.t) (k : t) : t :=
  Build_t (id k) (createdAt k) (updatedAt k) (url k) (type k) (note k)
    (category k) (priority k) (status k) (screenshotPath k) (element k) v
    (region k) (agentNotes k) (filesModified k) (afterScreenshot k)
    (attempts k).
Definition set_region (v : option RegionInfo.t) (k : t) : t :=
  Build_t (id k) (createdAt k) (updatedAt k) (url k) (type k) (note k)
    (category k) (priority k) (status k) (screenshotPath k) (element k)
    (page k) v (agentNotes k) (filesModified k) (afterScreenshot k)
    (attempts k).
Definition set_agentNotes (v : string) (k : t) : t :=
  Build_t (id k) (createdAt k) (updatedAt k) (url k) (type k) (note k)
    (category k) (priority k) (status k) (screenshotPath k) (element k)
    (page k) (region k) v (filesModified k) (afterScreenshot k)
    (attempts k).
Definition set_filesModified (v : list string) (k : t) : t :=
  Build_t (id k) (createdAt k) (updatedAt k) (url k) (type k) (note k)
    (category k) (priority k) (status k) (screenshotPath k) (element k)
    (page k) (region k) (agentNotes k) v (afterScreenshot k) (attempts k).
Definition set_afterScreenshot (v : option string) (k : t) : t :=
  Build_t (id k) (createdAt k) (updatedAt k) (url k) (type k) (note k)
    (category k) (priority k) (status k) (screenshotPath k) (element k)
    (page k) (region k) (agentNotes k) (filesModified k) v (attempts k).
Definition set_attempts (v : list TaskAttempt.t) (k : t) : t :=
  Build_t (id k) (createdAt k) (updatedAt k) (url k) (type k) (note k)
    (category k) (priority k) (status k) (screenshotPath k) (element k)
    (page k) (region k) (agentNotes k) (filesModified k)
    (afterScreenshot k) v.
End Task.

Module Queue.
Record t := {
  version : Z;
  lastUpdated : string;
  items : list Task.t;
}.

Definition set_lastUpdated (v : string) (q : t) : t :=
  Build_t (version q) v (items q).
Definition set_items (v : list Task.t) (q : t) : t :=
  Build_t (version q) (lastUpdated q) v.
End Queue.

(** [type] is one of the literals tool_start, tool_end, text, error and
  result; the server checks it as a string. *)
Module ActivityEntry.
Record t := {
  timestamp : string;
  type : string;
  summary : string;
}.
End ActivityEntry.

(** The options as [startWatcher] destructures them. *)
Module WatcherOptions.
Record t := {
  serverUrl : string;
  projectRoot : string;
  maxTurns : Z;
  allowedTools : option string;
  agentTimeout : option Z;
  maxRetries : option Z;
}.
End WatcherOptions.

(** The JSON values that travel between the server and its clients: the
    bodies of the responses and the payloads of the pushed events. *)
Inductive Json :=
| J_null
| J_task (task : Task.t)
| J_queue (queue : Queue.t)
| J_error (error : string)
| J_entries (entries : list ActivityEntry.t)
| J_id (id : string)
| J_activity (taskId : string) (entry : ActivityEntry.t)
| J_ok.

(** ** The run-time environment of the store

    [files] is the file system: a path that is bound exists and holds the
    given text.  Every evaluation of [new Date().toISOString()] reads the
    clock once: the [n]-th evaluation returns [clock n]. *)

Record World := {
  files : gmap string string;
  clock : nat → string;
  ticks : nat;
}.

Definition with_files (f : gmap string string) (w : World) : World :=
  {| files := f; clock := clock w; ticks := ticks w |}.

Inductive Exception :=
| ENOENT (path : string)
| SyntaxError (text : string)
| Error (message : string).

(** How the evaluation of a body ends. *)
Inductive Completion (A : Type) :=
| Return (a : A)
| Throw (e : Exception).
Arguments Return {A} a.
Arguments Throw {A} e.

(** An [async] body over a state [S]: it ends with a value or an
    exception, and its effects on the state stay either way. *)
Definition IO (S A : Type) : Type := S → Completion A * S.

Definition ret {S A} (a : A) : IO S A := λ w, (Return a, w).
Definition throw {S A} (e : Exception) : IO S A := λ w, (Throw e, w).
Definition bind {S A B} (m : IO S A) (k : A → IO S B) : IO S B :=
  λ w, match m w with
       | (Return a, w') => k a w'
       | (Throw e, w') => (Throw e, w')
       end.
(** [try { m } catch { h }]: the effects of [m] up to the throw stay. *)
Definition try_catch {S A} (m : IO S A) (h : Exception → IO S A) : IO S A :=
  λ w, match m w with
       | (Return a, w') => (Return a, w')
       | (Throw e, w') => h e w'
       end.

(** The store runs over the file system and the clock. *)
Definition M (A : Type) : Type := IO World A.

Declare Scope io_scope.
Delimit Scope io_scope with io.
Notation "x <- m ;; k" := (bind m (λ x, k))
  (at level 100, m at next level, right associativity) : io_scope.
Notation "m ;; k" := (bind m (λ _, k))
  (at level 100, right associativity) : io_scope.
Local Open Scope io_scope.

(** *** node:fs *)

Definition readFile (path : string) : M string :=
  λ w, match files w !! path with
       | Some data => (Return data, w)
       | None => (Throw (ENOENT path), w)
       end.

Definition writeFile (path data : string) : M unit :=
  λ w, (Return tt, with_files (<[path := data]> (files w)) w).

Definition existsSync (path : string) : M bool :=
  λ w, (Return (bool_decide (is_Some (files w !! path))), w).

Definition copyFile (src dest : string) : M unit :=
  data <- readFile src ;; writeFile dest data.

Definition rename (oldPath newPath : string) : M unit :=
  λ w, match files w !! oldPath with
       | Some data =>
           (Return tt,
            with_files (<[newPath := data]> (delete oldPath (files w))) w)
       | None => (Throw (ENOENT oldPath), w)
       end.

(** [new Date().toISOString()] *)
Definition Date_now_toISOString : M string :=
  λ w, (Return (clock w (ticks w)),
        {| files := files w; clock := clock w; ticks := S (ticks w) |}).

(** [path.join(dir, name)] for a single file name. *)
Definition path_join (dir name : string) : string := dir +:+ "/" +:+ name.

(** ** server/queue.ts *)

Definition PRIORITY_ORDER (p : TaskPriority) : Z :=
  match p with High => 0 | Medium => 1 | Low => 2 end.

Definition VALID_STATUSES : gset string :=
  list_to_set ["pending"; "in_progress"; "review"; "done"].

Definition VALID_UPDATE_FIELDS : gset string :=
  list_to_set
    ["status"; "agentNotes"; "filesModified"; "afterScreenshot";
     "attempts"; "note"; "category"; "priority"].

(** [s.has(x)] on a [Set] of strings. *)
Definition Set_has (s : gset string) (x : string) : bool :=
  bool_decide (x ∈ s).

Definition emptyQueue : M Queue.t :=
  now <- Date_now_toISOString ;;
  ret {| Queue.version := 1; Queue.lastUpdated := now; Queue.items := [] |}.

(** One own property of an update payload, as [Object.entries(updates)]
    lists them.  A property that the [Task] interface declares carries a
    value of the declared type; [status] carries whatever string the caller
    sent, since the store validates it at run time; [P_unknown] is a
    property under a name that the interface does not declare, with the
    text of its value. *)
Inductive Property :=
| P_id (v : string)
| P_createdAt (v : string)
| P_updatedAt (v : string)
| P_url (v : string)
| P_type (v : TaskType)
| P_note (v : string)
| P_category (v : TaskCategory)
| P_priority (v : TaskPriority)
| P_status (v : string)
| P_screenshotPath (v : string)
| P_element (v : option ElementInfo.t)
| P_page (v : PageInfo.t)
| P_region (v : option RegionInfo.t)
| P_agentNotes (v : string)
| P_filesModified (v : list string)
| P_afterScreenshot (v : option string)
| P_attempts (v : list TaskAttempt.t)
| P_unknown (key : string) (json : string).

Definition key (p : Property) : string :=
  match p with
  | P_id _ => "id" | P_createdAt _ => "createdAt"
  | P_updatedAt _ => "updatedAt" | P_url _ => "url" | P_type _ => "type"
  | P_note _ => "note" | P_category _ => "category"
  | P_priority _ => "priority" | P_status _ => "status"
  | P_screenshotPath _ => "screenshotPath" | P_element _ => "element"
  | P_page _ => "page" | P_region _ => "region"
  | P_agentNotes _ => "agentNotes" | P_filesModified _ => "filesModified"
  | P_afterScreenshot _ => "afterScreenshot" | P_attempts _ => "attempts"
  | P_unknown k _ => k
  end.

(** [task[key] = value].  The record shows the declared properties of a
    task object only, so an undeclared property leaves it as it is. *)
Definition assign (task : Task.t) (p : Property) : Task.t :=
  match p with
  | P_id v => Task.set_id v task
  | P_createdAt v => Task.set_createdAt v task
  | P_updatedAt v => Task.set_updatedAt v task
  | P_url v => Task.set_url v task
  | P_type v => Task.set_type v task
  | P_note v => Task.set_note v task
  | P_category v => Task.set_category v task
  | P_priority v => Task.set_priority v task
  | P_status v => Task.set_status v task
  | P_screenshotPath v => Task.set_screenshotPath v task
  | P_element v => Task.set_element v task
  | P_page v => Task.set_page v task
  | P_region v => Task.set_region v task
  | P_agentNotes v => Task.set_agentNotes v task
  | P_filesModified v => Task.set_filesModified v task
  | P_afterScreenshot v => Task.set_afterScreenshot v task
  | P_attempts v => Task.set_attempts v task
  | P_unknown _ _ => task
  end.

(** [Object.assign(task, source)]: the properties of [source] in order. *)
Definition Object_assign (task : Task.t) (source : list Property) : Task.t :=
  foldl assign task source.

(** [obj.status]: the value of the property named status, [None] for
    [undefined].  A later binding of a key replaces an earlier one. *)
Definition get_status (obj : list Property) : option string :=
  list.last
    (omap (λ p, match p with P_status v => Some v | _ => None end) obj).

Definition invalid_status_message (s : string) : string :=
  "Invalid status: " +:+ s +:+
  ". Must be one of: pending, in_progress, review, done".

(** [Array.prototype.sort] is stable; [insert_sorted x l] puts [x] in front
    of the first element that does not compare below it.  For a comparator
    that is a total preorder every stable sort returns this list. *)
Fixpoint insert_sorted {A} (cmp : A → A → Z) (x : A) (l : list A) : list A :=
  match l with
  | [] => [x]
  | y :: l' => if cmp y x <? 0 then y :: insert_sorted cmp x l' else x :: l
  end.

Definition Array_sort {A} (cmp : A → A → Z) (l : list A) : list A :=
  foldr (insert_sorted cmp) [] l.

(** [buf[i]] of a [Buffer]; the bytes of a buffer are the characters of a
    string. *)
Definition byte_at (buf : string) (i : nat) : option Z :=
  (λ c, Z.of_nat (Ascii.nat_of_ascii c)) <$> String.get i buf.

Section QueueManager.
(** The constructor argument. *)
Variable reviewDir : string.
(** [JSON.stringify(queue, null, 2)] and [JSON.parse(data) as Queue];
    [None] stands for the [SyntaxError] that [JSON.parse] throws.  The cast
    to [Queue] is taken at its word: a text that parses is the text of a
    queue document. *)
Variable JSON_stringify : Queue.t → string.
Variable JSON_parse : string → option Queue.t.
(** [new Date(s).getTime()] in milliseconds, for the ISO strings that
    [toISOString] writes into [createdAt]. *)
Variable Date_getTime : string → Z.
(** [Buffer.from(data, "base64")] *)
Variable Buffer_from_base64 : string → string.

Definition queuePath : string := path_join reviewDir "queue.json".
Definition backupPath : string := path_join reviewDir "queue.json.bak".
Definition screenshotsDir : string := path_join reviewDir "screenshots".

Definition parse (data : string) : M Queue.t :=
  match JSON_parse data with
  | Some queue => ret queue
  | None => throw (SyntaxError data)
  end.

Definition isValidPngBase64 (data : string) : bool :=
  if (String.length data <? 16)%nat then false
  else
    let buf := Buffer_from_base64 (String.substring 0 16 data) in
    bool_decide (byte_at buf 0 = Some 137 ∧ byte_at buf 1 = Some 80 ∧
                 byte_at buf 2 = Some 78 ∧ byte_at buf 3 = Some 71).

(** The inner [try] of [read] either returns the recovered document from
    [read] itself ([Some]) or falls through ([None]). *)
Definition read : M Queue.t :=
  try_catch
    (data <- readFile queuePath ;;
     parse data)
    (λ _,
      hasBackup <- existsSync backupPath ;;
      recovered <-
        (if hasBackup : bool then
           try_catch
             (backup <- readFile backupPath ;;
              queue <- parse backup ;;
              writeFile queuePath backup ;;
              ret (Some queue))
             (λ _, ret None)
         else ret None) ;;
      match recovered with
      | Some queue => ret queue
      | None =>
          hasPrimary <- existsSync queuePath ;;
          if negb hasPrimary then emptyQueue else emptyQueue
      end).

Definition write (queue : Queue.t) : M unit :=
  now <- Date_now_toISOString ;;
  let queue := Queue.set_lastUpdated now queue in
  let data := JSON_stringify queue in
  hasPrimary <- existsSync queuePath ;;
  (if hasPrimary : bool then
     try_catch (copyFile queuePath backupPath) (λ _, ret tt)
   else ret tt) ;;
  let tmpPath := queuePath +:+ ".tmp" in
  writeFile tmpPath data ;;
  rename tmpPath queuePath.

Definition getTask (id : string) : M (option Task.t) :=
  queue <- read ;;
  ret (snd <$> list_find (λ t, Task.id t = id) (Queue.items queue)).

Definition updateTask (id : string) (updates : list Property)
  : M (option Task.t) :=
  queue <- read ;;
  match list_find (λ t, Task.id t = id) (Queue.items queue) with
  | None => ret None
  | Some (index, task) =>
      let filtered :=
        filter (λ p, Set_has VALID_UPDATE_FIELDS (key p) = true) updates in
      match get_status filtered with
      | Some s =>
          if negb (Set_has VALID_STATUSES s)
          then throw (Error (invalid_status_message s))
          else ret tt
      | None => ret tt
      end ;;
      now <- Date_now_toISOString ;;
      let task := Task.set_updatedAt now (Object_assign task filtered) in
      write (Queue.set_items (<[index := task]> (Queue.items queue)) queue) ;;
      ret (Some task)
  end.

Definition compare_pending (a b : Task.t) : Z :=
  let pd := PRIORITY_ORDER (Task.priority a) - PRIORITY_ORDER (Task.priority b) in
  if negb (pd =? 0) then pd
  else Date_getTime (Task.createdAt a) - Date_getTime (Task.createdAt b).

Definition getNextPending : M (option Task.t) :=
  queue <- read ;;
  let pending :=
    Array_sort compare_pending
      (filter (λ t, Task.status t = "pending") (Queue.items queue)) in
  ret (head pending).

(** Directories are not part of the file system of the embedding, so the
    call of [ensureDirs] leaves no trace. *)
Definition saveAfterScreenshot (id screenshotBase64 : string)
  : M (option Task.t) :=
  if negb (isValidPngBase64 screenshotBase64)
  then throw (Error "Invalid screenshot: not a valid base64-encoded PNG")
  else
    queue <- read ;;
    match list_find (λ t, Task.id t = id) (Queue.items queue) with
    | None => ret None
    | Some (index, task) =>
        let filename := id +:+ "-after.png" in
        let diskPath := path_join screenshotsDir filename in
        writeFile diskPath (Buffer_from_base64 screenshotBase64) ;;
        let task :=
          Task.set_afterScreenshot
            (Some (".review/screenshots/" +:+ filename)) task in
        now <- Date_now_toISOString ;;
        let task := Task.set_updatedAt now task in
        write (Queue.set_items (<[index := task]> (Queue.items queue)) queue) ;;
        ret (Some task)
    end.

End QueueManager.

(** ** server/index.ts: the task and activity routes *)

(** Modelled from the spec: [VALID_ACTIVITY_TYPES] is imported from
    [queue.js] but the source of the store does not define it; these are the
    kinds of an Activity Entry that the specification and [types.ts] list. *)
Definition VALID_ACTIVITY_TYPES : gset string :=
  list_to_set ["tool_start"; "tool_end"; "text"; "error"; "result"].

Record Response := { statusCode : Z; json : Json }.

(** One message of the event stream: [event: name], [data: payload]. *)
Record Message := { event : string; data : Json }.

(** The state that [createServer] closes over: the store (its files),
    the activity lists, and for every open subscriber channel the messages
    written to it so far. *)
Record Server := {
  world : World;
  taskActivity : gmap string (list ActivityEntry.t);
  sseClients : gmap nat (list Message);
}.

Definition set_taskActivity (a : gmap string (list ActivityEntry.t))
  (s : Server) : Server :=
  {| world := world s; taskActivity := a; sseClients := sseClients s |}.

(** A call of a method of [queue]. *)
Definition call {A} (m : M A) : IO Server A :=
  λ s, let '(r, w) := m (world s) in
       (r, {| world := w; taskActivity := taskActivity s;
              sseClients := sseClients s |}).

Definition broadcast (name : string) (payload : Json) : IO Server unit :=
  λ s, (Return tt,
        {| world := world s; taskActivity := taskActivity s;
           sseClients :=
             (λ out, out ++ [{| event := name; data := payload |}])
               <$> sseClients s |}).

Definition taskActivity_delete (id : string) : IO Server unit :=
  λ s, (Return tt, set_taskActivity (delete id (taskActivity s)) s).

Definition taskActivity_get (id : string)
  : IO Server (option (list ActivityEntry.t)) :=
  λ s, (Return (taskActivity s !! id), s).

Definition taskActivity_set (id : string) (entries : list ActivityEntry.t)
  : IO Server unit :=
  λ s, (Return tt, set_taskActivity (<[id := entries]> (taskActivity s)) s).

Definition message (e : Exception) : string :=
  match e with
  | ENOENT path => "ENOENT: no such file or directory, open '" +:+ path +:+ "'"
  | SyntaxError _ => "Unexpected token in JSON"
  | Error m => m
  end.

(** [asyncHandler] hands a rejection to the global error handler, which
    answers 500 with the message of the error. *)
Definition asyncHandler (fn : IO Server Response) : Server → Response * Server :=
  λ s, match fn s with
       | (Return res, s') => (res, s')
       | (Throw err, s') =>
           ({| statusCode := 500; json := J_error (message err) |}, s')
       end.

Definition respond (code : Z) (body : Json) : IO Server Response :=
  ret {| statusCode := code; json := body |}.

Section Routes.
Variable reviewDir : string.
Variable JSON_stringify : Queue.t → string.
Variable JSON_parse : string → option Queue.t.
Variable Date_getTime : string → Z.
Variable Buffer_from_base64 : string → string.

(** [GET /api/tasks/next] *)
Definition get_next : Server → Response * Server :=
  asyncHandler
    (task <- call (getNextPending reviewDir JSON_parse Date_getTime) ;;
     respond 200 (match task with Some t => J_task t | None => J_null end)).

(** [GET /api/tasks/:id] *)
Definition get_task (id : string) : Server → Response * Server :=
  asyncHandler
    (task <- call (getTask reviewDir JSON_parse id) ;;
     match task with
     | None => respond 404 (J_error "Task not found")
     | Some t => respond 200 (J_task t)
     end).

(** [PUT /api/tasks/:id] *)
Definition put_task (id : string) (updates : list Property)
  : Server → Response * Server :=
  asyncHandler
    (let invalid :=
       match get_status updates with
       | Some s => if Set_has VALID_STATUSES s then None else Some s
       | None => None
       end in
     match invalid with
     | Some s => respond 400 (J_error (invalid_status_message s))
     | None =>
         task <- call (updateTask reviewDir JSON_stringify JSON_parse id updates) ;;
         match task with
         | None => respond 404 (J_error "Task not found")
         | Some t =>
             broadcast "task_updated" (J_task t) ;;
             (if negb (String.eqb (Task.status t) "in_progress")
              then taskActivity_delete id else ret tt) ;;
             respond 200 (J_task t)
         end
     end).

(** [POST /api/tasks/:id/after-screenshot]; [screenshot] is the property of
    that name of the request body, [None] when the body has none. *)
Definition post_after_screenshot (id : string) (screenshot : option string)
  : Server → Response * Server :=
  asyncHandler
    (match screenshot with
     | None | Some "" => respond 400 (J_error "screenshot is required")
     | Some png =>
         task <- call (saveAfterScreenshot reviewDir JSON_stringify JSON_parse
                         Buffer_from_base64 id png) ;;
         match task with
         | None => respond 404 (J_error "Task not found")
         | Some t =>
             broadcast "task_updated" (J_task t) ;;
             respond 200 (J_task t)
         end
     end).

(** [POST /api/tasks/:id/activity] *)
Definition post_activity (id : string) (type summary : option string)
  : Server → Response * Server :=
  asyncHandler
    (task <- call (getTask reviewDir JSON_parse id) ;;
     match task with
     | None => respond 404 (J_error "Task not found")
     | Some _ =>
         let type_ := default "" type in
         if negb (Set_has VALID_ACTIVITY_TYPES type_)
         then
           respond 400
             (J_error ("Invalid activity type: " +:+ default "undefined" type +:+
                       ". Must be one of: tool_start, tool_end, text, error, result"))
         else
           now <- call Date_now_toISOString ;;
           let entry :=
             {| ActivityEntry.timestamp := now;
                ActivityEntry.type := type_;
                ActivityEntry.summary := default "" summary |} in
           stored <- taskActivity_get id ;;
           let entries := default [] stored ++ [entry] in
           taskActivity_set id entries ;;
           broadcast "task_activity" (J_activity id entry) ;;
           respond 200 (J_entries entries)
     end).

(** [GET /api/tasks/:id/activity] *)
Definition get_activity (id : string) : Server → Response * Server :=
  asyncHandler
    (task <- call (getTask reviewDir JSON_parse id) ;;
     match task with
     | None => respond 404 (J_error "Task not found")
     | Some _ =>
         stored <- taskActivity_get id ;;
         respond 200 (J_entries (default [] stored))
     end).

(** [POST /api/tasks/:id/cancel] *)
Definition post_cancel (id : string) : Server → Response * Server :=
  asyncHandler
    (task <- call (updateTask reviewDir JSON_stringify JSON_parse id
                     [P_status "done"]) ;;
     match task with
     | None => respond 404 (J_error "Task not found")
     | Some t =>
         taskActivity_delete id ;;
         broadcast "task_cancel" (J_id id) ;;
         broadcast "task_updated" (J_task t) ;;
         respond 200 (J_task t)
     end).

End Routes.

(** ** watcher.ts: the dispatch loop

    [startWatcher] closes over a handful of variables and registers
    callbacks; the event loop runs one callback at a time, and an [async]
    function runs until its next [await].  The embedding has one transition
    for each callback and for each resumption of a suspended [async] call.

    Several calls of [kickProcessing] may in principle be suspended at the
    same time, so the state keeps the list of all of them.

    Left out, since they change none of the variables that the dispatch
    depends on: logging, the prompt, the parsing of the output of the
    subprocess, the timers that only send signals to it, the backoff of the
    reconnection, and the reset of the current task by [stop]. *)

Definition DEFAULT_ALLOWED_TOOLS : string :=
  "Edit,Write,Read,Bash(curl:*),Glob,Grep".
Definition DEFAULT_AGENT_TIMEOUT : Z := 600000.
Definition DEFAULT_MAX_RETRIES : Z := 2.

(** How the promise of a [fetchJSON] call settles.  It resolves with the
    body of the response whatever the status code of the response is, and
    rejects when the request errors or times out. *)
Inductive Settlement :=
| Resolved (body : Json)
| Rejected (message : string).

(** Where a call of [kickProcessing] that passed its guard is suspended. *)
Inductive Await :=
| AwaitNext
    (* kickProcessing: await fetchJSON(`${serverUrl}/api/tasks/next`) *)
| AwaitClaim (task : Task.t)
    (* processTask: await fetchJSON(PUT, { status: "in_progress" }) *)
| AwaitExit (task : Task.t) (child : nat)
    (* processTask: await new Promise(...), resolved when the child ends *)
| AwaitTask (task : Task.t)
    (* processTask: await fetchJSON(`${serverUrl}/api/tasks/${task.id}`) *)
| AwaitReset (task : Task.t).
    (* processTask: await fetchJSON(PUT, { status: "pending" }) *)

Record Watcher := {
  pendingQueue : list string;
  processing : bool;
  currentProcess : option nat;
  currentTaskId : option string;
  stopped : bool;
  (** the suspended calls of [kickProcessing], oldest first *)
  calls : list Await;
  (** the subprocesses that were spawned and have not ended *)
  active : list nat;
  (** how many subprocesses were spawned so far; names the next one *)
  spawned : nat;
}.

(** What a transition does to the outside. *)
Inductive Action :=
| GetNext                                (* GET /api/tasks/next *)
| PutStatus (id : string) (status : TaskStatus)   (* PUT /api/tasks/:id *)
| GetTask (id : string)                  (* GET /api/tasks/:id *)
| Spawn (child : nat) (task : Task.t)    (* spawn("claude", args, ...) *)
| Kill (child : nat) (signal : string)   (* child.kill(signal) *)
| RetryLater.                            (* setTimeout(() => kickProcessing(), 5000) *)

(** What the event loop can run next. *)
Inductive Event :=
| InitFetched (r : Settlement)        (* init: the fetch of /api/tasks settles *)
| Synced (r : Settlement)             (* syncAndReconnect: the same fetch *)
| TaskCreated (task : Task.t)         (* SSE task_created *)
| TaskUpdated (task : Task.t)         (* SSE task_updated *)
| TaskDeleted (id : string)           (* SSE task_deleted *)
| TaskCancel (id : string)            (* SSE task_cancel *)
| RetryTimer                          (* the timer set by RetryLater fires *)
| Settled (call : nat) (r : Settlement)
    (* the fetch that suspended call number [call] awaits settles *)
| ChildClose (child : nat)            (* child.on("close"): the child ended *)
| ChildError (child : nat)            (* child.on("error"): it could not be spawned *)
| Stop.                               (* stop() *)

Definition set_pendingQueue (v : list string) (s : Watcher) : Watcher :=
  {| pendingQueue := v; processing := processing s;
     currentProcess := currentProcess s; currentTaskId := currentTaskId s;
     stopped := stopped s; calls := calls s; active := active s;
     spawned := spawned s |}.
Definition set_processing (v : bool) (s : Watcher) : Watcher :=
  {| pendingQueue := pendingQueue s; processing := v;
     currentProcess := currentProcess s; currentTaskId := currentTaskId s;
     stopped := stopped s; calls := calls s; active := active s;
     spawned := spawned s |}.
Definition set_currentProcess (v : option nat) (s : Watcher) : Watcher :=
  {| pendingQueue := pendingQueue s; processing := processing s;
     currentProcess := v; currentTaskId := currentTaskId s;
     stopped := stopped s; calls := calls s; active := active s;
     spawned := spawned s |}.
Definition set_currentTaskId (v : option string) (s : Watcher) : Watcher :=
  {| pendingQueue := pendingQueue s; processing := processing s;
     currentProcess := currentProcess s; currentTaskId := v;
     stopped := stopped s; calls := calls s; active := active s;
     spawned := spawned s |}.
Definition set_stopped (v : bool) (s : Watcher) : Watcher :=
  {| pendingQueue := pendingQueue s; processing := processing s;
     currentProcess := currentProcess s; currentTaskId := currentTaskId s;
     stopped := v; calls := calls s; active := active s;
     spawned := spawned s |}.
Definition set_calls (v : list Await) (s : Watcher) : Watcher :=
  {| pendingQueue := pendingQueue s; processing := processing s;
     currentProcess := currentProcess s; currentTaskId := currentTaskId s;
     stopped := stopped s; calls := v; active := active s;
     spawned := spawned s |}.
Definition set_active (v : list nat) (s : Watcher) : Watcher :=
  {| pendingQueue := pendingQueue s; processing := processing s;
     currentProcess := currentProcess s; currentTaskId := currentTaskId s;
     stopped := stopped s; calls := calls s; active := v;
     spawned := spawned s |}.
Definition set_spawned (v : nat) (s : Watcher) : Watcher :=
  {| pendingQueue := pendingQueue s; processing := processing s;
     currentProcess := currentProcess s; currentTaskId := currentTaskId s;
     stopped := stopped s; calls := calls s; active := active s;
     spawned := v |}.

(** The variables as [startWatcher] declares them. *)
Definition startWatcher : Watcher :=
  {| pendingQueue := []; processing := false; currentProcess := None;
     currentTaskId := None; stopped := false; calls := []; active := [];
     spawned := 0 |}.

(** [pendingQueue.filter((qid) => qid !== id)] *)
Definition without (id : string) (queue : list string) : list string :=
  filter (λ qid, qid ≠ id) queue.

(** The ids of the pending tasks of a [GET /api/tasks] body. *)
Definition pending_ids (body : Json) : list string :=
  match body with
  | J_queue q =>
      Task.id <$> filter (λ t, Task.status t = "pending") (Queue.items q)
  | _ => []
  end.

Section DispatchLoop.
Variable options : WatcherOptions.t.

Definition maxRetries : Z :=
  default DEFAULT_MAX_RETRIES (WatcherOptions.maxRetries options).

(** [kickProcessing] up to its first [await]. *)
Definition kickProcessing (s : Watcher) : Watcher * list Action :=
  if processing s || stopped s || (length (pendingQueue s) =? 0)%nat
  then (s, [])
  else (set_calls (calls s ++ [AwaitNext]) (set_processing true s), [GetNext]).

Definition enqueue (taskId : string) (s : Watcher) : Watcher * list Action :=
  if negb (bool_decide (taskId ∈ pendingQueue s)) &&
     negb (bool_decide (Some taskId = currentTaskId s))
  then kickProcessing (set_pendingQueue (pendingQueue s ++ [taskId]) s)
  else (s, []).

(** [for (const task of pending) enqueue(task.id)] *)
Fixpoint enqueue_all (ids : list string) (s : Watcher) : Watcher * list Action :=
  match ids with
  | [] => (s, [])
  | id :: ids =>
      let '(s, acts) := enqueue id s in
      let '(s, acts') := enqueue_all ids s in
      (s, acts ++ acts')
  end.

(** The call number [call] returns or throws: it is no longer suspended. *)
Definition ends (call : nat) (s : Watcher) : Watcher :=
  set_calls (delete call (calls s)) s.

(** [kickProcessing] from the [finally] block on, when [processTask]
    returned normally. *)
Definition after_processTask (call : nat) (s : Watcher) : Watcher * list Action :=
  let s := set_processing false (ends call s) in
  if negb (stopped s) then
    if (0 <? length (pendingQueue s))%nat then kickProcessing s else (s, [])
  else (s, []).

(** [kickProcessing] from its [catch] block on. *)
Definition caught (call : nat) (s : Watcher) : Watcher * list Action :=
  (set_processing false (ends call s), [RetryLater]).

(** [processTask] from its last statement on: [currentTaskId = null]. *)
Definition processTask_returns (call : nat) (s : Watcher) : Watcher * list Action :=
  after_processTask call (set_currentTaskId None s).

(** The resumption of a suspended call when the fetch it awaits settles. *)
Definition resume (call : nat) (r : Settlement) (s : Watcher)
  : Watcher * list Action :=
  match calls s !! call with
  | Some AwaitNext =>
      match r with
      | Rejected _ => caught call s
      | Resolved J_null =>
          (set_processing false (ends call (set_pendingQueue [] s)), [])
      | Resolved (J_task task) =>
          if (0 <? maxRetries) &&
             (maxRetries <=? Z.of_nat (length (Task.attempts task)))
          then
            (set_processing false
               (ends call
                  (set_pendingQueue (without (Task.id task) (pendingQueue s)) s)),
             [])
          else
            let s := set_pendingQueue (without (Task.id task) (pendingQueue s)) s in
            let s := set_currentTaskId (Some (Task.id task)) s in
            (set_calls (<[call := AwaitClaim task]> (calls s)) s,
             [PutStatus (Task.id task) "in_progress"])
      | Resolved _ => caught call s
      end
  | Some (AwaitClaim task) =>
      match r with
      | Rejected _ => processTask_returns call s
      | Resolved _ =>
          let child := spawned s in
          let s := set_spawned (S child) (set_active (child :: active s) s) in
          let s := set_currentProcess (Some child) s in
          (set_calls (<[call := AwaitExit task child]> (calls s)) s,
           [Spawn child task])
      end
  | Some (AwaitTask task) =>
      match r with
      | Resolved (J_task updated) =>
          if String.eqb (Task.status updated) "review"
          then processTask_returns call s
          else if String.eqb (Task.status updated) "in_progress"
          then (set_calls (<[call := AwaitReset task]> (calls s)) s,
                [PutStatus (Task.id task) "pending"])
          else processTask_returns call s
      | _ => processTask_returns call s
      end
  | Some (AwaitReset task) => processTask_returns call s
  | Some (AwaitExit _ _) | None => (s, [])
  end.

(** The exit promise of [child] resolves: every call that awaits it goes on
    to fetch the task. *)
Definition exited (child : nat) (s : Watcher) : Watcher * list Action :=
  (set_calls
     ((λ c, match c with
            | AwaitExit task child' =>
                if (child' =? child)%nat then AwaitTask task else c
            | _ => c
            end) <$> calls s) s,
   omap (λ c, match c with
              | AwaitExit task child' =>
                  if (child' =? child)%nat then Some (GetTask (Task.id task))
                  else None
              | _ => None
              end) (calls s)).

Definition step (s : Watcher) (e : Event) : Watcher * list Action :=
  match e with
  | InitFetched r =>
      let s :=
        match r with
        | Resolved body => set_pendingQueue (pendingQueue s ++ pending_ids body) s
        | Rejected _ => s
        end in
      if (0 <? length (pendingQueue s))%nat then kickProcessing s else (s, [])
  | Synced r =>
      match r with
      | Resolved body => enqueue_all (pending_ids body) s
      | Rejected _ => (s, [])
      end
  | TaskCreated task => enqueue (Task.id task) s
  | TaskUpdated task =>
      if String.eqb (Task.status task) "pending"
      then enqueue (Task.id task) s else (s, [])
  | TaskDeleted id => (set_pendingQueue (without id (pendingQueue s)) s, [])
  | TaskCancel id =>
      match currentProcess s with
      | Some child =>
          if bool_decide (Some id = currentTaskId s)
          then (s, [Kill child "SIGTERM"]) else (s, [])
      | None => (s, [])
      end
  | RetryTimer => kickProcessing s
  | Settled call r => resume call r s
  | ChildClose child =>
      if (child <? spawned s)%nat then
        exited child
          (set_currentProcess None
             (set_active (filter (λ c, c ≠ child) (active s)) s))
      else (s, [])
  | ChildError child =>
      if bool_decide (child ∈ active s) then
        exited child (set_active (filter (λ c, c ≠ child) (active s)) s)
      else (s, [])
  | Stop =>
      (set_stopped true s,
       match currentProcess s with
       | Some child => [Kill child "SIGTERM"]
       | None => []
       end)
  end.

(** A run of the loop: the events in the order the event loop takes them,
    with the actions of every transition. *)
Fixpoint run (s : Watcher) (events : list Event) : Watcher * list Action :=
  match events with
  | [] => (s, [])
  | e :: events =>
      let '(s, acts) := step s e in
      let '(s, acts') := run s events in
      (s, acts ++ acts')
  end.

End DispatchLoop.

(** ** Instances of the platform functions

    The theorems below hold for every [JSON.stringify] and [JSON.parse]
    that round-trip.  [print] and [scan] are one such pair, and
    [base64_decode] is the decoding of RFC 4648; they instantiate the
    platform functions in the examples. *)

Global Instance TaskType_eq_dec : EqDecision TaskType.
Proof. solve_decision. Defined.
Global Instance TaskCategory_eq_dec : EqDecision TaskCategory.
Proof. solve_decision. Defined.
Global Instance TaskPriority_eq_dec : EqDecision TaskPriority.
Proof. solve_decision. Defined.
Global Instance Rect_eq_dec : EqDecision Rect.t.
Proof. solve_decision. Defined.
Global Instance ElementInfo_eq_dec : EqDecision ElementInfo.t.
Proof. solve_decision. Defined.
Global Instance PageInfo_eq_dec : EqDecision PageInfo.t.
Proof. solve_decision. Defined.
Global Instance RegionInfo_eq_dec : EqDecision RegionInfo.t.
Proof. solve_decision. Defined.
Global Instance TaskAttempt_eq_dec : EqDecision TaskAttempt.t.
Proof. solve_decision. Defined.
Global Instance Task_eq_dec : EqDecision Task.t.
Proof. solve_decision. Defined.
Global Instance Queue_eq_dec : EqDecision Queue.t.
Proof. solve_decision. Defined.

Global Instance TaskType_countable : Countable TaskType :=
  inj_countable'
    (λ x, match x with Element => 0%nat | Page => 1%nat | Region => 2%nat end)
    (λ n, match n with 0%nat => Element | 1%nat => Page | _ => Region end)
    (λ x, ltac:(by destruct x)).
Global Instance TaskCategory_countable : Countable TaskCategory :=
  inj_countable'
    (λ x, match x with Tweak => 0%nat | Bug => 1%nat | Feature => 2%nat end)
    (λ n, match n with 0%nat => Tweak | 1%nat => Bug | _ => Feature end)
    (λ x, ltac:(by destruct x)).
Global Instance TaskPriority_countable : Countable TaskPriority :=
  inj_countable'
    (λ x, match x with High => 0%nat | Medium => 1%nat | Low => 2%nat end)
    (λ n, match n with 0%nat => High | 1%nat => Medium | _ => Low end)
    (λ x, ltac:(by destruct x)).
Global Instance Rect_countable : Countable Rect.t :=
  inj_countable'
    (λ r, (Rect.x r, Rect.y r, Rect.width r, Rect.height r))
    (λ '(a, b, c, d), Rect.Build_t a b c d)
    (λ x, ltac:(by destruct x)).
Global Instance ElementInfo_countable : Countable ElementInfo.t :=
  inj_countable'
    (λ e, (ElementInfo.component e, ElementInfo.sourceFile e,
           ElementInfo.sourceLine e, ElementInfo.selector e,
           ElementInfo.rect e, ElementInfo.computedStyles e))
    (λ '(a, b, c, d, e, f), ElementInfo.Build_t a b c d e f)
    (λ x, ltac:(by destruct x)).
Global Instance PageInfo_countable : Countable PageInfo.t :=
  inj_countable'
    (λ p, (PageInfo.component p, PageInfo.sourceFile p, PageInfo.sourceLine p))
    (λ '(a, b, c), PageInfo.Build_t a b c)
    (λ x, ltac:(by destruct x)).
Global Instance RegionInfo_countable : Countable RegionInfo.t :=
  inj_countable' RegionInfo.rect RegionInfo.Build_t
    (λ x, ltac:(by destruct x)).
Global Instance TaskAttempt_countable : Countable TaskAttempt.t :=
  inj_countable'
    (λ a, (TaskAttempt.agentNotes a, TaskAttempt.filesModified a,
           TaskAttempt.retryReason a, TaskAttempt.afterScreenshot a,
           TaskAttempt.timestamp a))
    (λ '(a, b, c, d, e), TaskAttempt.Build_t a b c d e)
    (λ x, ltac:(by destruct x)).
Global Instance Task_countable : Countable Task.t :=
  inj_countable'
    (λ k, ((Task.id k, Task.createdAt k, Task.updatedAt k, Task.url k),
           (Task.type k, Task.note k, Task.category k, Task.priority k),
           (Task.status k, Task.screenshotPath k, Task.element k, Task.page k),
           (Task.region k, Task.agentNotes k, Task.filesModified k,
            Task.afterScreenshot k, Task.attempts k)))
    (λ '((a, b, c, d), (e, f, g, h), (i, j, k, l), (m, n, o, p, q)),
       Task.Build_t a b c d e f g h i j k l m n o p q)
    (λ x, ltac:(by destruct x)).
Global Instance Queue_countable : Countable Queue.t :=
  inj_countable'
    (λ q, (Queue.version q, Queue.lastUpdated q, Queue.items q))
    (λ '(a, b, c), Queue.Build_t a b c)
    (λ x, ltac:(by destruct x)).

Fixpoint bits (p : positive) : string :=
  match p with
  | xH => ""
  | xO p => String "0"%char (bits p)
  | xI p => String "1"%char (bits p)
  end.

Fixpoint unbits (s : string) : option positive :=
  match s with
  | "" => Some xH
  | String c s =>
      p ← unbits s;
      if Ascii.eqb c "0"%char then Some (xO p)
      else if Ascii.eqb c "1"%char then Some (xI p) else None
  end.

Definition print (q : Queue.t) : string := bits (encode q).
Definition scan (s : string) : option Queue.t := unbits s ≫= decode.
Global Arguments print : simpl never.
Global Arguments scan : simpl never.

Definition base64_value (c : ascii) : option N :=
  let n := N_of_ascii c in
  (if (65 <=? n) && (n <=? 90) then Some (n - 65)
   else if (97 <=? n) && (n <=? 122) then Some (n - 71)
   else if (48 <=? n) && (n <=? 57) then Some (n + 4)
   else if n =? 43 then Some 62
   else if n =? 47 then Some 63
   else None)%N.

(** The values of the characters up to the first one outside the
    alphabet (the padding, if any). *)
Fixpoint base64_values (s : string) : list N :=
  match s with
  | "" => []
  | String c s =>
      match base64_value c with
      | Some v => v :: base64_values s
      | None => []
      end
  end.

Fixpoint base64_bytes (l : list N) : list N :=
  match l with
  | a :: b :: c :: d :: l =>
      (let n := a * 262144 + b * 4096 + c * 64 + d in
       n / 65536 :: (n / 256) mod 256 :: n mod 256 :: base64_bytes l)%N
  | [a; b; c] =>
      (let n := a * 4096 + b * 64 + c in [n / 1024; (n / 4) mod 256])%N
  | [a; b] => [((a * 64 + b) / 16)%N]
  | _ => []
  end.

Definition base64_decode (s : string) : string :=
  String.string_of_list_ascii (ascii_of_N <$> base64_bytes (base64_values s)).

(** [new Date(s).getTime()] for the time stamps that [toISOString] writes,
    [YYYY-MM-DDTHH:mm:ss.sssZ]: the milliseconds since the first of January
    1970, with the days counted in the Gregorian calendar. *)
Definition digit_at (s : string) (i : nat) : Z :=
  match String.get i s with
  | Some c => Z.of_nat (nat_of_ascii c) - 48
  | None => 0
  end.

Definition number_at (s : string) (i len : nat) : Z :=
  foldl (λ n k, n * 10 + digit_at s (i + k)) 0 (seq 0 len).

Definition days_from_civil (y m d : Z) : Z :=
  let y := if m <=? 2 then y - 1 else y in
  let era := y / 400 in
  let yoe := y - era * 400 in
  let doy := (153 * (if 2 <? m then m - 3 else m + 9) + 2) / 5 + d - 1 in
  let doe := yoe * 365 + yoe / 4 - yoe / 100 + doy in
  era * 146097 + doe - 719468.

Definition Date_getTime_iso (s : string) : Z :=
  let days :=
    days_from_civil (number_at s 0 4) (number_at s 5 2) (number_at s 8 2) in
  (((days * 24 + number_at s 11 2) * 60 + number_at s 14 2) * 60 +
   number_at s 17 2) * 1000 + number_at s 20 3.

(** The example data of the test suites: a one-pixel PNG in base64, and a
    task as [addTask] would have made it. *)
Definition testPng : string :=
  "iVBORw0KGgoAAAANSUhEUgAAAAEAAAABCAIAAACQd1PeAAAADElEQVQI12P4z8AAAAACAAHiIbwzAAAAAElFTkSuQmCC".

Definition testTask (id createdAt : string) (priority : TaskPriority)
  (status : TaskStatus) (attempts : list TaskAttempt.t) : Task.t :=
  {| Task.id := id; Task.createdAt := createdAt; Task.updatedAt := createdAt;
     Task.url := "/test"; Task.type := Element; Task.note := "Fix this";
     Task.category := Tweak; Task.priority := priority; Task.status := status;
     Task.screenshotPath := ".review/screenshots/" +:+ id +:+ ".png";
     Task.element := None;
     Task.page := {| PageInfo.component := "App";
                     PageInfo.sourceFile := "src/App.tsx";
                     PageInfo.sourceLine := None |};
     Task.region := None; Task.agentNotes := ""; Task.filesModified := [];
     Task.afterScreenshot := None; Task.attempts := attempts |}.

Definition testQueue (items : list Task.t) : Queue.t :=
  {| Queue.version := 1; Queue.lastUpdated := "2026-02-22T10:00:00.000Z";
     Queue.items := items |}.

(** A world whose clock always shows the same instant. *)
Definition testWorld (files : gmap string string) : World :=
  {| files := files; clock := λ _, "2026-02-22T10:00:01.000Z"; ticks := 0 |}.

(** The server of the examples: its store holds [items], nothing else is on
    disk, no activity is recorded and nobody is subscribed. *)
Definition reviewTask : Task.t :=
  testTask "t1" "2026-02-22T09:00:00.000Z" High "review" [].

Definition testServer (items : list Task.t) : Server :=
  {| world := testWorld {[queuePath ".review" := print (testQueue items)]};
     taskActivity := ∅; sseClients := ∅ |}.

(** The watcher of the examples runs with the defaults, so with a maximum
    of two retries.  [blockedTask] was rejected twice; [freshTask] was never
    tried and has a lower priority. *)
Definition testOptions : WatcherOptions.t :=
  {| WatcherOptions.serverUrl := "http://localhost:4173";
     WatcherOptions.projectRoot := "/project";
     WatcherOptions.maxTurns := 25;
     WatcherOptions.allowedTools := None;
     WatcherOptions.agentTimeout := None;
     WatcherOptions.maxRetries := None |}.

Definition testAttempt (reason : string) : TaskAttempt.t :=
  {| TaskAttempt.agentNotes := "Changed the padding";
     TaskAttempt.filesModified := ["src/App.tsx"];
     TaskAttempt.retryReason := reason;
     TaskAttempt.afterScreenshot := None;
     TaskAttempt.timestamp := "2026-02-22T09:30:00.000Z" |}.

Definition blockedTask : Task.t :=
  testTask "t1" "2026-02-22T09:00:00.000Z" High "pending"
    [testAttempt "Still too wide"; testAttempt "Now too narrow"].

Definition freshTask : Task.t :=
  testTask "t2" "2026-02-22T09:05:00.000Z" Low "pending" [].

(** ** Vocabulary of the statements *)

(** The value and the final state of a run. *)
Definition eval {S A} (m : IO S A) (s : S) : Completion A := fst (m s).
Definition exec {S A} (m : IO S A) (s : S) : S := snd (m s).

(** The document that the file at [path] holds: [None] when the file is
    absent or does not parse. *)
Definition document (JSON_parse : string → option Queue.t) (w : World)
  (path : string) : option Queue.t :=
  files w !! path ≫= JSON_parse.

(** The files that [write] leaves: the old primary file, if there was one,
    is the backup, and the primary file holds the text of the document
    stamped with the time of the write. *)
Definition written (reviewDir : string) (JSON_stringify : Queue.t → string)
  (queue : Queue.t) (w : World) : gmap string string :=
  let data :=
    JSON_stringify (Queue.set_lastUpdated (clock w (ticks w)) queue) in
  let saved :=
    match files w !! queuePath reviewDir with
    | Some old => <[backupPath reviewDir := old]> (files w)
    | None => files w
    end in
  <[queuePath reviewDir := data]>
    (delete (queuePath reviewDir +:+ ".tmp")
       (<[queuePath reviewDir +:+ ".tmp" := data]> saved)).
Global Arguments written : simpl never.

(** The properties of a payload that [updateTask] keeps. *)
Definition allowed (p : Property) : Prop :=
  Set_has VALID_UPDATE_FIELDS (key p) = true.

(** Single flight: at most one call of [kickProcessing] is suspended, the
    flag [processing] is set exactly while there is one, and the subprocesses
    that have not ended are the one whose exit that call awaits, if any. *)
Definition single_flight (s : Watcher) : Prop :=
  match calls s with
  | [] => processing s = false ∧ active s = []
  | [c] =>
      processing s = true ∧
      active s = match c with AwaitExit _ child => [child] | _ => [] end
  | _ => False
  end.

(** The actions that dispatch a task: the claim and the spawn. *)
Definition dispatches (a : Action) : Prop :=
  match a with
  | PutStatus _ status => status = "in_progress"
  | Spawn _ _ => True
  | _ => False
  end.

(** The settlement [r] lets the call suspended at [c] run [processTask] to
    its end: the answer to the fetch of the task after the exit of the
    subprocess, unless it shows the task still in progress, or the answer to
    the reset that follows in that case. *)
Definition finishes_task (c : Await) (r : Settlement) : Prop :=
  match c with
  | AwaitTask _ =>
      match r with
      | Resolved (J_task updated) => Task.status updated ≠ "in_progress"
      | _ => True
      end
  | AwaitReset _ => True
  | _ => False
  end.

(** The retry limit applies to the task: a limit is configured and the
    task has at least that many attempts. *)
Definition over_limit (options : WatcherOptions.t) (task : Task.t) : Prop :=
  0 < maxRetries options ∧
  maxRetries options ≤ Z.of_nat (length (Task.attempts task)).

(** Every call suspended at a claim is for a task under the limit. *)
Definition claims_under_limit (options : WatcherOptions.t) (s : Watcher)
  : Prop :=
  ∀ task, AwaitClaim task ∈ calls s → ¬ over_limit options task.


(** No call is past the fetch of the next task. *)
Definition only_fetching (s : Watcher) : Prop :=
  ∀ c, c ∈ calls s → c = AwaitNext.

(** The order of the specification on the priorities: high before medium
    before low.  It is written from the words of the specification, to be
    compared with the table [PRIORITY_ORDER] of the code. *)
Definition ranks_before (p q : TaskPriority) : Prop :=
  match p, q with
  | High, Medium | High, Low | Medium, Low => True
  | _, _ => False
  end.

(** ** The rest of the store, of the server and of the watcher

    [addTask], [deleteTask], [cleanupScreenshots] and [getStatus] of
    [server/queue.ts], the routes that use them and the event stream of
    [server/index.ts], and of [watcher.ts] the client of the event stream,
    the reading of the output of the agent and the reconnection. *)

(** The input of [addTask]. *)
Module CreateTaskInput.
Record t := {
  url : string;
  note : string;
  category : TaskCategory;
  priority : TaskPriority;
  type : TaskType;
  screenshot : string;
  element : option ElementInfo.t;
  page : PageInfo.t;
  region : option RegionInfo.t;
}.
End CreateTaskInput.

Definition unlink (path : string) : M unit :=
  λ w, match files w !! path with
       | Some _ => (Return tt, with_files (delete path (files w)) w)
       | None => (Throw (ENOENT path), w)
       end.

(** [for (const x of l) { body }] *)
Fixpoint for_of {S A} (l : list A) (body : A → IO S unit) : IO S unit :=
  match l with
  | [] => ret tt
  | x :: l => (body x ;; for_of l body)
  end.

(** ** server/queue.ts: creating, deleting and counting tasks *)

(** The summary that [getStatus] returns. *)
Module Status.
Record t := {
  totalItems : nat;
  pending : nat;
  inProgress : nat;
  review : nat;
  done : nat;
}.
End Status.

Section Tasks.
Variable reviewDir : string.
Variable JSON_stringify : Queue.t → string.
Variable JSON_parse : string → option Queue.t.
Variable Buffer_from_base64 : string → string.

(** [uuid] is the value that [randomUUID()] returns in this call. *)
Definition addTask (uuid : string) (input : CreateTaskInput.t) : M Task.t :=
  if negb (isValidPngBase64 Buffer_from_base64 (CreateTaskInput.screenshot input))
  then throw (Error "Invalid screenshot: not a valid base64-encoded PNG")
  else
    queue <- read reviewDir JSON_parse ;;
    let id := uuid in
    now <- Date_now_toISOString ;;
    let screenshotFilename := id +:+ ".png" in
    let screenshotDiskPath :=
      path_join (screenshotsDir reviewDir) screenshotFilename in
    let screenshotBuffer :=
      Buffer_from_base64 (CreateTaskInput.screenshot input) in
    writeFile screenshotDiskPath screenshotBuffer ;;
    let task :=
      {| Task.id := id;
         Task.createdAt := now;
         Task.updatedAt := now;
         Task.url := CreateTaskInput.url input;
         Task.type := CreateTaskInput.type input;
         Task.note := CreateTaskInput.note input;
         Task.category := CreateTaskInput.category input;
         Task.priority := CreateTaskInput.priority input;
         Task.status := "pending";
         Task.screenshotPath := ".review/screenshots/" +:+ screenshotFilename;
         Task.element := CreateTaskInput.element input;
         Task.page := CreateTaskInput.page input;
         Task.region := CreateTaskInput.region input;
         Task.agentNotes := "";
         Task.filesModified := [];
         Task.afterScreenshot := None;
         Task.attempts := [] |} in
    write reviewDir JSON_stringify
      (Queue.set_items (Queue.items queue ++ [task]) queue) ;;
    ret task.

Definition cleanupScreenshots (taskId : string) : M unit :=
  let files := [taskId +:+ ".png"; taskId +:+ "-after.png"] in
  for_of files
    (λ file,
       let filePath := path_join (screenshotsDir reviewDir) file in
       try_catch (unlink filePath) (λ _, ret tt)).

(** [deleteTask] starts [cleanupScreenshots] and does not wait for it: its
    promise resolves with the document written, and the clean-up runs on
    its own. *)
Definition deleteTask (id : string) : M bool :=
  queue <- read reviewDir JSON_parse ;;
  match list_find (λ t, Task.id t = id) (Queue.items queue) with
  | None => ret false
  | Some _ =>
      write reviewDir JSON_stringify
        (Queue.set_items
           (filter (λ t, Task.id t ≠ id) (Queue.items queue)) queue) ;;
      ret true
  end.

Definition getStatus : M Status.t :=
  queue <- read reviewDir JSON_parse ;;
  let count (status : string) :=
    length (filter (λ t, Task.status t = status) (Queue.items queue)) in
  ret {| Status.totalItems := length (Queue.items queue);
         Status.pending := count "pending";
         Status.inProgress := count "in_progress";
         Status.review := count "review";
         Status.done := count "done" |}.

End Tasks.

(** ** server/index.ts: the other task routes and the event stream *)

(** The body of [POST /api/tasks] as it arrives.  The route checks [note]
    and [page], and [addTask] checks [screenshot]; the other properties are
    taken at the word of the cast to [CreateTaskInput]. *)
Module RequestBody.
Record t := {
  url : string;
  note : option string;
  category : TaskCategory;
  priority : TaskPriority;
  type : TaskType;
  screenshot : option string;
  element : option ElementInfo.t;
  page : option PageInfo.t;
  region : option RegionInfo.t;
}.
End RequestBody.

Section TaskRoutes.
Variable reviewDir : string.
Variable JSON_stringify : Queue.t → string.
Variable JSON_parse : string → option Queue.t.
Variable Buffer_from_base64 : string → string.

(** [GET /api/tasks] *)
Definition get_tasks : Server → Response * Server :=
  asyncHandler
    (data <- call (read reviewDir JSON_parse) ;;
     respond 200 (J_queue data)).

(** [POST /api/tasks]; a screenshot that is missing fails the check of
    [addTask] as the empty one does. *)
Definition post_task (uuid : string) (body : RequestBody.t)
  : Server → Response * Server :=
  asyncHandler
    (match RequestBody.note body, RequestBody.page body with
     | Some note, Some page =>
         if String.eqb note ""
         then respond 400 (J_error "note and page are required")
         else
           let input :=
             {| CreateTaskInput.url := RequestBody.url body;
                CreateTaskInput.note := note;
                CreateTaskInput.category := RequestBody.category body;
                CreateTaskInput.priority := RequestBody.priority body;
                CreateTaskInput.type := RequestBody.type body;
                CreateTaskInput.screenshot :=
                  default "" (RequestBody.screenshot body);
                CreateTaskInput.element := RequestBody.element body;
                CreateTaskInput.page := page;
                CreateTaskInput.region := RequestBody.region body |} in
           task <- call (addTask reviewDir JSON_stringify JSON_parse
                           Buffer_from_base64 uuid input) ;;
           broadcast "task_created" (J_task task) ;;
           respond 201 (J_task task)
     | _, _ => respond 400 (J_error "note and page are required")
     end).

(** [DELETE /api/tasks/:id] *)
Definition delete_task (id : string) : Server → Response * Server :=
  asyncHandler
    (deleted <- call (deleteTask reviewDir JSON_stringify JSON_parse id) ;;
     if negb deleted
     then respond 404 (J_error "Task not found")
     else
       taskActivity_delete id ;;
       broadcast "task_deleted" (J_id id) ;;
       respond 200 J_ok).

End TaskRoutes.

(** [GET /api/events]: the response object joins [sseClients]; it is a new
    object, so a new key. *)
Definition get_events (s : Server) : nat * Server :=
  let res := fresh (dom (sseClients s)) in
  (res, {| world := world s; taskActivity := taskActivity s;
           sseClients := <[res := []]> (sseClients s) |}).

(** [req.on("close", ...)] *)
Definition events_close (res : nat) (s : Server) : Server :=
  {| world := world s; taskActivity := taskActivity s;
     sseClients := delete res (sseClients s) |}.

(** A JavaScript number that is finite: [mantissa] times two to the
    [exponent].  The functions modelled here only print numbers. *)
Module Number.
Record t := { mantissa : Z; exponent : Z }.
End Number.

(** The events of the stream-json output of the agent, as the interface
    [StreamEvent] of [watcher.ts] declares them.  The inputs of a tool are
    taken to be strings, as the properties that [summarizeTool] reads are. *)
Module ContentBlock.
Record t := {
  type : string;
  text : option string;
  name : option string;
  input : option (gmap string string);
}.
End ContentBlock.

Module StreamMessage.
Record t := { content : option (list ContentBlock.t) }.
End StreamMessage.

Module StreamEvent.
Record t := {
  type : string;
  subtype : option string;
  message : option StreamMessage.t;
  result : option string;
  cost_usd : option Number.t;
  num_turns : option Number.t;
}.
End StreamEvent.

(** What [extractActivities] returns, and the body that the watcher posts
    to the activity route. *)
Module Activity.
Record t := { type : string; summary : string }.
End Activity.

(** *** The text of the event stream *)

Definition LF : ascii := "010"%char.

Section EventStream.
(** [JSON.stringify(data)] on the payload of a message. *)
Variable JSON_stringify : Json → string.

(** The text that [broadcast] writes to every client:
    [`event: ${event}\ndata: ${JSON.stringify(data)}\n\n`]. *)
Definition broadcast_msg (m : Message) : string :=
  "event: " +:+ event m +:+
  String LF ("data: " +:+ JSON_stringify (data m) +:+ String LF (String LF "")).

(** What a client has been sent when [out] is its list of messages: the
    keepalive comment that [GET /api/events] writes first, then the text of
    every message. *)
Definition event_stream (out : list Message) : string :=
  ":" +:+ String LF (String LF "") +:+
  foldr (λ m rest, broadcast_msg m +:+ rest) "" out.

End EventStream.

(** ** watcher.ts: the event stream client, the output of the agent and
    the reconnection *)

(** [s.split(sep)] for a separator of one character. *)
Fixpoint String_split (sep : ascii) (s : string) : list string :=
  match s with
  | "" => [""]
  | String c s =>
      if Ascii.eqb c sep then "" :: String_split sep s
      else
        match String_split sep s with
        | line :: lines => String c line :: lines
        | [] => [String c ""]
        end
  end.

(** [s.slice(n)] *)
Fixpoint String_slice (n : nat) (s : string) : string :=
  match n, s with
  | O, _ => s
  | S n, String _ s => String_slice n s
  | S _, "" => ""
  end.

(** A chunk of a stream, as the [data] event hands it over: a [Buffer],
    its bytes in order. *)
Definition Buffer : Type := list Byte.byte.

(** The variables of the response callback of [connectSSE]. *)
Record Stream := { buffer : string; currentEvent : string }.

(** Their values when the response arrives. *)
Definition connectSSE_start : Stream := {| buffer := ""; currentEvent := "message" |}.

Section ConnectSSE.
Context {A : Type}.
(** [chunk.toString()]: the bytes of the chunk decoded as UTF-8, each chunk
    on its own. *)
Variable Buffer_toString : Buffer → string.
(** [JSON.parse] on the payload of a message; [None] when it throws. *)
Variable JSON_parse : string → option Json.
(** [String.prototype.trim] *)
Variable String_trim : string → string.
(** [handlers[name]], and what a call of the handler amounts to. *)
Variable handlers : string → option (Json → A).

(** The body of [for (const line of lines)]: the new value of
    [currentEvent] and the handler calls made. *)
Definition connectSSE_line (currentEvent line : string) : string * list A :=
  if String.prefix "event: " line then
    (String_trim (String_slice 7 line), [])
  else if String.prefix "data: " line then
    ("message",
     match JSON_parse (String_slice 6 line) with
     | Some data =>
         match handlers currentEvent with
         | Some handler => [handler data]
         | None => []
         end
     | None => []
     end)
  else (currentEvent, []).

Fixpoint connectSSE_lines (currentEvent : string) (lines : list string)
  : string * list A :=
  match lines with
  | [] => (currentEvent, [])
  | line :: lines =>
      let '(currentEvent, calls) := connectSSE_line currentEvent line in
      let '(currentEvent, calls') := connectSSE_lines currentEvent lines in
      (currentEvent, calls ++ calls')
  end.

(** The handler of [res.on("data", ...)] from [buffer += text] on, [text]
    being the text of the chunk. *)
Definition connectSSE_text (text : string) (st : Stream) : Stream * list A :=
  let buffer := buffer st +:+ text in
  let lines := String_split LF buffer in
  let buffer := default "" (list.last lines) in
  let lines := List.removelast lines in
  let '(currentEvent, calls) := connectSSE_lines (currentEvent st) lines in
  ({| buffer := buffer; currentEvent := currentEvent |}, calls).

(** [res.on("data", ...)]: [buffer += chunk.toString()] and the rest. *)
Definition connectSSE_data (chunk : Buffer) (st : Stream) : Stream * list A :=
  connectSSE_text (Buffer_toString chunk) st.

(** The chunks of the response arrive one after the other. *)
Fixpoint connectSSE_chunks (chunks : list Buffer) (st : Stream)
  : Stream * list A :=
  match chunks with
  | [] => (st, [])
  | chunk :: chunks =>
      let '(st, calls) := connectSSE_data chunk st in
      let '(st, calls') := connectSSE_chunks chunks st in
      (st, calls ++ calls')
  end.

End ConnectSSE.

(** The handlers that [connect] registers, each as the event of the
    dispatch loop that it is.  The casts of the payloads are taken at their
    word: [task_created] and [task_updated] carry a task, [task_deleted] and
    [task_cancel] an id. *)
Definition connect_handlers (name : string) : option (Json → option Event) :=
  if String.eqb name "task_created" then
    Some (λ data,
      match data with J_task task => Some (TaskCreated task) | _ => None end)
  else if String.eqb name "task_updated" then
    Some (λ data,
      match data with J_task task => Some (TaskUpdated task) | _ => None end)
  else if String.eqb name "task_deleted" then
    Some (λ data,
      match data with J_id id => Some (TaskDeleted id) | _ => None end)
  else if String.eqb name "task_cancel" then
    Some (λ data,
      match data with J_id id => Some (TaskCancel id) | _ => None end)
  else None.

(** [value || fallback] on a string that may be missing. *)
Definition or_else (value : option string) (fallback : string) : string :=
  match value with
  | Some s => if String.eqb s "" then fallback else s
  | None => fallback
  end.

Definition DQUOTE : string := String "034"%char "".

Definition summarizeTool (name : string) (input : gmap string string)
  : string :=
  if String.eqb name "Read" then
    "Reading " +:+ or_else (input !! "file_path") "file"
  else if String.eqb name "Edit" then
    "Editing " +:+ or_else (input !! "file_path") "file"
  else if String.eqb name "Write" then
    "Writing " +:+ or_else (input !! "file_path") "file"
  else if String.eqb name "Glob" then
    "Searching for " +:+ or_else (input !! "pattern") "files"
  else if String.eqb name "Grep" then
    "Searching for " +:+ DQUOTE +:+ or_else (input !! "pattern") "..." +:+
    DQUOTE
  else if String.eqb name "Bash" then
    "Running " +:+
    or_else (String.substring 0 60 <$> input !! "command") "command"
  else "Using " +:+ name.

(** Whether a string that may be missing is truthy: present and not
    empty. *)
Definition truthy (value : option string) : bool :=
  match value with
  | Some s => negb (String.eqb s "")
  | None => false
  end.

Section StreamJson.
(** [chunk.toString()] *)
Variable Buffer_toString : Buffer → string.
(** [String.prototype.trim], [x.toFixed(digits)] and the text of a number
    in a template literal. *)
Variable String_trim : string → string.
Variable Number_toFixed : Number.t → nat → string.
Variable Number_toString : Number.t → string.
(** [JSON.parse(line) as StreamEvent]; [None] when it throws. *)
Variable JSON_parse : string → option StreamEvent.t.

(** The body of [for (const block of event.message.content)]. *)
Definition extractActivities_block (block : ContentBlock.t)
  : list Activity.t :=
  if String.eqb (ContentBlock.type block) "tool_use" &&
     truthy (ContentBlock.name block)
  then
    [{| Activity.type := "tool_start";
        Activity.summary :=
          summarizeTool (default "" (ContentBlock.name block))
            (default ∅ (ContentBlock.input block)) |}]
  else if String.eqb (ContentBlock.type block) "text" &&
          truthy (ContentBlock.text block)
  then
    let trimmed := String_trim (default "" (ContentBlock.text block)) in
    if (0 <? String.length trimmed)%nat then
      [{| Activity.type := "text";
          Activity.summary :=
            if (80 <? String.length trimmed)%nat
            then String.substring 0 80 trimmed +:+ "..."
            else trimmed |}]
    else []
  else [].

Definition extractActivities (event : StreamEvent.t) : list Activity.t :=
  let content := StreamEvent.message event ≫= StreamMessage.content in
  if String.eqb (StreamEvent.type event) "assistant" &&
     bool_decide (is_Some content)
  then default [] content ≫= extractActivities_block
  else if String.eqb (StreamEvent.type event) "result" then
    let cost :=
      match StreamEvent.cost_usd event with
      | Some x => "$" +:+ Number_toFixed x 3
      | None => ""
      end in
    let turns :=
      match StreamEvent.num_turns event with
      | Some n => Number_toString n +:+ " turns"
      | None => ""
      end in
    let parts :=
      String.concat ", " (filter (λ part, part ≠ "") [cost; turns]) in
    [{| Activity.type := "result";
        Activity.summary :=
          if String.eqb parts "" then "Complete"
          else "Complete (" +:+ parts +:+ ")" |}]
  else [].

(** The activities that the watcher posts for one line of the output of
    the agent: the body of [for (const line of lines)] in the handler of
    [child.stdout]. *)
Definition stdout_line (line : string) : list Activity.t :=
  if String.eqb (String_trim line) "" then []
  else
    match JSON_parse line with
    | Some event => extractActivities event
    | None => []
    end.

(** [child.stdout.on("data", ...)]: the new [stdoutBuffer] and the
    activities posted. *)
Definition stdout_data (chunk : Buffer) (stdoutBuffer : string)
  : string * list Activity.t :=
  let stdoutBuffer := stdoutBuffer +:+ Buffer_toString chunk in
  let lines := String_split LF stdoutBuffer in
  let stdoutBuffer := default "" (list.last lines) in
  let lines := List.removelast lines in
  (stdoutBuffer, lines ≫= stdout_line).

(** [child.stdout.on("end", ...)] *)
Definition stdout_end (stdoutBuffer : string) : list Activity.t :=
  if negb (String.eqb (String_trim stdoutBuffer) "") then
    match JSON_parse stdoutBuffer with
    | Some event => extractActivities event
    | None => []
    end
  else [].

(** The output arrives in [chunks] and then ends. *)
Fixpoint stdout_chunks (chunks : list Buffer) (stdoutBuffer : string)
  : list Activity.t :=
  match chunks with
  | [] => stdout_end stdoutBuffer
  | chunk :: chunks =>
      let '(stdoutBuffer, posted) := stdout_data chunk stdoutBuffer in
      posted ++ stdout_chunks chunks stdoutBuffer
  end.

End StreamJson.

(** The callbacks that read or set [reconnectDelay], while the watcher is
    not stopped. *)
Inductive Reconnect :=
| OnConnect       (* the response of the event stream arrives *)
| OnDisconnect    (* the stream ends or the request fails *)
| ReconnectTimer. (* the timer that the disconnection set fires *)

(** The new [reconnectDelay], and the delay of the timer that the callback
    sets, if it sets one. *)
Definition reconnect (reconnectDelay : Z) (e : Reconnect) : Z * option Z :=
  match e with
  | OnConnect => (1000, None)
  | OnDisconnect => (reconnectDelay, Some reconnectDelay)
  | ReconnectTimer => (Z.min (reconnectDelay * 2) 30000, None)
  end.

Fixpoint reconnect_run (reconnectDelay : Z) (events : list Reconnect)
  : Z * list Z :=
  match events with
  | [] => (reconnectDelay, [])
  | e :: events =>
      let '(reconnectDelay, timer) := reconnect reconnectDelay e in
      let '(reconnectDelay, timers) := reconnect_run reconnectDelay events in
      (reconnectDelay, option_list timer ++ timers)
  end.

(** *** Instances for the event stream and the output of the agent

    [print_json] and [scan_json] are a [JSON.stringify] and a [JSON.parse]
    on the payloads of the messages: they round-trip and print on one line.
    [trim_ascii] is [String.prototype.trim] on ASCII text, and the two
    printers of numbers are right for the whole numbers of the examples.
    [toString_ascii] is [chunk.toString()] on a chunk of ASCII text, where
    every byte is one character, and [bytes_ascii] gives the bytes of such
    a text. *)

Global Instance ActivityEntry_eq_dec : EqDecision ActivityEntry.t.
Proof. solve_decision. Defined.

Global Instance ActivityEntry_countable : Countable ActivityEntry.t :=
  inj_countable'
    (λ e, (ActivityEntry.timestamp e, ActivityEntry.type e,
           ActivityEntry.summary e))
    (λ '(a, b, c), ActivityEntry.Build_t a b c)
    (λ x, ltac:(by destruct x)).

Global Instance Json_eq_dec : EqDecision Json.
Proof. solve_decision. Defined.

Global Instance Json_countable : Countable Json :=
  inj_countable'
    (λ j, match j with
          | J_null => inl (inl (inl ()))
          | J_task task => inl (inl (inr task))
          | J_queue queue => inl (inr (inl queue))
          | J_error error => inl (inr (inr error))
          | J_entries entries => inr (inl (inl entries))
          | J_id id => inr (inl (inr id))
          | J_activity taskId entry => inr (inr (inl (taskId, entry)))
          | J_ok => inr (inr (inr ()))
          end)
    (λ x, match x with
          | inl (inl (inl ())) => J_null
          | inl (inl (inr task)) => J_task task
          | inl (inr (inl queue)) => J_queue queue
          | inl (inr (inr error)) => J_error error
          | inr (inl (inl entries)) => J_entries entries
          | inr (inl (inr id)) => J_id id
          | inr (inr (inl (taskId, entry))) => J_activity taskId entry
          | inr (inr (inr ())) => J_ok
          end)
    (λ j, ltac:(by destruct j)).

Definition print_json (j : Json) : string := bits (encode j).
Definition scan_json (s : string) : option Json := unbits s ≫= decode.
Global Arguments print_json : simpl never.
Global Arguments scan_json : simpl never.

Definition toString_ascii (chunk : Buffer) : string :=
  String.string_of_list_ascii (ascii_of_byte <$> chunk).

Definition bytes_ascii (text : string) : Buffer :=
  byte_of_ascii <$> String.list_ascii_of_string text.

Definition is_space (c : ascii) : bool :=
  let n := nat_of_ascii c in
  (n =? 32)%nat || ((9 <=? n)%nat && (n <=? 13)%nat).

Fixpoint trim_start (s : string) : string :=
  match s with
  | String c s' => if is_space c then trim_start s' else s
  | "" => ""
  end.

Definition reverse_string (s : string) : string :=
  String.string_of_list_ascii (reverse (String.list_ascii_of_string s)).

Definition trim_ascii (s : string) : string :=
  reverse_string (trim_start (reverse_string (trim_start s))).

Fixpoint decimal (fuel : nat) (n : N) (text : string) : string :=
  match fuel with
  | O => text
  | S fuel =>
      let text := String (ascii_of_N (48 + n mod 10)) text in
      if (n / 10 =? 0)%N then text else decimal fuel (n / 10) text
  end.

(** The text of a whole number that is not negative. *)
Definition whole_toString (x : Number.t) : string :=
  decimal 20 (Z.to_N (Number.mantissa x * 2 ^ Number.exponent x)) "".

Definition whole_toFixed (x : Number.t) (digits : nat) : string :=
  whole_toString x +:+ "." +:+
  String.string_of_list_ascii (replicate digits "0"%char).

(** The input of the test suites, and the body of the request that
    carries it. *)
Definition testInput : CreateTaskInput.t :=
  {| CreateTaskInput.url := "/test";
     CreateTaskInput.note := "Fix this";
     CreateTaskInput.category := Tweak;
     CreateTaskInput.priority := Medium;
     CreateTaskInput.type := Element;
     CreateTaskInput.screenshot := testPng;
     CreateTaskInput.element := None;
     CreateTaskInput.page :=
       {| PageInfo.component := "App"; PageInfo.sourceFile := "src/App.tsx";
          PageInfo.sourceLine := None |};
     CreateTaskInput.region := None |}.

Definition testBody : RequestBody.t :=
  {| RequestBody.url := "/test";
     RequestBody.note := Some "Fix this";
     RequestBody.category := Tweak;
     RequestBody.priority := Medium;
     RequestBody.type := Element;
     RequestBody.screenshot := Some testPng;
     RequestBody.element := None;
     RequestBody.page :=
       Some {| PageInfo.component := "App";
               PageInfo.sourceFile := "src/App.tsx";
               PageInfo.sourceLine := None |};
     RequestBody.region := None |}.

(** An event of the agent: it says something and reads a file. *)
Definition testEvent : StreamEvent.t :=
  {| StreamEvent.type := "assistant";
     StreamEvent.subtype := None;
     StreamEvent.message :=
       Some {| StreamMessage.content :=
                 Some [{| ContentBlock.type := "text";
                          ContentBlock.text := Some "  Looking at the padding ";
                          ContentBlock.name := None;
                          ContentBlock.input := None |};
                       {| ContentBlock.type := "tool_use";
                          ContentBlock.text := None;
                          ContentBlock.name := Some "Read";
                          ContentBlock.input :=
                            Some {["file_path" := "src/App.tsx"]} |}] |};
     StreamEvent.result := None;
     StreamEvent.cost_usd := None;
     StreamEvent.num_turns := None |}.

(** ** Vocabulary of the statements about them *)

(** Every task of the document that [read] returns has one of the four
    states as its status. *)
Definition statuses_valid (reviewDir : string)
  (JSON_parse : string → option Queue.t) (w : World) : Prop :=
  ∀ queue, eval (read reviewDir JSON_parse) w = Return queue →
    Forall (λ t, Task.status t ∈ VALID_STATUSES) (Queue.items queue).

(** No two tasks of the document that [read] returns have the same id. *)
Definition ids_unique (reviewDir : string)
  (JSON_parse : string → option Queue.t) (w : World) : Prop :=
  ∀ queue, eval (read reviewDir JSON_parse) w = Return queue →
    NoDup (Task.id <$> Queue.items queue).

(** The items of the document that a [read] in the world [w] returns. *)
Definition items_after (reviewDir : string)
  (JSON_parse : string → option Queue.t) (w : World) (items : list Task.t)
  : Prop :=
  ∀ queue, eval (read reviewDir JSON_parse) w = Return queue →
    Queue.items queue = items.

(** Between [s] and [s'] every subscriber was sent [msgs], in this order,
    and nobody joined or left. *)
Definition delivered (msgs : list Message) (s s' : Server) : Prop :=
  sseClients s' = (λ out, out ++ msgs) <$> sseClients s.

(** The response is a success: 200 or 201. *)
Definition succeeded (res : Response) : Prop :=
  statusCode res = 200 ∨ statusCode res = 201.

(** The handler call that a message amounts to. *)
Definition received {A} (handlers : string → option (Json → A)) (m : Message)
  : list A :=
  match handlers (event m) with
  | Some handler => [handler (data m)]
  | None => []
  end.

(** The text that the handlers of a stream have appended to their buffer
    once the chunks have arrived: the texts of the chunks, each decoded on
    its own, one after the other. *)
Definition decoded (Buffer_toString : Buffer → string) (chunks : list Buffer)
  : string :=
  foldr (λ chunk rest, Buffer_toString chunk +:+ rest) "" chunks.

(** The string has no line feed. *)
Definition one_line (s : string) : Prop :=
  LF ∉ String.list_ascii_of_string s.

(** The local queue holds no id twice, and not the id of the task that is
    being processed. *)
Definition queue_distinct (s : Watcher) : Prop :=
  NoDup (pendingQueue s) ∧
  ∀ id, currentTaskId s = Some id → id ∉ pendingQueue s.

(** * Properties *)

(** ** Paths and strings *)

Lemma append_assoc (a b c : string) : (a +:+ b) +:+ c = a +:+ (b +:+ c).
Proof.
  induction a as [|x a IH]; [done|].
  change (String x ((a +:+ b) +:+ c) = String x (a +:+ (b +:+ c))).
  by rewrite IH.
Qed.

Lemma path_join_inj dir a b : path_join dir a = path_join dir b → a = b.
Proof.
  unfold path_join. intros H.
  by apply (inj (String.app dir)), (inj (String.app "/")) in H.
Qed.

Lemma VALID_STATUSES_elem s :
  s ∈ VALID_STATUSES ↔
  s = "pending" ∨ s = "in_progress" ∨ s = "review" ∨ s = "done".
Proof.
  unfold VALID_STATUSES.
  rewrite elem_of_list_to_set, !elem_of_cons, elem_of_nil. tauto.
Qed.

Lemma VALID_ACTIVITY_TYPES_elem s :
  s ∈ VALID_ACTIVITY_TYPES ↔
  s = "tool_start" ∨ s = "tool_end" ∨ s = "text" ∨ s = "error" ∨
  s = "result".
Proof.
  unfold VALID_ACTIVITY_TYPES.
  rewrite elem_of_list_to_set, !elem_of_cons, elem_of_nil. tauto.
Qed.

(** The table of the code orders the priorities as the specification
    does, and gives each priority a tier of its own. *)
Lemma PRIORITY_ORDER_lt p q :
  PRIORITY_ORDER p < PRIORITY_ORDER q ↔ ranks_before p q.
Proof. destruct p, q; simpl; split; (done || lia). Qed.

Lemma PRIORITY_ORDER_eq p q : PRIORITY_ORDER p = PRIORITY_ORDER q ↔ p = q.
Proof. destruct p, q; simpl; split; (done || lia). Qed.

Lemma bits_unbits p : unbits (bits p) = Some p.
Proof. induction p as [p IH|p IH|]; simpl; [by rewrite IH..|done]. Qed.

(** [print] and [scan] round-trip, as [JSON.stringify] and [JSON.parse]
    do on documents. *)
Lemma scan_print q : scan (print q) = Some q.
Proof. unfold scan, print. rewrite bits_unbits. simpl. apply decode_encode. Qed.

Lemma testPng_valid : isValidPngBase64 base64_decode testPng = true.
Proof. vm_compute. reflexivity. Qed.

(** ** The store: [read] and [write] *)

Section Store.
Variable reviewDir : string.
Variable JSON_stringify : Queue.t → string.
Variable JSON_parse : string → option Queue.t.

Local Abbreviation primary := (queuePath reviewDir).
Local Abbreviation backup := (backupPath reviewDir).
Local Abbreviation tmp := (queuePath reviewDir +:+ ".tmp").

Lemma tmpPath_join : tmp = path_join reviewDir "queue.json.tmp".
Proof. unfold queuePath, path_join. by rewrite !append_assoc. Qed.

Lemma queuePath_backupPath : primary ≠ backup.
Proof. intros H. by apply path_join_inj in H. Qed.

Lemma tmpPath_queuePath : tmp ≠ primary.
Proof. rewrite tmpPath_join. intros H. by apply path_join_inj in H. Qed.

Lemma tmpPath_backupPath : tmp ≠ backup.
Proof. rewrite tmpPath_join. intros H. by apply path_join_inj in H. Qed.

(** What [read] does, case by case. *)
Lemma read_cases w :
  read reviewDir JSON_parse w =
    match document JSON_parse w primary with
    | Some q => (Return q, w)
    | None =>
        match files w !! backup with
        | Some data =>
            match JSON_parse data with
            | Some q =>
                (Return q, with_files (<[primary := data]> (files w)) w)
            | None => emptyQueue w
            end
        | None => emptyQueue w
        end
    end.
Proof.
  unfold read, document, try_catch, bind, readFile,
    existsSync, parse, writeFile, ret, throw.
  destruct (files w !! primary) as [d|] eqn:Hq; simpl;
    [destruct (JSON_parse d) as [q|] eqn:Hd; simpl; [done|] |];
    (destruct (files w !! backup) as [b|] eqn:Hb; simpl;
     [rewrite ?Hb; destruct (JSON_parse b); simpl; [done|] |];
     by destruct (negb _)).
Qed.

(** [read] returns a document, whatever the files hold. *)
Lemma read_returns w : ∃ q, eval (read reviewDir JSON_parse) w = Return q.
Proof.
  unfold eval. rewrite read_cases.
  destruct (document _ _ _); [by eexists|].
  destruct (files w !! backup) as [b|]; [destruct (JSON_parse b)|];
    by eexists.
Qed.

Lemma write_cases queue w :
  write reviewDir JSON_stringify queue w =
    (Return tt,
     {| files := written reviewDir JSON_stringify queue w; clock := clock w; ticks := S (ticks w) |}).
Proof.
  unfold write, written, bind, Date_now_toISOString, existsSync, try_catch,
    copyFile, bind, readFile, writeFile, rename, ret, with_files.
  simpl. destruct (files w !! primary) as [old|] eqn:Hq; simpl.
  - rewrite Hq. simpl. by rewrite lookup_insert_eq.
  - by rewrite lookup_insert_eq.
Qed.

Lemma written_primary queue w :
  written reviewDir JSON_stringify queue w !! primary =
    Some (JSON_stringify (Queue.set_lastUpdated (clock w (ticks w)) queue)).
Proof. unfold written. by rewrite lookup_insert_eq. Qed.

Lemma written_backup queue w :
  written reviewDir JSON_stringify queue w !! backup =
    match files w !! primary with
    | Some old => Some old
    | None => files w !! backup
    end.
Proof.
  unfold written.
  rewrite lookup_insert_ne by apply queuePath_backupPath.
  rewrite lookup_delete_ne by apply tmpPath_backupPath.
  rewrite lookup_insert_ne by apply tmpPath_backupPath.
  destruct (files w !! primary); [by rewrite lookup_insert_eq|done].
Qed.

Lemma written_tmp queue w : written reviewDir JSON_stringify queue w !! tmp = None.
Proof.
  unfold written.
  rewrite lookup_insert_ne by (apply not_eq_sym, tmpPath_queuePath).
  by rewrite lookup_delete_eq.
Qed.

(** C3. [read] never throws, for any contents of the files; when neither
    the primary file nor the backup holds a document (each absent or
    unparseable), it returns the empty document of [emptyQueue] (version 1,
    no items, stamped with the current time) and leaves the files alone. *)
Theorem read_never_throws w :
  ∃ q, eval (read reviewDir JSON_parse) w = Return q ∧
       (document JSON_parse w primary = None →
        document JSON_parse w backup = None →
        q = {| Queue.version := 1; Queue.lastUpdated := clock w (ticks w);
               Queue.items := [] |} ∧
        files (exec (read reviewDir JSON_parse) w) = files w).
Proof.
  unfold eval, exec. rewrite read_cases.
  destruct (document JSON_parse w primary) as [q|] eqn:Hp.
  { by exists q. }
  unfold document in *.
  destruct (files w !! backup) as [b|] eqn:Hb; simpl.
  - destruct (JSON_parse b) as [q|] eqn:Hq; simpl.
    + exists q. by split.
    + by eexists.
  - by eexists.
Qed.

Hypothesis JSON_roundtrip : ∀ q, JSON_parse (JSON_stringify q) = Some q.

(** C1. After two writes, a corrupted primary file makes [read] return the
    document of the write before the newest one, which is what the backup
    holds and what [read] returned right after that write; [read] then
    leaves the text of the backup in the primary file. *)
Theorem read_recovers_backup_generation w0 q1 q2 junk :
  JSON_parse junk = None →
  let w1 := exec (write reviewDir JSON_stringify q1) w0 in
  let w2 := exec (write reviewDir JSON_stringify q2) w1 in
  let w3 := exec (writeFile primary junk) w2 in
  let w4 := exec (read reviewDir JSON_parse) w3 in
  let generation := Queue.set_lastUpdated (clock w0 (ticks w0)) q1 in
  eval (write reviewDir JSON_stringify q1) w0 = Return tt ∧
  eval (read reviewDir JSON_parse) w1 = Return generation ∧
  eval (write reviewDir JSON_stringify q2) w1 = Return tt ∧
  document JSON_parse w2 backup = Some generation ∧
  eval (read reviewDir JSON_parse) w3 = Return generation ∧
  files w4 !! primary = files w3 !! backup ∧
  files w4 !! backup = files w3 !! backup ∧
  document JSON_parse w4 primary = Some generation.
Proof.
  intros Hjunk w1 w2 w3 w4 generation.
  assert (H1 : files w1 !! primary = Some (JSON_stringify generation)).
  { unfold w1, exec. rewrite write_cases. apply written_primary. }
  assert (H2 : files w2 !! backup = Some (JSON_stringify generation)).
  { unfold w2, exec. rewrite write_cases. simpl.
    by rewrite written_backup, H1. }
  assert (H3p : files w3 !! primary = Some junk).
  { unfold w3, exec, writeFile. simpl. by rewrite lookup_insert_eq. }
  assert (H3b : files w3 !! backup = Some (JSON_stringify generation)).
  { unfold w3, exec, writeFile. simpl.
    by rewrite lookup_insert_ne by apply queuePath_backupPath. }
  clearbody w1 w2 w3.
  assert (Hr : read reviewDir JSON_parse w3 =
               (Return generation,
                with_files
                  (<[primary := JSON_stringify generation]> (files w3)) w3)).
  { rewrite read_cases. unfold document. rewrite H3p. simpl. rewrite Hjunk.
    by rewrite H3b, JSON_roundtrip. }
  repeat split.
  - unfold eval. by rewrite write_cases.
  - unfold eval. rewrite read_cases. unfold document.
    by rewrite H1; simpl; rewrite JSON_roundtrip.
  - unfold eval. by rewrite write_cases.
  - unfold document. by rewrite H2; simpl.
  - unfold eval. by rewrite Hr.
  - unfold w4, exec. rewrite Hr. simpl. by rewrite lookup_insert_eq.
  - unfold w4, exec. rewrite Hr. simpl.
    by rewrite lookup_insert_ne by apply queuePath_backupPath.
  - unfold document, w4, exec. rewrite Hr. simpl.
    by rewrite lookup_insert_eq; simpl.
Qed.

(** ** The store: [getNextPending] *)

Section NextPending.
Variable Date_getTime : string → Z.

Local Abbreviation tier := (λ t, PRIORITY_ORDER (Task.priority t)).
Local Abbreviation created := (λ t, Date_getTime (Task.createdAt t)).
Local Abbreviation cmp := (compare_pending Date_getTime).

(** The comparator is negative exactly when [a] is in a lower tier, or in
    the same tier and created strictly earlier. *)
Lemma compare_pending_neg a b :
  cmp a b < 0 ↔ tier a < tier b ∨ (tier a = tier b ∧ created a < created b).
Proof.
  unfold compare_pending.
  destruct (PRIORITY_ORDER (Task.priority a) - PRIORITY_ORDER (Task.priority b) =? 0)
    eqn:E; simpl; lia.
Qed.

Lemma Array_sort_nil {A} (c : A → A → Z) l : Array_sort c l = [] → l = [].
Proof.
  destruct l as [|x l]; [done|]. simpl.
  destruct (Array_sort c l) as [|y s]; simpl; [done|].
  by destruct (c y x <? 0).
Qed.

(** The first element of the sorted array: it splits the array into the
    elements in front of it, which all compare above it, and the elements
    behind it, none of which compares below it. *)
Lemma head_Array_sort l x :
  head (Array_sort cmp l) = Some x →
  ∃ l1 l2, l = l1 ++ x :: l2 ∧
    (∀ y, y ∈ l1 → cmp x y < 0) ∧ (∀ y, y ∈ l2 → ¬ cmp y x < 0).
Proof.
  revert x. induction l as [|a l IH]; intros x; simpl; [done|].
  destruct (Array_sort cmp l) as [|y s] eqn:Hs; simpl.
  - apply Array_sort_nil in Hs as ->. intros [= <-].
    exists [], []. split_and!; [done|by intros ? ?%elem_of_nil..].
  - destruct (IH y eq_refl) as (l1 & l2 & -> & H1 & H2).
    destruct (cmp y a <? 0) eqn:E; simpl; intros [= <-].
    + apply Z.ltb_lt in E. exists (a :: l1), l2. split_and!; [done| |done].
      intros z [->|Hz]%elem_of_cons; auto.
    + apply Z.ltb_ge in E. exists [], (l1 ++ y :: l2).
      split_and!; [done|by intros ? ?%elem_of_nil|].
      intros z Hz. rewrite compare_pending_neg.
      apply elem_of_app in Hz as [Hz|[->|Hz]%elem_of_cons].
      * apply H1 in Hz. rewrite compare_pending_neg in Hz.
        pose proof (compare_pending_neg y a). lia.
      * pose proof (compare_pending_neg y a). lia.
      * apply H2 in Hz. rewrite compare_pending_neg in Hz.
        pose proof (compare_pending_neg y a). lia.
Qed.

(** C2. [getNextPending] returns none exactly when the document has no
    pending task.  Otherwise it returns a pending task of the document
    whose tier is numerically the lowest among the pending tasks, the tiers
    being ordered as the specification says: every other pending task has a
    priority that ranks after that of the task (high before medium before
    low), or has the same priority and was not created earlier.  Of the
    pending tasks of that priority created at the same instant it is the
    first one in the document. *)
Theorem getNextPending_lowest_tier_then_oldest w :
  ∃ queue next,
    eval (read reviewDir JSON_parse) w = Return queue ∧
    eval (getNextPending reviewDir JSON_parse Date_getTime) w = Return next ∧
    let pending := filter (λ t, Task.status t = "pending") (Queue.items queue) in
    (next = None ↔ pending = []) ∧
    ∀ task, next = Some task →
      task ∈ Queue.items queue ∧ Task.status task = "pending" ∧
      (∀ other, other ∈ pending →
         tier task ≤ tier other ∧
         (ranks_before (Task.priority task) (Task.priority other) ∨
          (Task.priority task = Task.priority other ∧
           created task ≤ created other))) ∧
      ∃ ahead behind, pending = ahead ++ task :: behind ∧
        ∀ other, other ∈ ahead →
          ranks_before (Task.priority task) (Task.priority other) ∨
          (Task.priority task = Task.priority other ∧
           created task < created other).
Proof.
  destruct (read_returns w) as [queue Hq]. unfold eval in *.
  destruct (read reviewDir JSON_parse w) as [c w'] eqn:Hr.
  simpl in Hq. subst c.
  exists queue, (head (Array_sort cmp
    (filter (λ t, Task.status t = "pending") (Queue.items queue)))).
  split; [done|]. split.
  { unfold getNextPending, bind, ret. by rewrite Hr. }
  simpl. split.
  - split.
    + destruct (Array_sort _ _) eqn:Hs; [|done].
      intros _. by apply Array_sort_nil in Hs.
    + by intros ->.
  - intros task Hhead.
    apply head_Array_sort in Hhead as (l1 & l2 & Hsplit & H1 & H2).
    assert (Hin : task ∈ filter (λ t, Task.status t = "pending")
                           (Queue.items queue)).
    { rewrite Hsplit. apply elem_of_app. right. apply elem_of_cons. by left. }
    apply list_elem_of_filter in Hin as [Hst Hin].
    assert (Hrank : ∀ other (strict : bool),
              tier task < tier other ∨
              (tier task = tier other ∧
               if strict then created task < created other
               else created task ≤ created other) →
              ranks_before (Task.priority task) (Task.priority other) ∨
              (Task.priority task = Task.priority other ∧
               if strict then created task < created other
               else created task ≤ created other)).
    { intros other strict [Hlt|[Heq Hc]].
      - left. by apply PRIORITY_ORDER_lt.
      - right. split; [by apply PRIORITY_ORDER_eq|done]. }
    split_and!; [done|done| |].
    + intros other Ho. rewrite Hsplit in Ho.
      assert (Hle : tier task < tier other ∨
                    (tier task = tier other ∧ created task ≤ created other)).
      { apply elem_of_app in Ho as [Ho|[->|Ho]%elem_of_cons].
        - apply H1 in Ho. rewrite compare_pending_neg in Ho. lia.
        - lia.
        - apply H2 in Ho. rewrite compare_pending_neg in Ho. lia. }
      split.
      { destruct Hle as [Hlt|[Heq _]]; [|by rewrite Heq].
        apply Z.lt_le_incl, Hlt. }
      exact (Hrank other false Hle).
    + exists l1, l2. split; [done|]. intros other Ho.
      apply H1 in Ho. rewrite compare_pending_neg in Ho.
      exact (Hrank other true Ho).
Qed.

End NextPending.

(** ** The store: [updateTask] *)

Lemma list_find_insert {A} (P : A → Prop) `{!∀ x, Decision (P x)} l i x y :
  list_find P l = Some (i, x) → P y →
  list_find P (<[i := y]> l) = Some (i, y).
Proof.
  intros (Hlook & Hp & Hbefore)%list_find_Some Hy.
  apply list_find_Some. split_and!; [|done|].
  - apply list_lookup_insert_eq. by eapply lookup_lt_Some.
  - intros j z Hj Hlt. rewrite list_lookup_insert_ne in Hj by lia. eauto.
Qed.

(** The primary file holds a document: [read] returns it and changes
    nothing. *)
Lemma read_document w queue :
  document JSON_parse w primary = Some queue →
  read reviewDir JSON_parse w = (Return queue, w).
Proof. intros H. by rewrite read_cases, H. Qed.


Lemma omap_cons {A B} (f : A → option B) x l :
  omap f (x :: l) =
    match f x with Some y => y :: omap f l | None => omap f l end.
Proof. done. Qed.

Lemma get_status_filter updates :
  get_status (filter allowed updates) = get_status updates.
Proof.
  unfold get_status. f_equal.
  induction updates as [|p updates IH]; [done|].
  rewrite filter_cons. destruct (decide (allowed p)) as [Hp|Hp].
  - by rewrite !omap_cons, IH.
  - rewrite omap_cons, IH. by destruct p.
Qed.

(** Assigning allow-listed properties leaves every other declared property
    of the task as it was. *)
Lemma Object_assign_frame source task :
  Forall allowed source →
  let task' := Object_assign task source in
  Task.id task' = Task.id task ∧
  Task.createdAt task' = Task.createdAt task ∧
  Task.updatedAt task' = Task.updatedAt task ∧
  Task.url task' = Task.url task ∧
  Task.type task' = Task.type task ∧
  Task.screenshotPath task' = Task.screenshotPath task ∧
  Task.element task' = Task.element task ∧
  Task.page task' = Task.page task ∧
  Task.region task' = Task.region task.
Proof.
  intros H. revert task. unfold Object_assign.
  induction H as [|p source Hp _ IH]; intros task; simpl; [done|].
  destruct (IH (assign task p)) as (?&?&?&?&?&?&?&?&?).
  destruct p; try (by vm_compute in Hp); simpl in *; by split_and!.
Qed.

(** What [updateTask] does once [read] has returned the document. *)
Lemma updateTask_cases id updates w :
  updateTask reviewDir JSON_stringify JSON_parse id updates w =
    let '(r, w1) := read reviewDir JSON_parse w in
    match r with
    | Throw e => (Throw e, w1)
    | Return queue =>
        match list_find (λ t, Task.id t = id) (Queue.items queue) with
        | None => (Return None, w1)
        | Some (index, task) =>
            let invalid :=
              match get_status updates with
              | Some s => if Set_has VALID_STATUSES s then None else Some s
              | None => None
              end in
            match invalid with
            | Some s => (Throw (Error (invalid_status_message s)), w1)
            | None =>
                let task' :=
                  Task.set_updatedAt (clock w1 (ticks w1))
                    (Object_assign task (filter allowed updates)) in
                let w2 :=
                  {| files := files w1; clock := clock w1;
                     ticks := S (ticks w1) |} in
                (Return (Some task'),
                 {| files :=
                      written reviewDir JSON_stringify
                        (Queue.set_items
                           (<[index := task']> (Queue.items queue)) queue) w2;
                    clock := clock w1; ticks := S (S (ticks w1)) |})
            end
        end
    end.
Proof.
  unfold updateTask, bind at 1.
  destruct (read reviewDir JSON_parse w) as [[queue|e] w1]; [|done].
  destruct (list_find _ _) as [[index task]|]; [|done].
  fold allowed. rewrite get_status_filter.
  unfold bind at 1.
  destruct (get_status updates) as [s|]; simpl.
  - destruct (Set_has VALID_STATUSES s); simpl; [|done].
    unfold bind, Date_now_toISOString, ret. simpl.
    by rewrite write_cases.
  - unfold bind, Date_now_toISOString, ret. simpl.
    by rewrite write_cases.
Qed.

(** [updateTask] on a stored task and a payload whose status, if it has
    one, is valid. *)
Lemma updateTask_ok id updates w queue index task :
  document JSON_parse w primary = Some queue →
  list_find (λ t, Task.id t = id) (Queue.items queue) = Some (index, task) →
  (∀ s, get_status updates = Some s → s ∈ VALID_STATUSES) →
  eval (updateTask reviewDir JSON_stringify JSON_parse id updates) w =
    Return (Some (Task.set_updatedAt (clock w (ticks w))
                    (Object_assign task (filter allowed updates)))).
Proof.
  intros Hdoc Hfind Hvalid. unfold eval.
  rewrite updateTask_cases, (read_document _ _ Hdoc), Hfind.
  destruct (get_status updates) as [s|]; [|done].
  unfold Set_has. by rewrite bool_decide_true by auto.
Qed.

(** A document with a task is on disk: reading it again changes nothing. *)
Lemma read_again w queue w1 :
  read reviewDir JSON_parse w = (Return queue, w1) →
  Queue.items queue ≠ [] →
  read reviewDir JSON_parse w1 = (Return queue, w1) ∧
  files w1 !! backup = files w !! backup ∧
  (is_Some (document JSON_parse w primary) → w1 = w).
Proof.
  rewrite read_cases. intros Hr Hitems.
  destruct (document JSON_parse w primary) as [q|] eqn:Hp.
  { injection Hr as <- <-. rewrite read_cases, Hp. eauto. }
  destruct (files w !! backup) as [b|] eqn:Hb;
    [destruct (JSON_parse b) as [q|] eqn:Hq|].
  - injection Hr as <- <-. split_and!.
    + rewrite read_cases. unfold document. simpl.
      by rewrite lookup_insert_eq; simpl; rewrite Hq.
    + simpl. by rewrite lookup_insert_ne by apply queuePath_backupPath.
    + by intros [? [=]].
  - injection Hr as <- <-. by destruct Hitems.
  - injection Hr as <- <-. by destruct Hitems.
Qed.

(** C4. When the task exists and the payload carries a status that is not
    one of pending, in_progress, review and done, [updateTask] throws the
    invalid-status error.  Its whole effect is that of the [read] it starts
    with: nothing is merged, no time stamp is taken and [write] is not
    called, so a later [read] returns the same document, the backup file is
    as before, and when the primary file held the document the world is
    exactly as before. *)
Theorem updateTask_invalid_status_rejected w id updates s task :
  eval (getTask reviewDir JSON_parse id) w = Return (Some task) →
  get_status updates = Some s →
  s ∉ VALID_STATUSES →
  let w' := exec (updateTask reviewDir JSON_stringify JSON_parse id updates) w in
  eval (updateTask reviewDir JSON_stringify JSON_parse id updates) w =
    Throw (Error (invalid_status_message s)) ∧
  w' = exec (read reviewDir JSON_parse) w ∧
  eval (read reviewDir JSON_parse) w' = eval (read reviewDir JSON_parse) w ∧
  eval (getTask reviewDir JSON_parse id) w' = Return (Some task) ∧
  files w' !! backup = files w !! backup ∧
  (is_Some (document JSON_parse w primary) → w' = w).
Proof.
  intros Hexists Hs Hinvalid w'. subst w'. unfold eval, exec in *.
  rewrite updateTask_cases. unfold getTask, bind, ret in *.
  destruct (read reviewDir JSON_parse w) as [[queue|e] w1] eqn:Hr; [|done].
  destruct (list_find _ _) as [[index t]|] eqn:Hfind; [|done].
  simpl in Hexists. injection Hexists as ->.
  rewrite Hs. unfold Set_has. rewrite bool_decide_false by done. simpl.
  destruct (read_again _ _ _ Hr) as (Hagain & Hb & Hsame).
  { intros Hnil. by rewrite Hnil in Hfind. }
  rewrite Hagain, Hfind. by split_and!.
Qed.

(** What a successful [updateTask] returns and leaves in the store. *)
Lemma updateTask_success w id updates task' :
  eval (updateTask reviewDir JSON_stringify JSON_parse id updates) w =
    Return (Some task') →
  let w1 := exec (read reviewDir JSON_parse) w in
  let w' := exec (updateTask reviewDir JSON_stringify JSON_parse id updates) w in
  ∃ queue index task,
    eval (read reviewDir JSON_parse) w = Return queue ∧
    list_find (λ t, Task.id t = id) (Queue.items queue) = Some (index, task) ∧
    task' = Task.set_updatedAt (clock w1 (ticks w1))
              (Object_assign task (filter allowed updates)) ∧
    Queue.items <$> document JSON_parse w' primary =
      Some (<[index := task']> (Queue.items queue)) ∧
    eval (getTask reviewDir JSON_parse id) w' = Return (Some task').
Proof.
  intros Hok w1 w'. subst w1 w'. unfold eval, exec in *.
  pose proof (updateTask_cases id updates w) as Hcases.
  destruct (read reviewDir JSON_parse w) as [[queue|e] w1] eqn:Hr;
    [|by rewrite Hcases in Hok].
  destruct (list_find _ _) as [[index task]|] eqn:Hfind;
    [|by rewrite Hcases in Hok].
  destruct (match get_status updates with Some _ => _ | None => _ end);
    [by rewrite Hcases in Hok|].
  cbv zeta in Hcases. rewrite Hcases in Hok |- *.
  simpl in Hok. injection Hok as <-.
  set (task' := Task.set_updatedAt _ _).
  assert (Hdoc : document JSON_parse
            {| files := written reviewDir JSON_stringify
                 (Queue.set_items (<[index:=task']> (Queue.items queue)) queue)
                 {| files := files w1; clock := clock w1; ticks := S (ticks w1) |};
               clock := clock w1; ticks := S (S (ticks w1)) |} primary =
          Some (Queue.set_lastUpdated (clock w1 (S (ticks w1)))
                  (Queue.set_items (<[index:=task']> (Queue.items queue)) queue))).
  { unfold document. simpl. rewrite written_primary. simpl.
    by rewrite JSON_roundtrip. }
  exists queue, index, task. cbn [fst snd].
  split_and!; try done.
  - by rewrite Hdoc.
  - unfold getTask, bind, ret. rewrite read_cases, Hdoc. cbn [fst snd].
    unfold Queue.set_lastUpdated, Queue.set_items.
    cbn [Queue.items fst snd].
    erewrite list_find_insert; [done..|].
    destruct (Object_assign_frame (filter allowed updates) task) as [Hid _].
    { apply list.Forall_forall. by intros p [? ?]%list_elem_of_filter. }
    apply list_find_Some in Hfind as (_ & Hp & _).
    subst task'. simpl in *. congruence.
Qed.

(** C5. A successful [updateTask] returns the stored task with the
    allow-listed properties of the payload assigned and [updatedAt]
    refreshed.  Its id, its creation time and every other property outside
    the allow-list are those of the stored task; the payload without its
    properties outside the allow-list gives the same result and the same
    files; and the store then holds the returned task under the same id. *)
Theorem updateTask_keeps_identity w id updates task' :
  eval (updateTask reviewDir JSON_stringify JSON_parse id updates) w =
    Return (Some task') →
  let w1 := exec (read reviewDir JSON_parse) w in
  let w' := exec (updateTask reviewDir JSON_stringify JSON_parse id updates) w in
  ∃ queue index task,
    eval (read reviewDir JSON_parse) w = Return queue ∧
    list_find (λ t, Task.id t = id) (Queue.items queue) = Some (index, task) ∧
    task' = Task.set_updatedAt (clock w1 (ticks w1))
              (Object_assign task (filter allowed updates)) ∧
    Task.id task' = Task.id task ∧
    Task.createdAt task' = Task.createdAt task ∧
    Task.url task' = Task.url task ∧
    Task.type task' = Task.type task ∧
    Task.screenshotPath task' = Task.screenshotPath task ∧
    Task.element task' = Task.element task ∧
    Task.page task' = Task.page task ∧
    Task.region task' = Task.region task ∧
    updateTask reviewDir JSON_stringify JSON_parse id (filter allowed updates) w =
      updateTask reviewDir JSON_stringify JSON_parse id updates w ∧
    Queue.items <$> document JSON_parse w' primary =
      Some (<[index := task']> (Queue.items queue)) ∧
    eval (getTask reviewDir JSON_parse id) w' = Return (Some task').
Proof.
  intros Hok w1 w'.
  destruct (updateTask_success w id updates task' Hok)
    as (queue & index & task & Hread & Hfind & Htask & Hdoc & Hget).
  fold w1 in Htask. fold w' in Hdoc, Hget.
  destruct (Object_assign_frame (filter allowed updates) task)
    as (Hid & Hcreated & _ & Hurl & Htype & Hshot & Hel & Hpage & Hregion).
  { apply list.Forall_forall. by intros p [? ?]%list_elem_of_filter. }
  exists queue, index, task.
  split_and!; try done; try (by rewrite Htask).
  rewrite !updateTask_cases, get_status_filter.
  by rewrite list_filter_filter_l by done.
Qed.

(** ** The server: activity lists *)

Lemma getTask_cases id w :
  getTask reviewDir JSON_parse id w =
    let '(r, w1) := read reviewDir JSON_parse w in
    (match r with
     | Return queue =>
         Return (snd <$> list_find (λ t, Task.id t = id) (Queue.items queue))
     | Throw e => Throw e
     end, w1).
Proof.
  unfold getTask, bind, ret.
  by destruct (read reviewDir JSON_parse w) as [[queue|e] w1].
Qed.

Lemma get_activity_cases id s :
  fst (get_activity reviewDir JSON_parse id s) =
    match eval (getTask reviewDir JSON_parse id) (world s) with
    | Return (Some _) =>
        {| statusCode := 200;
           json := J_entries (default [] (taskActivity s !! id)) |}
    | Return None => {| statusCode := 404; json := J_error "Task not found" |}
    | Throw e => {| statusCode := 500; json := J_error (message e) |}
    end.
Proof.
  unfold get_activity, asyncHandler, bind, call, eval, respond, ret,
    taskActivity_get.
  by destruct (getTask reviewDir JSON_parse id (world s)) as [[[t|]|e] w1].
Qed.

(** A [PUT] answered with 200 and a task is an [updateTask] that returned
    that task; the activity list goes unless the task is in progress. *)
Lemma put_task_ok id updates s task :
  fst (put_task reviewDir JSON_stringify JSON_parse id updates s) =
    {| statusCode := 200; json := J_task task |} →
  let s' := snd (put_task reviewDir JSON_stringify JSON_parse id updates s) in
  eval (updateTask reviewDir JSON_stringify JSON_parse id updates) (world s) =
    Return (Some task) ∧
  world s' =
    exec (updateTask reviewDir JSON_stringify JSON_parse id updates) (world s) ∧
  taskActivity s' =
    if String.eqb (Task.status task) "in_progress" then taskActivity s
    else delete id (taskActivity s).
Proof.
  unfold put_task, asyncHandler, bind, call, eval, exec, respond, ret,
    broadcast, taskActivity_delete.
  destruct (match get_status updates with Some _ => _ | None => _ end);
    [done|].
  destruct (updateTask reviewDir JSON_stringify JSON_parse id updates (world s))
    as [[[t|]|e] w1]; simpl; [|done..].
  destruct (String.eqb (Task.status t) "in_progress") eqn:E; simpl;
    intros [= ->]; by rewrite E.
Qed.

(** A [PUT] on a stored task with a valid status, or none, succeeds. *)
Lemma put_task_success id updates s queue index task :
  document JSON_parse (world s) primary = Some queue →
  list_find (λ t, Task.id t = id) (Queue.items queue) = Some (index, task) →
  (∀ st, get_status updates = Some st → st ∈ VALID_STATUSES) →
  fst (put_task reviewDir JSON_stringify JSON_parse id updates s) =
    {| statusCode := 200;
       json := J_task (Task.set_updatedAt
                         (clock (world s) (ticks (world s)))
                         (Object_assign task (filter allowed updates))) |}.
Proof.
  intros Hdoc Hfind Hvalid.
  pose proof (updateTask_ok id updates (world s) queue index task
                Hdoc Hfind Hvalid) as Hok.
  unfold eval in Hok.
  unfold put_task, asyncHandler, bind, call, respond, ret, broadcast,
    taskActivity_delete.
  assert (Hv : match get_status updates with
               | Some st => if Set_has VALID_STATUSES st then None else Some st
               | None => None
               end = None).
  { destruct (get_status updates) as [st|]; [|done].
    unfold Set_has. by rewrite bool_decide_true by auto. }
  rewrite Hv.
  destruct (updateTask _ _ _ _ _ _) as [r w1]. simpl in Hok. subst r.
  by destruct (negb _).
Qed.

Lemma post_cancel_ok id s task :
  fst (post_cancel reviewDir JSON_stringify JSON_parse id s) =
    {| statusCode := 200; json := J_task task |} →
  let s' := snd (post_cancel reviewDir JSON_stringify JSON_parse id s) in
  eval (updateTask reviewDir JSON_stringify JSON_parse id [P_status "done"])
    (world s) = Return (Some task) ∧
  world s' =
    exec (updateTask reviewDir JSON_stringify JSON_parse id [P_status "done"])
      (world s) ∧
  taskActivity s' = delete id (taskActivity s).
Proof.
  unfold post_cancel, asyncHandler, bind, call, eval, exec, respond, ret,
    broadcast, taskActivity_delete.
  destruct (updateTask reviewDir JSON_stringify JSON_parse id _ (world s))
    as [[[t|]|e] w1]; simpl; [|done..].
  by intros [= ->].
Qed.

(** The activity route on a stored task and a valid kind of entry. *)
Lemma post_activity_ok id type summary s queue index task :
  document JSON_parse (world s) primary = Some queue →
  list_find (λ t, Task.id t = id) (Queue.items queue) = Some (index, task) →
  type ∈ VALID_ACTIVITY_TYPES →
  let entry :=
    {| ActivityEntry.timestamp := clock (world s) (ticks (world s));
       ActivityEntry.type := type;
       ActivityEntry.summary := default "" summary |} in
  let entries := default [] (taskActivity s !! id) ++ [entry] in
  let s' := snd (post_activity reviewDir JSON_parse id (Some type) summary s) in
  fst (post_activity reviewDir JSON_parse id (Some type) summary s) =
    {| statusCode := 200; json := J_entries entries |} ∧
  files (world s') = files (world s) ∧
  taskActivity s' = <[id := entries]> (taskActivity s).
Proof.
  intros Hdoc Hfind Htype entry entries s'. subst s'.
  assert (Hrun :
    post_activity reviewDir JSON_parse id (Some type) summary s =
    ({| statusCode := 200; json := J_entries entries |},
     {| world := {| files := files (world s); clock := clock (world s);
                    ticks := S (ticks (world s)) |};
        taskActivity := <[id := entries]> (taskActivity s);
        sseClients :=
          (λ out, out ++ [{| event := "task_activity";
                            data := J_activity id entry |}])
            <$> sseClients s |})).
  { unfold post_activity, asyncHandler, bind at 1, call.
    rewrite getTask_cases, (read_document _ _ Hdoc), Hfind.
    cbn [fst snd fmap option_fmap option_map default].
    unfold Set_has. rewrite bool_decide_true by done.
    by cbn. }
  by rewrite Hrun.
Qed.

Section AfterScreenshot.
Variable Buffer_from_base64 : string → string.

(** The after-screenshot route never touches the activity lists. *)
Lemma post_after_screenshot_taskActivity id screenshot s :
  taskActivity
    (snd (post_after_screenshot reviewDir JSON_stringify JSON_parse
            Buffer_from_base64 id screenshot s)) = taskActivity s.
Proof.
  unfold post_after_screenshot, asyncHandler, bind, call, respond, ret,
    broadcast.
  destruct screenshot as [[|c png]|]; simpl; [done| |done].
  by destruct (saveAfterScreenshot _ _ _ _ _ _ _) as [[[t|]|e] w1].
Qed.

(** [saveAfterScreenshot] on a stored task and a valid image. *)
Lemma saveAfterScreenshot_success id png w queue index task :
  (∀ q, JSON_parse (JSON_stringify q) = Some q) →
  isValidPngBase64 Buffer_from_base64 png = true →
  document JSON_parse w primary = Some queue →
  list_find (λ t, Task.id t = id) (Queue.items queue) = Some (index, task) →
  let save :=
    saveAfterScreenshot reviewDir JSON_stringify JSON_parse Buffer_from_base64
      id png in
  let task' :=
    Task.set_updatedAt (clock w (ticks w))
      (Task.set_afterScreenshot
         (Some (".review/screenshots/" +:+ id +:+ "-after.png")) task) in
  eval save w = Return (Some task') ∧
  eval (getTask reviewDir JSON_parse id) (exec save w) = Return (Some task').
Proof.
  intros Hrt Hpng Hdoc Hfind save task'. subst save.
  set (w1 := {| files := <[path_join (screenshotsDir reviewDir)
                             (id +:+ "-after.png") := Buffer_from_base64 png]>
                           (files w);
                clock := clock w; ticks := S (ticks w) |}).
  set (queue' := Queue.set_items (<[index := task']> (Queue.items queue)) queue).
  assert (Hsave :
    saveAfterScreenshot reviewDir JSON_stringify JSON_parse Buffer_from_base64
      id png w =
    (Return (Some task'),
     {| files := written reviewDir JSON_stringify queue' w1;
        clock := clock w; ticks := S (S (ticks w)) |})).
  { unfold saveAfterScreenshot. rewrite Hpng. simpl.
    unfold bind at 1. rewrite (read_document _ _ Hdoc), Hfind.
    unfold bind, writeFile, Date_now_toISOString, ret. simpl.
    by rewrite write_cases. }
  unfold eval, exec. rewrite Hsave. split; [done|].
  rewrite getTask_cases, read_cases. unfold document.
  cbn [files fst snd]. rewrite written_primary.
  cbn [mbind option_bind]. rewrite Hrt.
  unfold queue', Queue.set_lastUpdated, Queue.set_items. cbn [Queue.items fst snd].
  erewrite list_find_insert; [done..|].
  simpl. by apply list_find_Some in Hfind as (_ & ? & _).
Qed.

(** The after-screenshot route on a stored task and a valid image. *)
Lemma post_after_screenshot_ok id png s queue index task :
  (∀ q, JSON_parse (JSON_stringify q) = Some q) →
  isValidPngBase64 Buffer_from_base64 png = true →
  document JSON_parse (world s) primary = Some queue →
  list_find (λ t, Task.id t = id) (Queue.items queue) = Some (index, task) →
  let route :=
    post_after_screenshot reviewDir JSON_stringify JSON_parse
      Buffer_from_base64 id (Some png) in
  let task' :=
    Task.set_updatedAt (clock (world s) (ticks (world s)))
      (Task.set_afterScreenshot
         (Some (".review/screenshots/" +:+ id +:+ "-after.png")) task) in
  fst (route s) = {| statusCode := 200; json := J_task task' |} ∧
  eval (getTask reviewDir JSON_parse id) (world (snd (route s))) =
    Return (Some task').
Proof.
  intros Hrt Hpng Hdoc Hfind route task'. subst route.
  destruct (saveAfterScreenshot_success id png (world s) queue index task
              Hrt Hpng Hdoc Hfind) as [Hsave Hget].
  unfold eval, exec in Hsave, Hget.
  unfold post_after_screenshot, asyncHandler, bind, call, respond, ret,
    broadcast.
  destruct png as [|c png]; [done|].
  destruct (saveAfterScreenshot _ _ _ _ _ _ _) as [r w1].
  simpl in Hsave. subst r. by simpl.
Qed.

End AfterScreenshot.

(** Once [updateTask] has returned a task, no activity list under its id
    means that the activity route answers with the empty list. *)
Lemma get_activity_after_update id updates s s' task :
  eval (updateTask reviewDir JSON_stringify JSON_parse id updates) (world s) =
    Return (Some task) →
  world s' =
    exec (updateTask reviewDir JSON_stringify JSON_parse id updates) (world s) →
  taskActivity s' = delete id (taskActivity s) →
  taskActivity s' !! id = None ∧
  fst (get_activity reviewDir JSON_parse id s') =
    {| statusCode := 200; json := J_entries [] |}.
Proof.
  intros Hok Hworld Hact. rewrite Hact, lookup_delete_eq. split; [done|].
  apply updateTask_success in Hok as (?&?&?&_&_&_&_&Hget).
  rewrite get_activity_cases, Hworld, Hget, Hact.
  by rewrite lookup_delete_eq.
Qed.

(** C9, as the routes implement it. After a [PUT /api/tasks/:id] that
    succeeds with a task whose status is not in_progress, and after a
    cancellation that succeeds, the server holds no activity list for the
    task and the activity route answers with the empty list.  The
    after-screenshot route, which also updates the task, leaves the activity
    lists as they are. *)
Theorem activity_discarded_by_put_and_cancel s id :
  (∀ updates task,
     fst (put_task reviewDir JSON_stringify JSON_parse id updates s) =
       {| statusCode := 200; json := J_task task |} →
     Task.status task ≠ "in_progress" →
     let s' := snd (put_task reviewDir JSON_stringify JSON_parse id updates s) in
     taskActivity s' !! id = None ∧
     fst (get_activity reviewDir JSON_parse id s') =
       {| statusCode := 200; json := J_entries [] |}) ∧
  (∀ task,
     fst (post_cancel reviewDir JSON_stringify JSON_parse id s) =
       {| statusCode := 200; json := J_task task |} →
     let s' := snd (post_cancel reviewDir JSON_stringify JSON_parse id s) in
     taskActivity s' !! id = None ∧
     fst (get_activity reviewDir JSON_parse id s') =
       {| statusCode := 200; json := J_entries [] |}) ∧
  (∀ Buffer_from_base64 screenshot,
     taskActivity
       (snd (post_after_screenshot reviewDir JSON_stringify JSON_parse
               Buffer_from_base64 id screenshot s)) = taskActivity s).
Proof.
  split_and!.
  - intros updates task Hres Hstatus s'.
    destruct (put_task_ok _ _ _ _ Hres) as (Hok & Hworld & Hact).
    apply String.eqb_neq in Hstatus. rewrite Hstatus in Hact.
    by eapply get_activity_after_update.
  - intros task Hres s'.
    destruct (post_cancel_ok _ _ _ Hres) as (Hok & Hworld & Hact).
    by eapply get_activity_after_update.
  - intros. apply post_after_screenshot_taskActivity.
Qed.

(** ** The server: the next task *)

Section NextRoute.
Variable Date_getTime : string → Z.

Lemma getNextPending_cases w :
  getNextPending reviewDir JSON_parse Date_getTime w =
    let '(r, w1) := read reviewDir JSON_parse w in
    (match r with
     | Return queue =>
         Return (head (Array_sort (compare_pending Date_getTime)
                         (filter (λ t, Task.status t = "pending")
                            (Queue.items queue))))
     | Throw e => Throw e
     end, w1).
Proof.
  unfold getNextPending, bind, ret.
  by destruct (read reviewDir JSON_parse w) as [[queue|e] w1].
Qed.

(** The route answers with what [getNextPending] returns. *)
Lemma get_next_answer srv next :
  eval (getNextPending reviewDir JSON_parse Date_getTime) (world srv) =
    Return next →
  let answer := get_next reviewDir JSON_parse Date_getTime srv in
  fst answer =
    {| statusCode := 200;
       json := match next with Some t => J_task t | None => J_null end |} ∧
  world (snd answer) =
    exec (getNextPending reviewDir JSON_parse Date_getTime) (world srv).
Proof.
  unfold eval, exec, get_next, asyncHandler, bind, call, respond, ret.
  destruct (getNextPending _ _ _ _) as [r w1]. simpl. by intros ->.
Qed.

(** While nothing else writes to the store, [getNextPending] returns the
    same task again. *)
Lemma getNextPending_again w task :
  eval (getNextPending reviewDir JSON_parse Date_getTime) w =
    Return (Some task) →
  eval (getNextPending reviewDir JSON_parse Date_getTime)
    (exec (getNextPending reviewDir JSON_parse Date_getTime) w) =
    Return (Some task).
Proof.
  unfold eval, exec. rewrite !getNextPending_cases.
  destruct (read reviewDir JSON_parse w) as [[queue|e] w1] eqn:Hr; [|done].
  simpl. intros Hhead.
  destruct (read_again _ _ _ Hr) as (Hagain & _).
  { intros Hnil. by rewrite Hnil in Hhead. }
  by rewrite Hagain.
Qed.

End NextRoute.

End Store.

(** ** The store and the server on the example data *)

Lemma testServer_document items :
  document scan (world (testServer items)) (queuePath ".review") =
    Some (testQueue items).
Proof.
  unfold document, testServer, testWorld. cbn [world files].
  rewrite lookup_singleton_eq. cbn [mbind option_bind]. apply scan_print.
Qed.

(** C9 fails for the after-screenshot route.  The task t1 is in review; an
    activity entry arrives for it (the route takes entries in any status);
    then its after-screenshot is saved.  That update succeeds, the status of
    the task it returns is review, and the activity route still answers with
    the entry. *)
Lemma after_screenshot_keeps_activity :
  let record :=
    post_activity ".review" scan "t1" (Some "result") (Some "Complete") in
  let update :=
    post_after_screenshot ".review" print scan base64_decode "t1"
      (Some testPng) in
  let entry :=
    {| ActivityEntry.timestamp := "2026-02-22T10:00:01.000Z";
       ActivityEntry.type := "result";
       ActivityEntry.summary := "Complete" |} in
  let s1 := snd (record (testServer [reviewTask])) in
  ∃ task,
    fst (update s1) = {| statusCode := 200; json := J_task task |} ∧
    Task.status task = "review" ∧
    Task.status task ≠ "in_progress" ∧
    fst (get_activity ".review" scan "t1" (snd (update s1))) =
      {| statusCode := 200; json := J_entries [entry] |}.
Proof.
  intros record update entry s1.
  destruct (post_activity_ok ".review" scan "t1" "result" (Some "Complete")
              (testServer [reviewTask]) (testQueue [reviewTask]) 0%nat
              reviewTask (testServer_document [reviewTask]) eq_refl)
    as (_ & Hfiles & Hact).
  { apply VALID_ACTIVITY_TYPES_elem. auto. }
  fold record in Hfiles, Hact. fold s1 in Hfiles, Hact.
  assert (Hdoc : document scan (world s1) (queuePath ".review") =
                 Some (testQueue [reviewTask])).
  { pose proof (testServer_document [reviewTask]) as H.
    unfold document in H |- *. by rewrite Hfiles. }
  destruct (post_after_screenshot_ok ".review" print scan base64_decode
              "t1" testPng s1 (testQueue [reviewTask]) 0%nat reviewTask
              scan_print testPng_valid Hdoc eq_refl) as (Hres & Hget).
  fold update in Hres, Hget.
  eexists. split_and!; [exact Hres|done|done|].
  rewrite get_activity_cases, Hget.
  unfold update. rewrite post_after_screenshot_taskActivity, Hact.
  by rewrite lookup_insert_eq.
Qed.

(** Two tasks are added one after the other, the primary file is
    overwritten with garbage, and [read] returns the document with the first
    task only, as the test of the repository expects. *)
Lemma read_recovers_backup_generation_witness :
  let first := testTask "t1" "2026-02-22T09:00:00.000Z" Medium "pending" [] in
  let second := testTask "t2" "2026-02-22T09:00:01.000Z" Medium "pending" [] in
  let w1 := exec (write ".review" print (testQueue [first])) (testWorld ∅) in
  let w2 := exec (write ".review" print (testQueue [first; second])) w1 in
  let w3 := exec (writeFile (queuePath ".review") "{{invalid json") w2 in
  scan "{{invalid json" = None ∧
  eval (read ".review" scan) w3 =
    Return (Queue.set_lastUpdated "2026-02-22T10:00:01.000Z"
              (testQueue [first])) ∧
  files (exec (read ".review" scan) w3) !! queuePath ".review" =
    files w3 !! backupPath ".review".
Proof.
  intros first second w1 w2 w3.
  assert (Hjunk : scan "{{invalid json" = None) by reflexivity.
  split; [exact Hjunk|].
  destruct (read_recovers_backup_generation ".review" print scan scan_print
              (testWorld ∅) (testQueue [first]) (testQueue [first; second])
              "{{invalid json" Hjunk) as (_ & _ & _ & _ & Hread & Hrepair & _).
  split; [exact Hread | exact Hrepair].
Defined.

(** Both files are garbage, as in the test of the repository: [read]
    returns the empty document. *)
Lemma read_never_throws_witness :
  let w :=
    testWorld {[queuePath ".review" := "corrupt";
                backupPath ".review" := "also corrupt"]} in
  eval (read ".review" scan) w =
    Return {| Queue.version := 1;
              Queue.lastUpdated := "2026-02-22T10:00:01.000Z";
              Queue.items := [] |}.
Proof.
  intros w.
  destruct (read_never_throws ".review" scan w) as (q & Hq & Hempty).
  destruct Hempty as [-> _]; [by vm_compute..|exact Hq].
Defined.

(** The test of the repository for invalid statuses. *)
Lemma updateTask_invalid_status_rejected_witness :
  let task := testTask "t1" "2026-02-22T09:00:00.000Z" Medium "pending" [] in
  let w := world (testServer [task]) in
  let update := updateTask ".review" print scan "t1" [P_status "invalid"] in
  eval update w =
    Throw (Error "Invalid status: invalid. Must be one of: pending, in_progress, review, done") ∧
  exec update w = w ∧
  eval (getTask ".review" scan "t1") (exec update w) = Return (Some task).
Proof.
  intros task w update.
  assert (Hget : eval (getTask ".review" scan "t1") w = Return (Some task)).
  { unfold eval, w. rewrite getTask_cases.
    by rewrite (read_document _ _ _ _ (testServer_document [task])). }
  assert (Hinvalid : "invalid" ∉ VALID_STATUSES).
  { rewrite VALID_STATUSES_elem. by intros [|[|[|]]]. }
  destruct (updateTask_invalid_status_rejected ".review" print scan w "t1"
              [P_status "invalid"] "invalid" task Hget eq_refl Hinvalid)
    as (Hthrow & _ & _ & Hstill & _ & Hsame).
  split_and!; [exact Hthrow| |exact Hstill].
  apply Hsame. unfold w. rewrite (testServer_document [task]). by eexists.
Defined.

(** The test of the repository for disallowed fields: the payload carries
    an id, a creation time and the status review. *)
Lemma updateTask_keeps_identity_witness :
  let task := testTask "t1" "2026-02-22T09:00:00.000Z" Medium "pending" [] in
  let w := world (testServer [task]) in
  let updates :=
    [P_id "hacked-id"; P_createdAt "hacked-date"; P_status "review"] in
  let task' :=
    Task.set_updatedAt "2026-02-22T10:00:01.000Z"
      (Task.set_status "review" task) in
  eval (updateTask ".review" print scan "t1" updates) w = Return (Some task') ∧
  Task.id task' = "t1" ∧
  Task.createdAt task' = "2026-02-22T09:00:00.000Z" ∧
  eval (getTask ".review" scan "t1")
    (exec (updateTask ".review" print scan "t1" updates) w) =
    Return (Some task').
Proof.
  intros task w updates task'.
  assert (Hok : eval (updateTask ".review" print scan "t1" updates) w =
                Return (Some task')).
  { rewrite (updateTask_ok ".review" print scan "t1" updates w
               (testQueue [task]) 0%nat task (testServer_document [task])
               eq_refl); [done|].
    intros s [= <-]. apply VALID_STATUSES_elem. auto. }
  destruct (updateTask_keeps_identity ".review" print scan scan_print w "t1"
              updates task' Hok)
    as (?&?&?&_&_&_&_&_&_&_&_&_&_&_&_&_&Hget).
  split_and!; [exact Hok|done|done|exact Hget].
Defined.

(** A running task has an activity entry; the agent sets it to review with
    a [PUT]; the activity route then answers with the empty list. *)
Lemma activity_discarded_by_put_and_cancel_witness :
  let task := testTask "t1" "2026-02-22T09:00:00.000Z" High "in_progress" [] in
  let s :=
    snd (post_activity ".review" scan "t1" (Some "tool_start")
           (Some "Reading src/App.tsx") (testServer [task])) in
  let s' := snd (put_task ".review" print scan "t1" [P_status "review"] s) in
  is_Some (taskActivity s !! "t1") ∧
  taskActivity s' !! "t1" = None ∧
  fst (get_activity ".review" scan "t1" s') =
    {| statusCode := 200; json := J_entries [] |}.
Proof.
  intros task s s'.
  destruct (post_activity_ok ".review" scan "t1" "tool_start"
              (Some "Reading src/App.tsx") (testServer [task])
              (testQueue [task]) 0%nat task (testServer_document [task])
              eq_refl) as (_ & Hfiles & Hact).
  { apply VALID_ACTIVITY_TYPES_elem. auto. }
  fold s in Hfiles, Hact.
  assert (Hdoc : document scan (world s) (queuePath ".review") =
                 Some (testQueue [task])).
  { pose proof (testServer_document [task]) as H.
    unfold document in H |- *. by rewrite Hfiles. }
  pose proof (put_task_success ".review" print scan "t1" [P_status "review"]
                s (testQueue [task]) 0%nat task Hdoc eq_refl) as Hput.
  destruct (activity_discarded_by_put_and_cancel ".review" print scan
              scan_print s "t1") as (Hdiscard & _ & _).
  split.
  { rewrite Hact, lookup_insert_eq. by eexists. }
  eapply Hdiscard.
  - apply Hput. intros st [= <-]. apply VALID_STATUSES_elem. auto.
  - done.
Defined.

(** A finished task of high priority, a low task, and two high tasks of
    which the one stored last was created first: that one is next.  The
    theorem alone fixes the answer. *)
Lemma getNextPending_lowest_tier_then_oldest_witness :
  let finished := testTask "t0" "2026-02-22T08:00:00.000Z" High "done" [] in
  let low := testTask "t1" "2026-02-22T09:00:00.000Z" Low "pending" [] in
  let late := testTask "t2" "2026-02-22T09:00:02.000Z" High "pending" [] in
  let early := testTask "t3" "2026-02-22T09:00:01.000Z" High "pending" [] in
  eval (getNextPending ".review" scan Date_getTime_iso)
    (world (testServer [finished; low; late; early])) = Return (Some early).
Proof.
  intros finished low late early.
  destruct (getNextPending_lowest_tier_then_oldest ".review" scan
              Date_getTime_iso
              (world (testServer [finished; low; late; early])))
    as (queue & next & Hq & -> & Hnone & Hsome).
  unfold eval in Hq.
  rewrite (read_document _ _ _ _
             (testServer_document [finished; low; late; early])) in Hq.
  injection Hq as <-.
  assert (Hearly :
    early ∈ filter (λ t, Task.status t = "pending")
              (Queue.items (testQueue [finished; low; late; early]))).
  { apply list_elem_of_filter. split; [done|].
    do 3 apply list_elem_of_further. apply list_elem_of_here. }
  destruct next as [task|].
  - destruct (Hsome task eq_refl) as (Hin & Hstatus & Hall & _).
    destruct (Hall early Hearly) as [_ Hrank].
    cbn [Queue.items testQueue] in Hin.
    repeat (apply elem_of_cons in Hin as [-> |Hin]).
    + discriminate Hstatus.
    + by destruct Hrank as [Hrank|[Hrank _]].
    + destruct Hrank as [Hrank|[_ Hrank]]; [done|].
      by apply Z.leb_le in Hrank.
    + done.
    + by apply elem_of_nil in Hin.
  - apply proj1 in Hnone. specialize (Hnone eq_refl).
    rewrite Hnone in Hearly. by apply elem_of_nil in Hearly.
Defined.

(** ** The dispatch loop *)

Section Loop.
Variable options : WatcherOptions.t.

Local Abbreviation m := (maxRetries options).

Lemma kickProcessing_cases s :
  kickProcessing s = (s, []) ∧
    (processing s = true ∨ stopped s = true ∨ pendingQueue s = []) ∨
  kickProcessing s =
    (set_calls (calls s ++ [AwaitNext]) (set_processing true s), [GetNext]) ∧
    processing s = false ∧ stopped s = false ∧ pendingQueue s ≠ [].
Proof.
  unfold kickProcessing.
  destruct (processing s), (stopped s), (pendingQueue s); simpl; auto.
Qed.

Lemma kickProcessing_single_flight s :
  single_flight s → single_flight (fst (kickProcessing s)).
Proof.
  intros H. destruct (kickProcessing_cases s) as [[-> _]|(-> & Hp & _)];
    [done|].
  unfold single_flight in *. simpl.
  destruct (calls s) as [|c [|c' l]]; simpl in *.
  - by destruct H as [_ ->].
  - destruct H as [H _]. congruence.
  - done.
Qed.

Lemma enqueue_single_flight id s :
  single_flight s → single_flight (fst (enqueue id s)).
Proof.
  intros H. unfold enqueue. destruct (_ && _); [|done].
  by apply kickProcessing_single_flight.
Qed.

Lemma enqueue_all_single_flight ids s :
  single_flight s → single_flight (fst (enqueue_all ids s)).
Proof.
  revert s. induction ids as [|id ids IH]; intros s H; simpl; [done|].
  pose proof (enqueue_single_flight id s H) as H1.
  destruct (enqueue id s) as [s1 a1]. simpl in H1.
  specialize (IH s1 H1). by destruct (enqueue_all ids s1).
Qed.

(** A call that does not await the exit of a subprocess ends: the loop is
    idle, or it has started the next cycle. *)
Lemma after_processTask_single_flight c s :
  single_flight s → calls s = [c] →
  (∀ task child, c ≠ AwaitExit task child) →
  single_flight (fst (after_processTask 0 s)).
Proof.
  intros H Hc Hne. unfold after_processTask.
  assert (H0 : single_flight (set_processing false (ends 0 s))).
  { unfold single_flight in *. simpl. rewrite Hc in *. simpl.
    destruct H as [_ H]. split; [done|]. destruct c; try done.
    by destruct (Hne task child). }
  destruct (negb _); [|done]. destruct (_ <? _)%nat; [|done].
  by apply kickProcessing_single_flight.
Qed.

Lemma resume_single_flight call r s :
  single_flight s → single_flight (fst (resume options call r s)).
Proof.
  intros H. unfold resume.
  destruct (calls s !! call) as [c|] eqn:Hcall; [|done].
  assert (Hc : calls s = [c] ∧ call = 0%nat).
  { unfold single_flight in H.
    destruct (calls s) as [|c0 [|c1 l]]; [done| |done].
    destruct call; simpl in Hcall; [by simplify_eq|done]. }
  destruct Hc as [Hc ->].
  assert (Hreturn : ∀ s', calls s' = calls s → processing s' = processing s →
            active s' = active s → (∀ task child, c ≠ AwaitExit task child) →
            single_flight (fst (after_processTask 0 s'))).
  { intros s' H1 H2 H3 Hne.
    apply (after_processTask_single_flight c); [|congruence|done].
    unfold single_flight in *. by rewrite H1, H2, H3. }
  assert (Hend : (∀ task child, c ≠ AwaitExit task child) →
            ∀ s', calls s' = calls s → active s' = active s →
            single_flight (set_processing false (ends 0 s'))).
  { intros Hne s' H1 H3. unfold single_flight in *. simpl.
    rewrite H1, H3, Hc in *. simpl. destruct H as [_ H]. split; [done|].
    destruct c; try done. by destruct (Hne task child). }
  destruct c as [|task|task child|task|task].
  - destruct r as [[]|]; simpl; try by apply Hend.
    destruct (_ && _); simpl; [by apply Hend|].
    unfold single_flight in *. simpl. rewrite Hc in *. by simpl.
  - destruct r; simpl.
    + unfold single_flight in *. simpl. rewrite Hc in *. simpl.
      destruct H as [? ->]. by split.
    + by apply Hreturn.
  - done.
  - destruct r as [[]|]; simpl; try by apply Hreturn.
    destruct (String.eqb _ "review"); [by apply Hreturn|].
    destruct (String.eqb _ "in_progress"); [|by apply Hreturn].
    unfold single_flight in *. simpl. rewrite Hc in *. by simpl.
  - by apply Hreturn.
Qed.

(** A subprocess ends: it is no longer active, and the call that awaited
    its exit goes on. *)
Lemma exited_single_flight child s v :
  single_flight s →
  single_flight
    (fst (exited child
            (set_currentProcess v
               (set_active (filter (λ c, c ≠ child) (active s)) s)))).
Proof.
  unfold single_flight, exited. simpl.
  destruct (calls s) as [|c [|c' l]]; simpl; [|intros [Hp Ha]|done].
  - intros [? ->]. by rewrite filter_nil.
  - split; [done|]. rewrite Ha.
    destruct c as [|task|task child'|task|task]; try by rewrite filter_nil.
    rewrite filter_cons, filter_nil.
    destruct (Nat.eqb_spec child' child) as [->|Hne].
    + by destruct (decide (child ≠ child)).
    + by destruct (decide (child' ≠ child)).
Qed.

Lemma step_single_flight s e :
  single_flight s → single_flight (fst (step options s e)).
Proof.
  intros H. destruct e; simpl.
  - destruct r; [|destruct (_ <? _)%nat; [|done];
                  by apply kickProcessing_single_flight].
    destruct (_ <? _)%nat; [|done]. by apply kickProcessing_single_flight.
  - destruct r; [|done]. by apply enqueue_all_single_flight.
  - by apply enqueue_single_flight.
  - destruct (String.eqb _ _); [|done]. by apply enqueue_single_flight.
  - done.
  - destruct (currentProcess s); [|done]. by destruct (bool_decide _).
  - by apply kickProcessing_single_flight.
  - by apply resume_single_flight.
  - destruct (_ <? _)%nat; [|done]. by apply exited_single_flight.
  - destruct (bool_decide _); [|done].
    pose proof (exited_single_flight child s (currentProcess s) H) as H'.
    by destruct s.
  - done.
Qed.

Lemma run_single_flight events s :
  single_flight s → single_flight (fst (run options s events)).
Proof.
  revert s. induction events as [|e events IH]; intros s H; simpl; [done|].
  pose proof (step_single_flight s e H) as H1.
  destruct (step options s e) as [s1 a1]. simpl in H1.
  specialize (IH s1 H1). by destruct (run options s1 events).
Qed.

(** C6. In every state that the loop reaches at most one subprocess is
    active.  While a call of [kickProcessing] is under way ([processing] is
    set, which is so whenever a subprocess is active), another call of
    [kickProcessing] changes nothing and does nothing.  When the task of
    the current cycle is finished, the loop fetches the next task if it is
    not stopped and its pending queue is not empty, and is idle
    otherwise. *)
Theorem dispatch_loop_single_flight events :
  let s := fst (run options startWatcher events) in
  (length (active s) ≤ 1)%nat ∧
  (active s ≠ [] → processing s = true) ∧
  (processing s = true → kickProcessing s = (s, [])) ∧
  ∀ call c r, calls s !! call = Some c → finishes_task c r →
    let next := step options s (Settled call r) in
    if negb (stopped s) && negb (bool_decide (pendingQueue s = []))
    then snd next = [GetNext] ∧ calls (fst next) = [AwaitNext] ∧
         processing (fst next) = true ∧ active (fst next) = []
    else snd next = [] ∧ calls (fst next) = [] ∧
         processing (fst next) = false ∧ active (fst next) = [].
Proof.
  intros s. assert (H : single_flight s) by (by apply run_single_flight).
  clearbody s. split_and!.
  - unfold single_flight in H.
    destruct (calls s) as [|c [|c' l]]; [| |done].
    + destruct H as [_ ->]. simpl. lia.
    + destruct H as [_ ->]. destruct c; simpl; lia.
  - unfold single_flight in H.
    destruct (calls s) as [|c [|c' l]]; [| |done]; by destruct H.
  - intros Hp. unfold kickProcessing. by rewrite Hp.
  - intros call c r Hcall Hfin next. subst next.
    unfold single_flight in H.
    destruct (calls s) as [|c0 [|c1 l]] eqn:Hc; [done| |done].
    destruct call; simpl in Hcall; [|done]. simplify_eq.
    destruct H as [_ Ha].
    assert (Hret :
      let next := processTask_returns 0 s in
      if negb (stopped s) && negb (bool_decide (pendingQueue s = []))
      then snd next = [GetNext] ∧ calls (fst next) = [AwaitNext] ∧
           processing (fst next) = true ∧ active (fst next) = []
      else snd next = [] ∧ calls (fst next) = [] ∧
           processing (fst next) = false ∧ active (fst next) = []).
    { unfold processTask_returns, after_processTask, kickProcessing, ends.
      simpl. rewrite Hc. simpl.
      destruct c; try done; simpl in Ha;
        (destruct (stopped s); simpl; [done|]);
        destruct (pendingQueue s); simpl; done. }
    simpl. unfold resume. rewrite Hc. simpl.
    destruct c; try done; simpl in Hfin.
    destruct r as [[]|]; try done.
    apply String.eqb_neq in Hfin. rewrite Hfin.
    by destruct (String.eqb _ "review").
Qed.

(** *** Which calls a transition suspends, and what it does *)

Lemma elem_of_insert_inv {A} (l : list A) i x y :
  x ∈ <[i := y]> l → x = y ∨ x ∈ l.
Proof.
  revert i. induction l as [|z l IH]; intros [|i]; simpl;
    rewrite ?elem_of_cons; try tauto.
  intros [->|H]; [tauto|]. destruct (IH _ H); tauto.
Qed.

Lemma over_limit_test task :
  (0 <? m) && (m <=? Z.of_nat (length (Task.attempts task))) = true ↔
  over_limit options task.
Proof. unfold over_limit. rewrite andb_true_iff, Z.ltb_lt, Z.leb_le. tauto. Qed.

Lemma kickProcessing_calls s c :
  c ∈ calls (fst (kickProcessing s)) → c ∈ calls s ∨ c = AwaitNext.
Proof.
  destruct (kickProcessing_cases s) as [[-> _]|[-> _]]; simpl; [tauto|].
  rewrite elem_of_app, list_elem_of_singleton. tauto.
Qed.

Lemma kickProcessing_actions s a : a ∈ snd (kickProcessing s) → a = GetNext.
Proof.
  destruct (kickProcessing_cases s) as [[-> _]|[-> _]]; simpl.
  - by intros ?%elem_of_nil.
  - by intros ?%list_elem_of_singleton.
Qed.

Lemma enqueue_calls id s c :
  c ∈ calls (fst (enqueue id s)) → c ∈ calls s ∨ c = AwaitNext.
Proof.
  unfold enqueue. destruct (_ && _); [|tauto].
  by intros ?%kickProcessing_calls.
Qed.

Lemma enqueue_actions id s a : a ∈ snd (enqueue id s) → a = GetNext.
Proof.
  unfold enqueue. destruct (_ && _); [apply kickProcessing_actions|].
  by intros ?%elem_of_nil.
Qed.

Lemma enqueue_all_calls ids s c :
  c ∈ calls (fst (enqueue_all ids s)) → c ∈ calls s ∨ c = AwaitNext.
Proof.
  revert s. induction ids as [|id ids IH]; intros s; simpl; [tauto|].
  pose proof (enqueue_calls id s c) as H1.
  destruct (enqueue id s) as [s1 a1]. simpl in H1.
  specialize (IH s1). destruct (enqueue_all ids s1) as [s2 a2]. simpl in *.
  tauto.
Qed.

Lemma enqueue_all_actions ids s a : a ∈ snd (enqueue_all ids s) → a = GetNext.
Proof.
  revert s. induction ids as [|id ids IH]; intros s; simpl.
  { by intros ?%elem_of_nil. }
  pose proof (enqueue_actions id s a) as H1.
  destruct (enqueue id s) as [s1 a1]. simpl in H1.
  specialize (IH s1). destruct (enqueue_all ids s1) as [s2 a2]. simpl in *.
  rewrite elem_of_app. tauto.
Qed.

Lemma after_processTask_calls call s c :
  c ∈ calls (fst (after_processTask call s)) → c ∈ calls s ∨ c = AwaitNext.
Proof.
  unfold after_processTask.
  assert (H : c ∈ calls (set_processing false (ends call s)) → c ∈ calls s).
  { simpl. apply list_elem_of_delete_inv. }
  destruct (negb _); [|tauto]. destruct (_ <? _)%nat; [|tauto].
  intros ?%kickProcessing_calls. tauto.
Qed.

Lemma after_processTask_actions call s a :
  a ∈ snd (after_processTask call s) → a = GetNext.
Proof.
  unfold after_processTask.
  destruct (negb _); [|by intros ?%elem_of_nil].
  destruct (_ <? _)%nat; [|by intros ?%elem_of_nil].
  apply kickProcessing_actions.
Qed.

Lemma exited_actions child s a :
  a ∈ snd (exited child s) → ∃ id, a = GetTask id.
Proof.
  unfold exited. simpl. intros (c & _ & Hc)%list_elem_of_omap.
  destruct c; try done. destruct (_ =? _)%nat; [|done].
  injection Hc as <-. by eexists.
Qed.

Lemma exited_AwaitClaim child s task :
  AwaitClaim task ∈ calls (fst (exited child s)) → AwaitClaim task ∈ calls s.
Proof.
  unfold exited. simpl. intros (c & Hc & Hin)%list_elem_of_fmap.
  destruct c as [|t|t ch|t|t]; try done.
  - by injection Hc as ->.
  - by destruct (ch =? child)%nat.
Qed.

(** A transition dispatches only in two places: it claims the task that the
    server answered with, unless the retry limit applies to it, and it
    spawns the subprocess for a task when the claim of that task resolves. *)
Lemma step_dispatches s e a :
  a ∈ snd (step options s e) → dispatches a →
  (∃ call task,
     e = Settled call (Resolved (J_task task)) ∧
     calls s !! call = Some AwaitNext ∧ ¬ over_limit options task ∧
     a = PutStatus (Task.id task) "in_progress") ∨
  (∃ call task body,
     e = Settled call (Resolved body) ∧
     calls s !! call = Some (AwaitClaim task) ∧ a = Spawn (spawned s) task).
Proof.
  assert (Hget : ∀ a, a = GetNext → dispatches a → False) by (by intros ? ->).
  assert (Hret : ∀ call s', a ∈ snd (processTask_returns call s') →
                   dispatches a → False).
  { intros call s' ->%after_processTask_actions. done. }
  destruct e as [r|r|t|t|id|id| |call r|child|child| ]; simpl.
  - destruct (_ <? _)%nat; [|by intros ?%elem_of_nil].
    intros ?%kickProcessing_actions ?. exfalso. eauto.
  - destruct r; [|by intros ?%elem_of_nil].
    intros ?%enqueue_all_actions ?. exfalso. eauto.
  - intros ?%enqueue_actions ?. exfalso. eauto.
  - destruct (String.eqb _ _); [|by intros ?%elem_of_nil].
    intros ?%enqueue_actions ?. exfalso. eauto.
  - by intros ?%elem_of_nil.
  - destruct (currentProcess s); [|by intros ?%elem_of_nil].
    destruct (bool_decide _); [|by intros ?%elem_of_nil].
    by intros ->%list_elem_of_singleton.
  - intros ?%kickProcessing_actions ?. exfalso. eauto.
  - unfold resume.
    destruct (calls s !! call) as [[|task|task child|task|task]|] eqn:Hcall;
      try by intros ?%elem_of_nil.
    + destruct r as [[]|]; simpl;
        try (by intros ?%elem_of_nil);
        try (by intros ->%list_elem_of_singleton).
      destruct (_ && _) eqn:Hlimit; simpl; [by intros ?%elem_of_nil|].
      intros ->%list_elem_of_singleton _. left. exists call, task.
      split_and!; try done. rewrite <- over_limit_test. congruence.
    + destruct r; simpl.
      * intros ->%list_elem_of_singleton _. right. by exists call, task, body.
      * intros ? ?. exfalso. eauto.
    + destruct r as [[]|]; simpl; try (intros ? ?; exfalso; by eauto).
      destruct (String.eqb _ "review"); [intros ? ?; exfalso; by eauto|].
      destruct (String.eqb _ "in_progress"); [|intros ? ?; exfalso; by eauto].
      by intros ->%list_elem_of_singleton.
    + intros ? ?. exfalso. eauto.
  - destruct (_ <? _)%nat; [|by intros ?%elem_of_nil].
    by intros [id ->]%exited_actions.
  - destruct (bool_decide _); [|by intros ?%elem_of_nil].
    by intros [id ->]%exited_actions.
  - destruct (currentProcess s); [|by intros ?%elem_of_nil].
    by intros ->%list_elem_of_singleton.
Qed.

(** A call is suspended at the claim of a task only by the transition that
    sends the claim, and only for a task under the retry limit. *)
Lemma step_AwaitClaim s e task :
  AwaitClaim task ∈ calls (fst (step options s e)) →
  AwaitClaim task ∈ calls s ∨
  (¬ over_limit options task ∧
   PutStatus (Task.id task) "in_progress" ∈ snd (step options s e)).
Proof.
  assert (Hnext : ∀ l : list Await,
            AwaitClaim task ∈ l ∨ AwaitClaim task = AwaitNext →
            AwaitClaim task ∈ l) by (by intros l [|]).
  assert (Hret : ∀ call s',
            AwaitClaim task ∈ calls (fst (processTask_returns call s')) →
            calls s' = calls s → AwaitClaim task ∈ calls s).
  { intros call s' H%after_processTask_calls <-. by apply Hnext. }
  assert (Hend : ∀ call s',
            AwaitClaim task ∈ calls (set_processing false (ends call s')) →
            calls s' = calls s → AwaitClaim task ∈ calls s).
  { intros call s' H <-. simpl in H. by eapply list_elem_of_delete_inv. }
  destruct e as [r|r|t|t|id|id| |call r|child|child| ]; simpl.
  - destruct r; simpl;
      (destruct (_ <? _)%nat; [|tauto]);
      intros ?%kickProcessing_calls; left; by apply Hnext.
  - destruct r; [|tauto]. intros ?%enqueue_all_calls. left. by apply Hnext.
  - intros ?%enqueue_calls. left. by apply Hnext.
  - destruct (String.eqb _ _); [|tauto].
    intros ?%enqueue_calls. left. by apply Hnext.
  - tauto.
  - destruct (currentProcess s); [|tauto]. destruct (bool_decide _); tauto.
  - intros ?%kickProcessing_calls. left. by apply Hnext.
  - unfold resume.
    destruct (calls s !! call) as [[|task'|task' child|task'|task']|] eqn:Hcall;
      try tauto.
    + destruct r as [[]|]; simpl; try (intros H; left; eapply Hend; [exact H|done]).
      destruct (_ && _) eqn:Hlimit; simpl; [intros H; left; eapply Hend; [exact H|done]|].
      intros [[= ->]|H]%elem_of_insert_inv; [|tauto].
      right. split; [|by apply list_elem_of_singleton].
      rewrite <- over_limit_test. congruence.
    + destruct r; simpl; [|intros H; left; eapply Hret; [exact H|done]].
      intros [|H]%elem_of_insert_inv; [done|tauto].
    + destruct r as [[]|]; simpl; try (intros H; left; eapply Hret; [exact H|done]).
      destruct (String.eqb _ "review"); [intros H; left; eapply Hret; [exact H|done]|].
      destruct (String.eqb _ "in_progress"); [|intros H; left; eapply Hret; [exact H|done]].
      simpl. intros [|H]%elem_of_insert_inv; [done|tauto].
    + intros H. left. eapply Hret; [exact H|done].
  - destruct (_ <? _)%nat; [|tauto]. intros ?%exited_AwaitClaim. tauto.
  - destruct (bool_decide _); [|tauto]. intros ?%exited_AwaitClaim. tauto.
  - tauto.
Qed.

Lemma run_cons s e events :
  run options s (e :: events) =
    (fst (run options (fst (step options s e)) events),
     snd (step options s e) ++ snd (run options (fst (step options s e)) events)).
Proof.
  simpl. destruct (step options s e) as [s1 a1]. simpl.
  by destruct (run options s1 events).
Qed.

(** *** The retry limit *)

Lemma run_spawns_under_limit events s child task :
  claims_under_limit options s →
  Spawn child task ∈ snd (run options s events) → ¬ over_limit options task.
Proof.
  revert s. induction events as [|e events IH]; intros s Hinv.
  { simpl. by intros ?%elem_of_nil. }
  rewrite run_cons. simpl. intros [Hin|Hin]%elem_of_app.
  - apply step_dispatches in Hin as [(?&?&_&_&_&?)|(call&t&_&_&Hcall&[= _ <-])];
      [done| |done].
    apply Hinv. by eapply list_elem_of_lookup_2.
  - eapply IH; [|done]. intros t [?|[? _]]%step_AwaitClaim; auto.
Qed.

(** C7. With a positive maximum retry count, a task with at least that many
    attempts is never dispatched.  The cycle that gets it from the server
    skips it: it sends nothing (no claim, so the status stays pending, and no
    spawn), takes the id out of the pending queue and ends.  Whenever the
    loop claims a task, it is the task of the answer to the fetch of the
    next task, under the limit; and every subprocess of every run is spawned
    for a task under the limit. *)
Theorem over_limit_task_never_dispatched :
  0 < m →
  (∀ s call task,
     calls s !! call = Some AwaitNext →
     m ≤ Z.of_nat (length (Task.attempts task)) →
     let next := step options s (Settled call (Resolved (J_task task))) in
     snd next = [] ∧
     pendingQueue (fst next) = without (Task.id task) (pendingQueue s) ∧
     (Task.id task ∉ pendingQueue (fst next)) ∧
     calls (fst next) = delete call (calls s) ∧
     processing (fst next) = false ∧
     currentTaskId (fst next) = currentTaskId s ∧
     active (fst next) = active s) ∧
  (∀ s e id,
     PutStatus id "in_progress" ∈ snd (step options s e) →
     ∃ call task,
       e = Settled call (Resolved (J_task task)) ∧ id = Task.id task ∧
       Z.of_nat (length (Task.attempts task)) < m) ∧
  (∀ events child task,
     Spawn child task ∈ snd (run options startWatcher events) →
     Z.of_nat (length (Task.attempts task)) < m).
Proof.
  intros Hm. split_and!.
  - intros s call task Hcall Hover next. subst next. simpl.
    unfold resume. rewrite Hcall.
    assert (Hlimit : (0 <? m) &&
              (m <=? Z.of_nat (length (Task.attempts task))) = true).
    { apply over_limit_test. by split. }
    rewrite Hlimit. simpl. split_and!; try done.
    unfold without. rewrite list_elem_of_filter. tauto.
  - intros s e id Hin.
    apply step_dispatches in Hin as [(call&task&?&_&Hunder&[= ->])|(?&?&?&_&_&?)];
      [|done..].
    exists call, task. split_and!; [done..|].
    unfold over_limit in Hunder. lia.
  - intros events child task Hin.
    apply run_spawns_under_limit in Hin.
    + unfold over_limit in Hin. lia.
    + by intros t ?%elem_of_nil.
Qed.

(** *** The claim *)



(** The promise of [fetchJSON] resolves for every response, also for one
    with an error status: the claim then counts as made and the subprocess
    is spawned. *)
Lemma claim_resolved_spawns s call task body :
  calls s !! call = Some (AwaitClaim task) →
  snd (step options s (Settled call (Resolved body))) =
    [Spawn (spawned s) task].
Proof. intros H. simpl. unfold resume. by rewrite H. Qed.

(** *** The head of the queue *)

Lemma step_only_fetching s e :
  only_fetching s →
  (∀ call task, e = Settled call (Resolved (J_task task)) →
                over_limit options task) →
  only_fetching (fst (step options s e)).
Proof.
  intros Hinv Hover.
  assert (Hnext : ∀ (l : list Await) c,
            c ∈ l ∨ c = AwaitNext → only_fetching s → l = calls s →
            c = AwaitNext).
  { intros l c [Hin| ->] H ->; auto. }
  assert (Hend : ∀ call s' c,
            c ∈ calls (set_processing false (ends call s')) →
            calls s' = calls s → c = AwaitNext).
  { intros call s' c H Heq. simpl in H. apply list_elem_of_delete_inv in H.
    rewrite Heq in H. auto. }
  destruct e as [r|r|t|t|id|id| |call r|child|child| ]; simpl.
  - destruct r; simpl; (destruct (_ <? _)%nat; [|done]);
      intros c ?%kickProcessing_calls; by eapply Hnext.
  - destruct r; [|done]. intros c ?%enqueue_all_calls. by eapply Hnext.
  - intros c ?%enqueue_calls. by eapply Hnext.
  - destruct (String.eqb _ _); [|done].
    intros c ?%enqueue_calls. by eapply Hnext.
  - done.
  - destruct (currentProcess s); [|done]. by destruct (bool_decide _).
  - intros c ?%kickProcessing_calls. by eapply Hnext.
  - unfold resume. destruct (calls s !! call) as [c0|] eqn:Hcall; [|done].
    apply list_elem_of_lookup_2, Hinv in Hcall as ->.
    destruct r as [[]|]; simpl; try (intros c H; eapply Hend; [exact H|done]).
    specialize (Hover call task eq_refl). apply over_limit_test in Hover.
    rewrite Hover. simpl. intros c H. eapply Hend; [exact H|done].
  - destruct (_ <? _)%nat; [|done]. unfold exited. simpl.
    intros c (c0 & -> & Hin)%list_elem_of_fmap. by rewrite (Hinv c0 Hin).
  - destruct (bool_decide _); [|done]. unfold exited. simpl.
    intros c (c0 & -> & Hin)%list_elem_of_fmap. by rewrite (Hinv c0 Hin).
  - done.
Qed.

Lemma run_only_fetching events s a :
  only_fetching s →
  (∀ call task, Settled call (Resolved (J_task task)) ∈ events →
                over_limit options task) →
  a ∈ snd (run options s events) → ¬ dispatches a.
Proof.
  revert s. induction events as [|e events IH]; intros s Hinv Hover.
  { simpl. by intros ?%elem_of_nil. }
  rewrite run_cons. cbn [snd]. intros [Hin|Hin]%elem_of_app Hd.
  - apply step_dispatches in Hin
      as [(call&task&->&_&Hunder&_)|(call&task&_&_&Hcall&_)]; [| |done].
    + apply Hunder, (Hover call). apply elem_of_cons. by left.
    + by apply list_elem_of_lookup_2, Hinv in Hcall.
  - apply (IH (fst (step options s e))); [| |done..].
    + apply step_only_fetching; [done|].
      intros call task ->. apply (Hover call). apply elem_of_cons. by left.
    + intros call task ?. apply (Hover call). apply elem_of_cons. by right.
Qed.

(** C10. With a retry limit configured, take a run in which every task
    that the server answers the fetch of the next task with is at or over
    the limit, whatever other tasks are pending.  The cycle that gets such an
    answer sends nothing and ends, without asking for another candidate; and
    in the whole run no task is claimed and no subprocess is spawned.  The
    answer of the server is the one task that [getNextPending] returns, and
    it is the same task again as long as nothing else writes to the
    store. *)
Theorem over_limit_head_blocks_dispatch events :
  0 < m →
  (∀ call task, Settled call (Resolved (J_task task)) ∈ events →
                m ≤ Z.of_nat (length (Task.attempts task))) →
  (∀ a, a ∈ snd (run options startWatcher events) → ¬ dispatches a) ∧
  (∀ s call task,
     Settled call (Resolved (J_task task)) ∈ events →
     calls s !! call = Some AwaitNext →
     let next := step options s (Settled call (Resolved (J_task task))) in
     snd next = [] ∧ calls (fst next) = delete call (calls s) ∧
     processing (fst next) = false ∧
     currentTaskId (fst next) = currentTaskId s) ∧
  (∀ reviewDir JSON_parse Date_getTime srv task,
     eval (getNextPending reviewDir JSON_parse Date_getTime) (world srv) =
       Return (Some task) →
     let answer := get_next reviewDir JSON_parse Date_getTime srv in
     fst answer = {| statusCode := 200; json := J_task task |} ∧
     eval (getNextPending reviewDir JSON_parse Date_getTime)
       (world (snd answer)) = Return (Some task)).
Proof.
  intros Hm Hover. split_and!.
  - intros a. apply run_only_fetching.
    + by intros c ?%elem_of_nil.
    + intros call task ?. split; [done|]. by apply (Hover call).
  - intros s call task Hin Hcall next. subst next. simpl.
    unfold resume. rewrite Hcall.
    assert (Hlimit : (0 <? m) &&
              (m <=? Z.of_nat (length (Task.attempts task))) = true).
    { apply over_limit_test. split; [done|]. by apply (Hover call). }
    by rewrite Hlimit.
  - intros reviewDir JSON_parse Date_getTime srv task Hnext answer.
    destruct (get_next_answer reviewDir JSON_parse Date_getTime srv
                (Some task) Hnext) as [Hres Hworld].
    fold answer in Hres, Hworld. split; [done|].
    rewrite Hworld. by apply getNextPending_again.
Qed.

End Loop.

(** ** The dispatch loop on the example data *)

(** The watcher starts with the blocked task and the fresh task pending and
    gets the blocked task from the server: it skips it and stops there, with
    the fresh task still in its pending queue. *)
Lemma over_limit_task_never_dispatched_witness :
  let s :=
    fst (run testOptions startWatcher
           [InitFetched (Resolved (J_queue (testQueue [blockedTask; freshTask])))]) in
  let next := step testOptions s (Settled 0 (Resolved (J_task blockedTask))) in
  0 < maxRetries testOptions ∧
  calls s !! 0%nat = Some AwaitNext ∧
  pendingQueue s = ["t1"; "t2"] ∧
  snd next = [] ∧
  pendingQueue (fst next) = ["t2"] ∧
  calls (fst next) = [] ∧
  processing (fst next) = false.
Proof.
  intros s next.
  assert (Hm : 0 < maxRetries testOptions) by done.
  assert (Hcall : calls s !! 0%nat = Some AwaitNext) by done.
  assert (Hover : maxRetries testOptions ≤
                  Z.of_nat (length (Task.attempts blockedTask))) by done.
  destruct (over_limit_task_never_dispatched testOptions Hm) as (Hskip & _ & _).
  destruct (Hskip s 0%nat blockedTask Hcall Hover)
    as (Hacts & Hqueue & _ & Hcalls & Hproc & _).
  split_and!; [exact Hm|exact Hcall|done|exact Hacts|exact Hqueue
              |exact Hcalls|exact Hproc].
Defined.

(** The blocked task stays at the head of the queue: the watcher fetches the
    next task twice, once at start and once when another task is created,
    and dispatches nothing, although the fresh task is pending. *)
Lemma over_limit_head_blocks_dispatch_witness :
  let events :=
    [InitFetched (Resolved (J_queue (testQueue [blockedTask; freshTask])));
     Settled 0 (Resolved (J_task blockedTask));
     TaskCreated (testTask "t3" "2026-02-22T09:10:00.000Z" Medium "pending" []);
     Settled 0 (Resolved (J_task blockedTask))] in
  0 < maxRetries testOptions ∧
  snd (run testOptions startWatcher events) = [GetNext; GetNext] ∧
  pendingQueue (fst (run testOptions startWatcher events)) = ["t2"; "t3"] ∧
  ∀ a, a ∈ snd (run testOptions startWatcher events) → ¬ dispatches a.
Proof.
  intros events.
  assert (Hm : 0 < maxRetries testOptions) by done.
  assert (Hover : ∀ call task,
            Settled call (Resolved (J_task task)) ∈ events →
            maxRetries testOptions ≤ Z.of_nat (length (Task.attempts task))).
  { intros call task H. unfold events in H.
    repeat (apply elem_of_cons in H as [H|H];
            [try discriminate H; injection H as -> ->; done|]).
    by apply elem_of_nil in H. }
  destruct (over_limit_head_blocks_dispatch testOptions events Hm Hover)
    as (Hnone & _ & _).
  split_and!; [exact Hm|done|done|exact Hnone].
Defined.

(** The loop takes the fresh task through a whole cycle.  While the
    subprocess runs, a new task and the retry timer both call
    [kickProcessing], which does nothing; when the task is found in review,
    the loop fetches the next task. *)
Lemma dispatch_loop_single_flight_witness :
  let created := testTask "t3" "2026-02-22T09:10:00.000Z" Medium "pending" [] in
  let busy :=
    [InitFetched (Resolved (J_queue (testQueue [freshTask])));
     Settled 0 (Resolved (J_task freshTask));
     Settled 0 (Resolved (J_task (Task.set_status "in_progress" freshTask)));
     TaskCreated created] in
  let s := fst (run testOptions startWatcher busy) in
  let review := Resolved (J_task (Task.set_status "review" freshTask)) in
  let s' := fst (run testOptions startWatcher (busy ++ [ChildClose 0])) in
  snd (run testOptions startWatcher busy) =
    [GetNext; PutStatus "t2" "in_progress"; Spawn 0 freshTask] ∧
  active s = [0%nat] ∧
  step testOptions s RetryTimer = (s, []) ∧
  snd (step testOptions s' (Settled 0 review)) = [GetNext] ∧
  active (fst (step testOptions s' (Settled 0 review))) = [].
Proof.
  intros created busy s review s'.
  destruct (dispatch_loop_single_flight testOptions busy)
    as (_ & Hbusy & Hkick & _).
  destruct (dispatch_loop_single_flight testOptions (busy ++ [ChildClose 0]))
    as (_ & _ & _ & Hnext).
  fold s in Hbusy, Hkick. fold s' in Hnext.
  specialize (Hnext 0%nat (AwaitTask freshTask) review eq_refl).
  split_and!; [done|done| | |].
  - apply Hkick, Hbusy. done.
  - apply Hnext. done.
  - apply Hnext. done.
Defined.


(** The examples of the specification for [getNextPending]: of a low, a high
    and a medium task, created in that order, the high one is next; of two
    tasks of one tier the one created first is next. *)
Example getNextPending_priority_example Date_getTime :
  let low := testTask "t1" "2026-02-22T09:00:00.000Z" Low "pending" [] in
  let high := testTask "t2" "2026-02-22T09:00:01.000Z" High "pending" [] in
  let medium := testTask "t3" "2026-02-22T09:00:02.000Z" Medium "pending" [] in
  eval (getNextPending ".review" scan Date_getTime)
    (world (testServer [low; high; medium])) = Return (Some high).
Proof.
  intros low high medium. unfold eval.
  rewrite getNextPending_cases.
  by rewrite (read_document _ _ _ _ (testServer_document [low; high; medium])).
Qed.

Example getNextPending_fifo_example Date_getTime :
  Date_getTime "2026-02-22T09:00:00.000Z" <
    Date_getTime "2026-02-22T09:00:01.000Z" →
  let first := testTask "t1" "2026-02-22T09:00:00.000Z" Medium "pending" [] in
  let second := testTask "t2" "2026-02-22T09:00:01.000Z" Medium "pending" [] in
  eval (getNextPending ".review" scan Date_getTime)
    (world (testServer [second; first])) = Return (Some first).
Proof.
  intros Hlt first second. unfold eval.
  rewrite getNextPending_cases.
  rewrite (read_document _ _ _ _ (testServer_document [second; first])).
  change (filter _ (Queue.items (testQueue [second; first])))
    with [second; first].
  unfold Array_sort, compare_pending. cbn.
  change (negb (1 - 1 =? 0)) with false. cbv iota.
  by rewrite (proj2 (Z.ltb_lt _ _)) by lia.
Qed.

(** ** The store: the files of [write], and tasks created and deleted *)

Lemma screenshot_path reviewDir file :
  path_join (screenshotsDir reviewDir) file =
    path_join reviewDir ("screenshots/" +:+ file).
Proof.
  unfold screenshotsDir, path_join. by rewrite !append_assoc.
Qed.

Lemma screenshot_path_inj reviewDir a b :
  path_join (screenshotsDir reviewDir) a =
    path_join (screenshotsDir reviewDir) b → a = b.
Proof. apply path_join_inj. Qed.

Lemma list_find_snoc {A} (P : A → Prop) `{!∀ x, Decision (P x)} l x :
  list_find P (l ++ [x]) =
    match list_find P l with
    | Some r => Some r
    | None => if decide (P x) then Some (length l, x) else None
    end.
Proof.
  induction l as [|y l IH]; simpl.
  - by destruct (decide (P x)).
  - destruct (decide (P y)); [done|].
    rewrite IH. destruct (list_find P l) as [[i z]|]; simpl; [done|].
    by destruct (decide (P x)).
Qed.

Lemma list_find_filter_other (a b : string) (l : list Task.t) :
  b ≠ a →
  snd <$> list_find (λ t, Task.id t = b)
            (filter (λ t, Task.id t ≠ a) l) =
  snd <$> list_find (λ t, Task.id t = b) l.
Proof.
  intros Hne. induction l as [|t l IH]; [done|].
  rewrite filter_cons. simpl.
  destruct (decide (Task.id t ≠ a)) as [Ht|Ht]; simpl.
  - destruct (decide (Task.id t = b)); [done|].
    rewrite <- !option_fmap_compose.
    change (snd ∘ prod_map S id) with (snd (A := nat) (B := Task.t)) .
    exact IH.
  - rewrite decide_False by (apply dec_stable in Ht; congruence).
    rewrite <- option_fmap_compose.
    change (snd ∘ prod_map S id) with (snd (A := nat) (B := Task.t)).
    exact IH.
Qed.

Lemma try_unlink path w :
  try_catch (unlink path) (λ _, ret tt) w =
    (Return tt, with_files (delete path (files w)) w).
Proof.
  unfold try_catch, unlink, ret.
  destruct (files w !! path) eqn:H; [done|].
  rewrite delete_id by done. by destruct w.
Qed.

Lemma count_statuses (l : list Task.t) :
  (length (filter (λ t, Task.status t = "pending") l) +
   length (filter (λ t, Task.status t = "in_progress") l) +
   length (filter (λ t, Task.status t = "review") l) +
   length (filter (λ t, Task.status t = "done") l) =
   length (filter (λ t, Task.status t ∈ VALID_STATUSES) l))%nat.
Proof.
  induction l as [|t l IH]; [done|].
  rewrite !filter_cons.
  destruct (decide (Task.status t ∈ VALID_STATUSES)) as [Hv|Hv].
  - apply VALID_STATUSES_elem in Hv as [Hs|[Hs|[Hs|Hs]]];
      rewrite Hs; simpl; lia.
  - rewrite !decide_False; [exact IH|..];
      intros Hs; apply Hv, VALID_STATUSES_elem; tauto.
Qed.

Lemma Object_assign_status task source :
  Task.status (Object_assign task source) =
    default (Task.status task) (get_status source).
Proof.
  unfold Object_assign, get_status.
  induction source as [|p source IH] using rev_ind; [done|].
  rewrite foldl_app, omap_app. simpl.
  destruct p; simpl; rewrite ?app_nil_r; try exact IH.
  by rewrite last_snoc.
Qed.

Lemma Object_assign_id task source :
  Forall allowed source →
  Task.id (Object_assign task source) = Task.id task.
Proof. intros H. by destruct (Object_assign_frame source task H) as (? & _). Qed.

Lemma fmap_id_insert (l : list Task.t) index task task' :
  l !! index = Some task → Task.id task' = Task.id task →
  Task.id <$> <[index := task']> l = Task.id <$> l.
Proof.
  intros Hi Hid. rewrite list_fmap_insert, Hid.
  apply list_insert_id. by rewrite list_lookup_fmap, Hi.
Qed.

Section StoreFiles.
Variable reviewDir : string.
Variable JSON_stringify : Queue.t → string.
Variable JSON_parse : string → option Queue.t.

Local Abbreviation primary := (queuePath reviewDir).
Local Abbreviation backup := (backupPath reviewDir).
Local Abbreviation tmp := (queuePath reviewDir +:+ ".tmp").
Local Abbreviation shot := (λ file, path_join (screenshotsDir reviewDir) file).

Lemma shot_queuePath file : shot file ≠ primary.
Proof.
  rewrite screenshot_path. intros H. apply path_join_inj in H. discriminate H.
Qed.

Lemma shot_backupPath file : shot file ≠ backup.
Proof.
  rewrite screenshot_path. intros H. apply path_join_inj in H. discriminate H.
Qed.

Lemma shot_tmpPath file : shot file ≠ tmp.
Proof.
  rewrite screenshot_path, tmpPath_join. intros H.
  apply path_join_inj in H. discriminate H.
Qed.

Lemma written_other queue w path :
  path ≠ primary → path ≠ backup → path ≠ tmp →
  written reviewDir JSON_stringify queue w !! path = files w !! path.
Proof.
  intros Hp Hb Ht. unfold written.
  rewrite lookup_insert_ne by done.
  rewrite lookup_delete_ne by done.
  rewrite lookup_insert_ne by done.
  destruct (files w !! primary); [by rewrite lookup_insert_ne|done].
Qed.

End StoreFiles.

Section StoreTasks.
Variable reviewDir : string.
Variable JSON_stringify : Queue.t → string.
Variable JSON_parse : string → option Queue.t.
Variable Buffer_from_base64 : string → string.

Local Abbreviation primary := (queuePath reviewDir).
Local Abbreviation backup := (backupPath reviewDir).
Local Abbreviation tmp := (queuePath reviewDir +:+ ".tmp").
Local Abbreviation shot := (λ file, path_join (screenshotsDir reviewDir) file).

Lemma read_total w :
  ∃ queue w1, read reviewDir JSON_parse w = (Return queue, w1).
Proof.
  destruct (read_returns reviewDir JSON_parse w) as [q Hq].
  unfold eval in Hq. destruct (read reviewDir JSON_parse w) as [r w1].
  simpl in Hq. subst r. by exists q, w1.
Qed.

Lemma addTask_cases uuid input w :
  addTask reviewDir JSON_stringify JSON_parse Buffer_from_base64 uuid input w =
    if isValidPngBase64 Buffer_from_base64 (CreateTaskInput.screenshot input)
    then
      let '(r, w1) := read reviewDir JSON_parse w in
      match r with
      | Throw e => (Throw e, w1)
      | Return queue =>
          let now := clock w1 (ticks w1) in
          let task :=
            {| Task.id := uuid;
               Task.createdAt := now;
               Task.updatedAt := now;
               Task.url := CreateTaskInput.url input;
               Task.type := CreateTaskInput.type input;
               Task.note := CreateTaskInput.note input;
               Task.category := CreateTaskInput.category input;
               Task.priority := CreateTaskInput.priority input;
               Task.status := "pending";
               Task.screenshotPath :=
                 ".review/screenshots/" +:+ (uuid +:+ ".png");
               Task.element := CreateTaskInput.element input;
               Task.page := CreateTaskInput.page input;
               Task.region := CreateTaskInput.region input;
               Task.agentNotes := "";
               Task.filesModified := [];
               Task.afterScreenshot := None;
               Task.attempts := [] |} in
          let w2 :=
            {| files :=
                 <[shot (uuid +:+ ".png") :=
                     Buffer_from_base64 (CreateTaskInput.screenshot input)]>
                   (files w1);
               clock := clock w1; ticks := S (ticks w1) |} in
          (Return task,
           {| files :=
                written reviewDir JSON_stringify
                  (Queue.set_items (Queue.items queue ++ [task]) queue) w2;
              clock := clock w1; ticks := S (S (ticks w1)) |})
      end
    else
      (Throw (Error "Invalid screenshot: not a valid base64-encoded PNG"), w).
Proof.
  unfold addTask.
  destruct (isValidPngBase64 _ _); simpl; [|done].
  unfold bind at 1.
  destruct (read reviewDir JSON_parse w) as [[queue|e] w1]; [|done].
  unfold bind, Date_now_toISOString, writeFile, ret, with_files. simpl.
  by rewrite write_cases.
Qed.

Lemma getTask_document id w queue :
  document JSON_parse w primary = Some queue →
  getTask reviewDir JSON_parse id w =
    (Return (snd <$> list_find (λ t, Task.id t = id) (Queue.items queue)), w).
Proof.
  intros H. rewrite getTask_cases.
  by rewrite (read_document reviewDir JSON_parse w queue H).
Qed.

(** The items of the document that [read] returns do not depend on the
    repair that [read] may have made. *)
Lemma read_items_again w queue w1 :
  read reviewDir JSON_parse w = (Return queue, w1) →
  ∃ queue', read reviewDir JSON_parse w1 = (Return queue', exec (read reviewDir JSON_parse) w1) ∧
            Queue.items queue' = Queue.items queue.
Proof.
  intros H. destruct (decide (Queue.items queue = [])) as [He|Hne].
  - rewrite read_cases in H. unfold exec. rewrite (read_cases _ _ w1).
    unfold document in *.
    destruct (files w !! primary) as [d|] eqn:Hp; simpl in H.
    + destruct (JSON_parse d) as [q|] eqn:Hd; simpl in H.
      { injection H as -> ->. rewrite Hp. simpl. rewrite Hd. by eexists. }
      destruct (files w !! backup) as [b|] eqn:Hb.
      * destruct (JSON_parse b) as [q|] eqn:Hq.
        { injection H as -> <-. simpl. rewrite lookup_insert_eq. simpl.
          rewrite Hq. by eexists. }
        unfold emptyQueue, bind, Date_now_toISOString, ret in H.
        injection H as <- <-. simpl. rewrite Hp. simpl. rewrite Hd, Hb, Hq.
        by eexists.
      * unfold emptyQueue, bind, Date_now_toISOString, ret in H.
        injection H as <- <-. simpl. rewrite Hp. simpl. rewrite Hd, Hb.
        by eexists.
    + destruct (files w !! backup) as [b|] eqn:Hb.
      * destruct (JSON_parse b) as [q|] eqn:Hq.
        { injection H as -> <-. simpl. rewrite lookup_insert_eq. simpl.
          rewrite Hq. by eexists. }
        unfold emptyQueue, bind, Date_now_toISOString, ret in H.
        injection H as <- <-. simpl. rewrite Hp. simpl. rewrite Hb, Hq.
        by eexists.
      * unfold emptyQueue, bind, Date_now_toISOString, ret in H.
        injection H as <- <-. simpl. rewrite Hp. simpl. rewrite Hb.
        by eexists.
  - destruct (read_again reviewDir JSON_parse w queue w1 H Hne) as (Hr & _).
    exists queue. unfold exec. by rewrite Hr.
Qed.

(** X1. A [write] that returns keeps one earlier generation and leaves
    no temporary file: the primary file holds the text of the document
    stamped with the time of the write, the backup holds what the primary
    file held before (and is left alone when there was no primary file),
    the temporary file is gone, and no other file is touched.  The file
    operations of the embedding fail on a missing file only, so the copy to
    the backup, whose failure [write] ignores, is one that succeeds. *)
Theorem write_keeps_previous_generation queue w :
  eval (write reviewDir JSON_stringify queue) w = Return tt →
  let w' := exec (write reviewDir JSON_stringify queue) w in
  files w' !! primary =
    Some (JSON_stringify (Queue.set_lastUpdated (clock w (ticks w)) queue)) ∧
  files w' !! backup =
    match files w !! primary with
    | Some old => Some old
    | None => files w !! backup
    end ∧
  files w' !! tmp = None ∧
  (∀ path, path ≠ primary → path ≠ backup → path ≠ tmp →
           files w' !! path = files w !! path) ∧
  ticks w' = S (ticks w).
Proof.
  intros _ w'. unfold w', exec. rewrite write_cases. simpl.
  split_and!; [| | | |done].
  - apply written_primary.
  - apply written_backup.
  - apply written_tmp.
  - apply written_other.
Qed.

Hypothesis JSON_roundtrip : ∀ q, JSON_parse (JSON_stringify q) = Some q.

Lemma document_written queue w c t :
  document JSON_parse
    {| files := written reviewDir JSON_stringify queue w; clock := c;
       ticks := t |} primary =
    Some (Queue.set_lastUpdated (clock w (ticks w)) queue).
Proof.
  unfold document. simpl. rewrite written_primary. simpl. apply JSON_roundtrip.
Qed.

Lemma read_after_write queue w :
  let w' := exec (write reviewDir JSON_stringify queue) w in
  read reviewDir JSON_parse w' =
    (Return (Queue.set_lastUpdated (clock w (ticks w)) queue), w').
Proof.
  intros w'. apply read_document. unfold w', exec. rewrite write_cases. simpl.
  apply document_written.
Qed.

(** X2. [addTask] with a valid screenshot returns a new pending task: it
    carries the given id, the properties of the input, the time of creation
    as both time stamps, and no notes, files or attempts.  The decoded
    screenshot is on disk under the id, and the document now holds the
    earlier tasks in their order followed by the new one. *)
Theorem addTask_appends_pending_task uuid input w :
  isValidPngBase64 Buffer_from_base64 (CreateTaskInput.screenshot input) = true →
  let add :=
    addTask reviewDir JSON_stringify JSON_parse Buffer_from_base64 uuid input in
  let w1 := exec (read reviewDir JSON_parse) w in
  let now := clock w1 (ticks w1) in
  ∃ queue task,
    eval (read reviewDir JSON_parse) w = Return queue ∧
    eval add w = Return task ∧
    Task.id task = uuid ∧
    Task.status task = "pending" ∧
    Task.createdAt task = now ∧
    Task.updatedAt task = now ∧
    Task.url task = CreateTaskInput.url input ∧
    Task.type task = CreateTaskInput.type input ∧
    Task.note task = CreateTaskInput.note input ∧
    Task.category task = CreateTaskInput.category input ∧
    Task.priority task = CreateTaskInput.priority input ∧
    Task.element task = CreateTaskInput.element input ∧
    Task.page task = CreateTaskInput.page input ∧
    Task.region task = CreateTaskInput.region input ∧
    Task.screenshotPath task = ".review/screenshots/" +:+ uuid +:+ ".png" ∧
    Task.agentNotes task = "" ∧
    Task.filesModified task = [] ∧
    Task.afterScreenshot task = None ∧
    Task.attempts task = [] ∧
    files (exec add w) !! shot (uuid +:+ ".png") =
      Some (Buffer_from_base64 (CreateTaskInput.screenshot input)) ∧
    Queue.items <$> document JSON_parse (exec add w) primary =
      Some (Queue.items queue ++ [task]).
Proof.
  intros Hpng add w1 now. subst add w1 now. unfold eval, exec.
  rewrite addTask_cases, Hpng.
  destruct (read_total w) as (queue & w0 & Hr). rewrite Hr. simpl.
  eexists queue, _.
  split_and!; try reflexivity.
  - rewrite written_other;
      [cbn [files]; by rewrite lookup_insert_eq
      |apply shot_queuePath|apply shot_backupPath|apply shot_tmpPath].
  - by rewrite document_written.
Qed.

(** X3. A task that [addTask] created under an id that no stored task has
    is what [getTask] returns for that id afterwards, and what [getTask]
    returns for any other id is what it returned before. *)
Theorem addTask_then_getTask uuid input w queue :
  isValidPngBase64 Buffer_from_base64 (CreateTaskInput.screenshot input) = true →
  eval (read reviewDir JSON_parse) w = Return queue →
  Forall (λ t, Task.id t ≠ uuid) (Queue.items queue) →
  let add :=
    addTask reviewDir JSON_stringify JSON_parse Buffer_from_base64 uuid input in
  ∃ task,
    eval add w = Return task ∧
    eval (getTask reviewDir JSON_parse uuid) (exec add w) = Return (Some task) ∧
    ∀ id, id ≠ uuid →
      eval (getTask reviewDir JSON_parse id) (exec add w) =
      eval (getTask reviewDir JSON_parse id) w.
Proof.
  intros Hpng Hq Hfresh add. unfold add, eval, exec in *.
  rewrite addTask_cases, Hpng.
  destruct (read reviewDir JSON_parse w) as [r w1] eqn:Hr.
  simpl in Hq. subst r. simpl.
  eexists. split; [reflexivity|].
  split.
  - erewrite getTask_document by apply document_written. simpl.
    rewrite list_find_snoc.
    destruct (list_find _ (Queue.items queue)) as [[i t]|] eqn:Hf.
    + apply list_find_Some in Hf as (Hi & Ht & _).
      rewrite Forall_lookup in Hfresh. by destruct (Hfresh i t Hi).
    + simpl. by rewrite decide_True.
  - intros id Hid.
    erewrite getTask_document by apply document_written. simpl.
    rewrite getTask_cases, Hr. simpl.
    rewrite list_find_snoc.
    destruct (list_find _ (Queue.items queue)) as [[i t]|]; [done|].
    simpl. by rewrite decide_False by (simpl; congruence).
Qed.

Lemma deleteTask_cases id w :
  deleteTask reviewDir JSON_stringify JSON_parse id w =
    let '(r, w1) := read reviewDir JSON_parse w in
    match r with
    | Throw e => (Throw e, w1)
    | Return queue =>
        match list_find (λ t, Task.id t = id) (Queue.items queue) with
        | None => (Return false, w1)
        | Some _ =>
            (Return true,
             {| files :=
                  written reviewDir JSON_stringify
                    (Queue.set_items
                       (filter (λ t, Task.id t ≠ id) (Queue.items queue))
                       queue) w1;
                clock := clock w1; ticks := S (ticks w1) |})
        end
    end.
Proof.
  unfold deleteTask. unfold bind at 1.
  destruct (read reviewDir JSON_parse w) as [[queue|e] w1]; [|done].
  destruct (list_find _ _); [|done].
  unfold bind, ret. by rewrite write_cases.
Qed.

(** X4. [deleteTask] of a stored task returns true and writes the document
    without every task of that id, the other tasks in their order: [getTask]
    then finds nothing under the id, and finds under any other id what it
    found before. *)
Theorem deleteTask_removes_the_task id w task :
  eval (getTask reviewDir JSON_parse id) w = Return (Some task) →
  let del := deleteTask reviewDir JSON_stringify JSON_parse id in
  ∃ queue,
    eval (read reviewDir JSON_parse) w = Return queue ∧
    eval del w = Return true ∧
    Queue.items <$> document JSON_parse (exec del w) primary =
      Some (filter (λ t, Task.id t ≠ id) (Queue.items queue)) ∧
    eval (getTask reviewDir JSON_parse id) (exec del w) = Return None ∧
    ∀ id', id' ≠ id →
      eval (getTask reviewDir JSON_parse id') (exec del w) =
      eval (getTask reviewDir JSON_parse id') w.
Proof.
  intros Hget del. subst del. unfold eval, exec in *.
  rewrite getTask_cases in Hget. rewrite deleteTask_cases.
  destruct (read reviewDir JSON_parse w) as [[queue|e] w1] eqn:Hr;
    [|discriminate Hget].
  simpl in Hget.
  destruct (list_find _ (Queue.items queue)) as [[i t]|] eqn:Hf;
    [|discriminate Hget].
  exists queue. simpl. split_and!; [done|done| | |].
  - by rewrite document_written.
  - erewrite getTask_document by apply document_written. simpl.
    replace (list_find _ _) with (@None (nat * Task.t)); [done|].
    symmetry. apply list_find_None, list.Forall_forall.
    by intros x [Hx _]%list_elem_of_filter.
  - intros id' Hid.
    erewrite getTask_document by apply document_written. simpl.
    rewrite getTask_cases, Hr. simpl.
    by rewrite list_find_filter_other.
Qed.

(** X5. [cleanupScreenshots] never throws, whether the files exist or not;
    afterwards neither the screenshot of the task nor its after-screenshot
    is on disk, and every other file, the queue and its backup among them,
    is as it was. *)
Theorem cleanupScreenshots_removes_both taskId w :
  let clean := cleanupScreenshots reviewDir taskId in
  let w' := exec clean w in
  eval clean w = Return tt ∧
  files w' !! shot (taskId +:+ ".png") = None ∧
  files w' !! shot (taskId +:+ "-after.png") = None ∧
  (∀ path, path ≠ shot (taskId +:+ ".png") →
           path ≠ shot (taskId +:+ "-after.png") →
           files w' !! path = files w !! path) ∧
  files w' !! primary = files w !! primary ∧
  files w' !! backup = files w !! backup ∧
  ticks w' = ticks w.
Proof.
  intros clean w'.
  assert (H : clean w =
    (Return tt,
     with_files
       (delete (shot (taskId +:+ "-after.png"))
          (delete (shot (taskId +:+ ".png")) (files w))) w)).
  { unfold clean, cleanupScreenshots, for_of, bind.
    rewrite !try_unlink. by destruct w. }
  unfold w', eval, exec. rewrite H. simpl.
  assert (Hother : ∀ path, path ≠ shot (taskId +:+ ".png") →
            path ≠ shot (taskId +:+ "-after.png") →
            delete (shot (taskId +:+ "-after.png"))
              (delete (shot (taskId +:+ ".png")) (files w)) !! path =
            files w !! path).
  { intros path H1 H2. by rewrite !lookup_delete_ne. }
  split_and!; [done| | |exact Hother| | |done].
  - apply lookup_delete_None. right. apply lookup_delete_eq.
  - apply lookup_delete_eq.
  - apply Hother; apply not_eq_sym, shot_queuePath.
  - apply Hother; apply not_eq_sym, shot_backupPath.
Qed.

Lemma getStatus_cases w :
  getStatus reviewDir JSON_parse w =
    let '(r, w1) := read reviewDir JSON_parse w in
    (match r with
     | Return queue =>
         let count (status : string) :=
           length (filter (λ t, Task.status t = status) (Queue.items queue)) in
         Return {| Status.totalItems := length (Queue.items queue);
                   Status.pending := count "pending";
                   Status.inProgress := count "in_progress";
                   Status.review := count "review";
                   Status.done := count "done" |}
     | Throw e => Throw e
     end, w1).
Proof.
  unfold getStatus, bind.
  by destruct (read reviewDir JSON_parse w) as [[queue|e] w1].
Qed.

(** X6. The four counts of [getStatus] are disjoint: they add up to the
    number of tasks whose status is one of the four states, so to at most
    the total, and to the total when every task has such a status.  The
    call has no other effect than the [read] it makes. *)
Theorem getStatus_counts_add_up w :
  ∃ queue status,
    eval (read reviewDir JSON_parse) w = Return queue ∧
    eval (getStatus reviewDir JSON_parse) w = Return status ∧
    exec (getStatus reviewDir JSON_parse) w = exec (read reviewDir JSON_parse) w ∧
    Status.totalItems status = length (Queue.items queue) ∧
    (Status.pending status + Status.inProgress status +
     Status.review status + Status.done status =
     length (filter (λ t, Task.status t ∈ VALID_STATUSES) (Queue.items queue)))%nat ∧
    (Status.pending status + Status.inProgress status +
     Status.review status + Status.done status ≤ Status.totalItems status)%nat ∧
    (Forall (λ t, Task.status t ∈ VALID_STATUSES) (Queue.items queue) →
     (Status.pending status + Status.inProgress status +
      Status.review status + Status.done status = Status.totalItems status)%nat).
Proof.
  unfold eval, exec. rewrite getStatus_cases.
  destruct (read_total w) as (queue & w1 & Hr). rewrite Hr. simpl.
  eexists queue, _. split_and!; try reflexivity.
  - cbn [Status.pending Status.inProgress Status.review Status.done].
    apply count_statuses.
  - cbn [Status.pending Status.inProgress Status.review Status.done
         Status.totalItems].
    rewrite count_statuses. apply length_filter.
  - intros Hall.
    cbn [Status.pending Status.inProgress Status.review Status.done
         Status.totalItems].
    rewrite count_statuses. f_equal.
    clear Hr. induction Hall as [|t l Ht Hl IH]; [done|].
    rewrite filter_cons, decide_True by done. by rewrite IH.
Qed.

Lemma saveAfterScreenshot_cases id png w :
  saveAfterScreenshot reviewDir JSON_stringify JSON_parse Buffer_from_base64
    id png w =
    if isValidPngBase64 Buffer_from_base64 png then
      let '(r, w1) := read reviewDir JSON_parse w in
      match r with
      | Throw e => (Throw e, w1)
      | Return queue =>
          match list_find (λ t, Task.id t = id) (Queue.items queue) with
          | None => (Return None, w1)
          | Some (index, task) =>
              let task' :=
                Task.set_updatedAt (clock w1 (ticks w1))
                  (Task.set_afterScreenshot
                     (Some (".review/screenshots/" +:+ (id +:+ "-after.png")))
                     task) in
              let w2 :=
                {| files :=
                     <[shot (id +:+ "-after.png") := Buffer_from_base64 png]>
                       (files w1);
                   clock := clock w1; ticks := S (ticks w1) |} in
              (Return (Some task'),
               {| files :=
                    written reviewDir JSON_stringify
                      (Queue.set_items
                         (<[index := task']> (Queue.items queue)) queue) w2;
                  clock := clock w1; ticks := S (S (ticks w1)) |})
          end
      end
    else
      (Throw (Error "Invalid screenshot: not a valid base64-encoded PNG"), w).
Proof.
  unfold saveAfterScreenshot.
  destruct (isValidPngBase64 _ _); simpl; [|done].
  unfold bind at 1.
  destruct (read reviewDir JSON_parse w) as [[queue|e] w1]; [|done].
  destruct (list_find _ _) as [[index task]|]; [|done].
  unfold bind, Date_now_toISOString, writeFile, ret, with_files. simpl.
  by rewrite write_cases.
Qed.

(** X7. An id that no stored task has makes every operation on a single
    task a no-op: [getTask], [updateTask] and [saveAfterScreenshot] return
    null and [deleteTask] returns false, nothing is written beyond what the
    [read] they start with does, and [updateTask] does so even when the
    payload carries an invalid status, since it looks the task up first. *)
Theorem unknown_id_is_a_no_op id w queue :
  eval (read reviewDir JSON_parse) w = Return queue →
  Forall (λ t, Task.id t ≠ id) (Queue.items queue) →
  let w1 := exec (read reviewDir JSON_parse) w in
  getTask reviewDir JSON_parse id w = (Return None, w1) ∧
  (∀ updates,
     updateTask reviewDir JSON_stringify JSON_parse id updates w =
       (Return None, w1)) ∧
  deleteTask reviewDir JSON_stringify JSON_parse id w = (Return false, w1) ∧
  (∀ png,
     isValidPngBase64 Buffer_from_base64 png = true →
     saveAfterScreenshot reviewDir JSON_stringify JSON_parse
       Buffer_from_base64 id png w = (Return None, w1)).
Proof.
  intros Hq Hall w1. subst w1. unfold eval, exec in *.
  assert (Hf : list_find (λ t, Task.id t = id) (Queue.items queue) = None).
  { by apply list_find_None. }
  destruct (read reviewDir JSON_parse w) as [r w1] eqn:Hr.
  simpl in Hq. subst r. simpl.
  split_and!.
  - by rewrite getTask_cases, Hr, Hf.
  - intros updates. by rewrite updateTask_cases, Hr, Hf.
  - by rewrite deleteTask_cases, Hr, Hf.
  - intros png Hpng. by rewrite saveAfterScreenshot_cases, Hpng, Hr, Hf.
Qed.

(** X8. The only file that [read] ever changes is the primary file, and
    only to repair it: when the primary file holds a document, [read]
    changes nothing at all; when [read] changes the primary file, that file
    held no document, the backup holds one, and the primary file now has the
    text of the backup. *)
Theorem read_only_repairs_primary w :
  let w' := exec (read reviewDir JSON_parse) w in
  (∀ path, path ≠ primary → files w' !! path = files w !! path) ∧
  (is_Some (document JSON_parse w primary) → w' = w) ∧
  (files w' !! primary ≠ files w !! primary →
   document JSON_parse w primary = None ∧
   is_Some (document JSON_parse w backup) ∧
   files w' !! primary = files w !! backup).
Proof.
  intros w'. subst w'. unfold exec. rewrite read_cases.
  destruct (document JSON_parse w primary) as [q|] eqn:Hp; simpl.
  { split_and!; [done|done|]. intros H. by destruct H. }
  unfold document.
  destruct (files w !! backup) as [b|] eqn:Hb; simpl.
  - destruct (JSON_parse b) as [q|] eqn:Hq; simpl.
    + split_and!.
      * intros path Hpath. by rewrite lookup_insert_ne.
      * by intros [? ?].
      * intros _. split_and!; [done|by eexists|].
        by rewrite lookup_insert_eq.
    + split_and!; [done|by intros [? ?]|]. intros H. by destruct H.
  - split_and!; [done|by intros [? ?]|]. intros H. by destruct H.
Qed.

Local Abbreviation leaves := (items_after reviewDir JSON_parse).

Lemma items_after_read w queue :
  eval (read reviewDir JSON_parse) w = Return queue →
  leaves (exec (read reviewDir JSON_parse) w) (Queue.items queue).
Proof.
  unfold eval, exec. intros Hq q' Hq'.
  destruct (read reviewDir JSON_parse w) as [r w1] eqn:Hr.
  simpl in *. subst r.
  destruct (read_items_again w queue w1 Hr) as (q2 & H2 & Hitems).
  unfold eval in Hq'. rewrite H2 in Hq'. simpl in Hq'.
  by injection Hq' as <-.
Qed.

Lemma items_after_written queue w c t :
  leaves
    {| files := written reviewDir JSON_stringify queue w; clock := c;
       ticks := t |} (Queue.items queue).
Proof.
  intros q' Hq'. unfold eval in Hq'.
  erewrite read_document in Hq' by apply document_written.
  simpl in Hq'. by injection Hq' as <-.
Qed.

(** What each operation leaves for the next [read], given what [read]
    returned to it. *)
Lemma addTask_items uuid input w queue :
  eval (read reviewDir JSON_parse) w = Return queue →
  let add :=
    addTask reviewDir JSON_stringify JSON_parse Buffer_from_base64 uuid input in
  leaves (exec add w) (Queue.items queue) ∨
  ∃ task, Task.id task = uuid ∧ Task.status task = "pending" ∧
          leaves (exec add w) (Queue.items queue ++ [task]).
Proof.
  intros Hq add. subst add. unfold exec. rewrite addTask_cases.
  destruct (isValidPngBase64 _ _).
  - right. unfold eval in Hq.
    destruct (read reviewDir JSON_parse w) as [r w1] eqn:Hr.
    simpl in Hq. subst r. simpl.
    eexists. split_and!; [| |apply (items_after_written (Queue.set_items _ queue))]; done.
  - left. simpl. intros q' Hq'. congruence.
Qed.

Lemma updateTask_items id updates w queue :
  eval (read reviewDir JSON_parse) w = Return queue →
  let update := updateTask reviewDir JSON_stringify JSON_parse id updates in
  leaves (exec update w) (Queue.items queue) ∨
  ∃ index task task',
    Queue.items queue !! index = Some task ∧
    Task.id task' = Task.id task ∧
    (Task.status task' = Task.status task ∨
     Task.status task' ∈ VALID_STATUSES) ∧
    leaves (exec update w) (<[index := task']> (Queue.items queue)).
Proof.
  intros Hq update. subst update. unfold exec. rewrite updateTask_cases.
  pose proof (items_after_read w queue Hq) as Hread.
  unfold eval, exec in Hq, Hread.
  destruct (read reviewDir JSON_parse w) as [r w1] eqn:Hr.
  simpl in Hq, Hread. subst r.
  destruct (list_find _ _) as [[index task]|] eqn:Hf; [|by left].
  apply list_find_Some in Hf as (Hi & _ & _).
  destruct (get_status updates) as [s|] eqn:Hs.
  - destruct (Set_has VALID_STATUSES s) eqn:Hv; [|by left].
    right. simpl. eexists index, task, _.
    split_and!; [done| | |apply (items_after_written (Queue.set_items _ queue))].
    + simpl. apply Object_assign_id, list.Forall_forall.
      by intros p [Hp _]%list_elem_of_filter.
    + right. simpl.
      rewrite Object_assign_status, get_status_filter, Hs. simpl.
      by apply bool_decide_eq_true in Hv.
  - right. simpl. eexists index, task, _.
    split_and!; [done| | |apply (items_after_written (Queue.set_items _ queue))].
    + simpl. apply Object_assign_id, list.Forall_forall.
      by intros p [Hp _]%list_elem_of_filter.
    + left. simpl.
      by rewrite Object_assign_status, get_status_filter, Hs.
Qed.

Lemma deleteTask_items id w queue :
  eval (read reviewDir JSON_parse) w = Return queue →
  let del := deleteTask reviewDir JSON_stringify JSON_parse id in
  leaves (exec del w) (Queue.items queue) ∨
  leaves (exec del w) (filter (λ t, Task.id t ≠ id) (Queue.items queue)).
Proof.
  intros Hq del. subst del. unfold exec. rewrite deleteTask_cases.
  pose proof (items_after_read w queue Hq) as Hread.
  unfold eval, exec in Hq, Hread.
  destruct (read reviewDir JSON_parse w) as [r w1] eqn:Hr.
  simpl in Hq, Hread. subst r.
  destruct (list_find _ _) as [[index task]|] eqn:Hf; [|by left].
  right. simpl.
  apply (items_after_written (Queue.set_items _ queue)).
Qed.

Lemma saveAfterScreenshot_items id png w queue :
  eval (read reviewDir JSON_parse) w = Return queue →
  let save :=
    saveAfterScreenshot reviewDir JSON_stringify JSON_parse Buffer_from_base64
      id png in
  leaves (exec save w) (Queue.items queue) ∨
  ∃ index task task',
    Queue.items queue !! index = Some task ∧
    Task.id task' = Task.id task ∧
    Task.status task' = Task.status task ∧
    leaves (exec save w) (<[index := task']> (Queue.items queue)).
Proof.
  intros Hq save. subst save. unfold exec. rewrite saveAfterScreenshot_cases.
  destruct (isValidPngBase64 _ _).
  2:{ left. simpl. intros q' Hq'. congruence. }
  pose proof (items_after_read w queue Hq) as Hread.
  unfold eval, exec in Hq, Hread.
  destruct (read reviewDir JSON_parse w) as [r w1] eqn:Hr.
  simpl in Hq, Hread. subst r.
  destruct (list_find _ _) as [[index task]|] eqn:Hf; [|by left].
  apply list_find_Some in Hf as (Hi & _ & _).
  right. simpl. eexists index, task, _.
  split_and!; [done| | |apply (items_after_written (Queue.set_items _ queue))]; done.
Qed.

Lemma read_value w :
  ∃ queue, eval (read reviewDir JSON_parse) w = Return queue.
Proof. apply read_returns. Qed.

(** X9. The store keeps the status of every task within the four states:
    when every task that [read] returns has such a status, the same holds
    after [addTask], [updateTask], [deleteTask] and [saveAfterScreenshot],
    whatever their arguments are and whether they return or throw. *)
Theorem store_keeps_statuses_valid w :
  statuses_valid reviewDir JSON_parse w →
  (∀ uuid input,
     statuses_valid reviewDir JSON_parse
       (exec (addTask reviewDir JSON_stringify JSON_parse Buffer_from_base64
                uuid input) w)) ∧
  (∀ id updates,
     statuses_valid reviewDir JSON_parse
       (exec (updateTask reviewDir JSON_stringify JSON_parse id updates) w)) ∧
  (∀ id,
     statuses_valid reviewDir JSON_parse
       (exec (deleteTask reviewDir JSON_stringify JSON_parse id) w)) ∧
  (∀ id png,
     statuses_valid reviewDir JSON_parse
       (exec (saveAfterScreenshot reviewDir JSON_stringify JSON_parse
                Buffer_from_base64 id png) w)).
Proof.
  intros Hvalid. destruct (read_value w) as [queue Hq].
  specialize (Hvalid queue Hq).
  split_and!.
  - intros uuid input q' Hq'.
    destruct (addTask_items uuid input w queue Hq) as [H|(task & _ & Hs & H)];
      rewrite (H q' Hq'); [done|].
    apply Forall_app. split; [done|].
    apply Forall_singleton, VALID_STATUSES_elem. by left.
  - intros id updates q' Hq'.
    destruct (updateTask_items id updates w queue Hq)
      as [H|(index & task & task' & Hi & _ & Hs & H)];
      rewrite (H q' Hq'); [done|].
    apply Forall_insert; [done|].
    destruct Hs as [->|Hs]; [|done].
    by apply (Forall_lookup_1 _ _ _ _ Hvalid Hi).
  - intros id q' Hq'.
    destruct (deleteTask_items id w queue Hq) as [H|H];
      rewrite (H q' Hq'); [done|].
    apply list.Forall_forall. intros x [_ Hx]%list_elem_of_filter.
    by apply (proj1 (list.Forall_forall _ _) Hvalid).
  - intros id png q' Hq'.
    destruct (saveAfterScreenshot_items id png w queue Hq)
      as [H|(index & task & task' & Hi & _ & Hs & H)];
      rewrite (H q' Hq'); [done|].
    apply Forall_insert; [done|]. rewrite Hs.
    by apply (Forall_lookup_1 _ _ _ _ Hvalid Hi).
Qed.

(** X10. The store keeps the ids of the tasks distinct: when no two tasks
    that [read] returns share an id, the same holds after [updateTask],
    [deleteTask] and [saveAfterScreenshot], and after [addTask] with an id
    that no stored task has. *)
Theorem store_keeps_ids_unique w queue :
  eval (read reviewDir JSON_parse) w = Return queue →
  NoDup (Task.id <$> Queue.items queue) →
  (∀ uuid input,
     uuid ∉ Task.id <$> Queue.items queue →
     ids_unique reviewDir JSON_parse
       (exec (addTask reviewDir JSON_stringify JSON_parse Buffer_from_base64
                uuid input) w)) ∧
  (∀ id updates,
     ids_unique reviewDir JSON_parse
       (exec (updateTask reviewDir JSON_stringify JSON_parse id updates) w)) ∧
  (∀ id,
     ids_unique reviewDir JSON_parse
       (exec (deleteTask reviewDir JSON_stringify JSON_parse id) w)) ∧
  (∀ id png,
     ids_unique reviewDir JSON_parse
       (exec (saveAfterScreenshot reviewDir JSON_stringify JSON_parse
                Buffer_from_base64 id png) w)).
Proof.
  intros Hq Hnodup.
  split_and!.
  - intros uuid input Hfresh q' Hq'.
    destruct (addTask_items uuid input w queue Hq) as [H|(task & Hid & _ & H)];
      rewrite (H q' Hq'); [done|].
    rewrite fmap_app. simpl. rewrite Hid.
    apply list.NoDup_app. split_and!; [done| |apply list.NoDup_singleton].
    intros x Hx Hx'%list_elem_of_singleton. by subst x.
  - intros id updates q' Hq'.
    destruct (updateTask_items id updates w queue Hq)
      as [H|(index & task & task' & Hi & Hid & _ & H)];
      rewrite (H q' Hq'); [done|].
    by rewrite (fmap_id_insert _ _ task).
  - intros id q' Hq'.
    destruct (deleteTask_items id w queue Hq) as [H|H];
      rewrite (H q' Hq'); [done|].
    apply (list.NoDup_fmap_2_strong Task.id).
    + intros x y Hx%list_elem_of_filter Hy%list_elem_of_filter Hxy.
      destruct Hx as [_ Hx], Hy as [_ Hy].
      apply list_elem_of_lookup in Hx as [i Hi], Hy as [j Hj].
      assert (i = j) as ->.
      { apply (list.NoDup_lookup _ i j (Task.id x) Hnodup);
          rewrite list_lookup_fmap; [by rewrite Hi|by rewrite Hj, Hxy]. }
      congruence.
    + apply list.NoDup_filter. by apply list.NoDup_fmap_1 in Hnodup.
  - intros id png q' Hq'.
    destruct (saveAfterScreenshot_items id png w queue Hq)
      as [H|(index & task & task' & Hi & Hid & _ & H)];
      rewrite (H q' Hq'); [done|].
    by rewrite (fmap_id_insert _ _ task).
Qed.


(** X11. What [updateTask] returns for a stored task carries the status of
    the payload, which is then one of the four states, or the status that
    the task had when the payload has none; its [updatedAt] is the time of
    the call, whatever the payload says. *)
Theorem updateTask_sets_status_and_stamp id updates w task' :
  eval (updateTask reviewDir JSON_stringify JSON_parse id updates) w =
    Return (Some task') →
  let w1 := exec (read reviewDir JSON_parse) w in
  ∃ task,
    eval (getTask reviewDir JSON_parse id) w = Return (Some task) ∧
    Task.status task' = default (Task.status task) (get_status updates) ∧
    (∀ s, get_status updates = Some s → s ∈ VALID_STATUSES) ∧
    Task.updatedAt task' = clock w1 (ticks w1).
Proof.
  intros Hupdate w1. subst w1. unfold eval, exec in *.
  rewrite updateTask_cases in Hupdate. rewrite getTask_cases.
  destruct (read reviewDir JSON_parse w) as [[queue|e] w1];
    [|discriminate Hupdate].
  destruct (list_find _ _) as [[index task]|]; [|discriminate Hupdate].
  exists task. simpl. split; [done|].
  destruct (get_status updates) as [s|] eqn:Hs.
  - destruct (Set_has VALID_STATUSES s) eqn:Hv; [|discriminate Hupdate].
    injection Hupdate as <-. simpl.
    rewrite Object_assign_status, get_status_filter, Hs.
    split_and!; [done| |done].
    intros s' [= <-]. by apply bool_decide_eq_true in Hv.
  - injection Hupdate as <-. simpl.
    by rewrite Object_assign_status, get_status_filter, Hs.
Qed.

End StoreTasks.

(** ** The server: what each route answers, stores and broadcasts *)

Lemma delivered_nil s s' : sseClients s' = sseClients s → delivered [] s s'.
Proof.
  unfold delivered. intros ->. symmetry.
  rewrite <- (map_fmap_id (sseClients s)) at 2.
  apply map_fmap_ext. intros i out _. apply app_nil_r.
Qed.

Lemma fmap_snoc_snoc (m1 m2 : Message) (clients : gmap nat (list Message)) :
  (λ out, out ++ [m2]) <$> ((λ out, out ++ [m1]) <$> clients) =
  (λ out, out ++ [m1; m2]) <$> clients.
Proof.
  rewrite <- map_fmap_compose. apply map_fmap_ext.
  intros i out _. simpl. by rewrite <- app_assoc.
Qed.

Section Api.
Variable reviewDir : string.
Variable JSON_stringify : Queue.t → string.
Variable JSON_parse : string → option Queue.t.
Variable Buffer_from_base64 : string → string.

Local Abbreviation primary := (queuePath reviewDir).

Lemma put_task_cases id updates s :
  put_task reviewDir JSON_stringify JSON_parse id updates s =
    match
      match get_status updates with
      | Some st => if Set_has VALID_STATUSES st then None else Some st
      | None => None
      end
    with
    | Some st =>
        ({| statusCode := 400; json := J_error (invalid_status_message st) |}, s)
    | None =>
        let '(r, w1) :=
          updateTask reviewDir JSON_stringify JSON_parse id updates (world s) in
        match r with
        | Return (Some t) =>
            ({| statusCode := 200; json := J_task t |},
             {| world := w1;
                taskActivity :=
                  if String.eqb (Task.status t) "in_progress"
                  then taskActivity s else delete id (taskActivity s);
                sseClients :=
                  (λ out, out ++ [{| event := "task_updated";
                                    data := J_task t |}]) <$> sseClients s |})
        | Return None =>
            ({| statusCode := 404; json := J_error "Task not found" |},
             {| world := w1; taskActivity := taskActivity s;
                sseClients := sseClients s |})
        | Throw e =>
            ({| statusCode := 500; json := J_error (message e) |},
             {| world := w1; taskActivity := taskActivity s;
                sseClients := sseClients s |})
        end
    end.
Proof.
  unfold put_task, asyncHandler, bind, call, respond, ret, broadcast,
    taskActivity_delete, set_taskActivity.
  destruct (match get_status updates with Some _ => _ | None => _ end);
    [done|].
  destruct (updateTask reviewDir JSON_stringify JSON_parse id updates (world s))
    as [[[t|]|e] w1]; simpl; [|done..].
  by destruct (String.eqb (Task.status t) "in_progress").
Qed.

Lemma post_cancel_cases id s :
  post_cancel reviewDir JSON_stringify JSON_parse id s =
    let '(r, w1) :=
      updateTask reviewDir JSON_stringify JSON_parse id [P_status "done"]
        (world s) in
    match r with
    | Return (Some t) =>
        ({| statusCode := 200; json := J_task t |},
         {| world := w1; taskActivity := delete id (taskActivity s);
            sseClients :=
              (λ out, out ++ [{| event := "task_cancel"; data := J_id id |};
                              {| event := "task_updated"; data := J_task t |}])
                <$> sseClients s |})
    | Return None =>
        ({| statusCode := 404; json := J_error "Task not found" |},
         {| world := w1; taskActivity := taskActivity s;
            sseClients := sseClients s |})
    | Throw e =>
        ({| statusCode := 500; json := J_error (message e) |},
         {| world := w1; taskActivity := taskActivity s;
            sseClients := sseClients s |})
    end.
Proof.
  unfold post_cancel, asyncHandler, bind, call, respond, ret, broadcast,
    taskActivity_delete, set_taskActivity.
  destruct (updateTask reviewDir JSON_stringify JSON_parse id _ (world s))
    as [[[t|]|e] w1]; simpl; [|done..].
  by rewrite fmap_snoc_snoc.
Qed.

Lemma post_after_screenshot_cases id screenshot s :
  post_after_screenshot reviewDir JSON_stringify JSON_parse Buffer_from_base64
    id screenshot s =
    match screenshot with
    | None | Some "" =>
        ({| statusCode := 400; json := J_error "screenshot is required" |}, s)
    | Some png =>
        let '(r, w1) :=
          saveAfterScreenshot reviewDir JSON_stringify JSON_parse
            Buffer_from_base64 id png (world s) in
        match r with
        | Return (Some t) =>
            ({| statusCode := 200; json := J_task t |},
             {| world := w1; taskActivity := taskActivity s;
                sseClients :=
                  (λ out, out ++ [{| event := "task_updated";
                                    data := J_task t |}]) <$> sseClients s |})
        | Return None =>
            ({| statusCode := 404; json := J_error "Task not found" |},
             {| world := w1; taskActivity := taskActivity s;
                sseClients := sseClients s |})
        | Throw e =>
            ({| statusCode := 500; json := J_error (message e) |},
             {| world := w1; taskActivity := taskActivity s;
                sseClients := sseClients s |})
        end
    end.
Proof.
  unfold post_after_screenshot, asyncHandler, bind, call, respond, ret,
    broadcast.
  destruct screenshot as [[|c png]|]; [done| |done].
  by destruct (saveAfterScreenshot _ _ _ _ _ _ _) as [[[t|]|e] w1].
Qed.

Lemma post_activity_cases id type summary s :
  post_activity reviewDir JSON_parse id type summary s =
    let '(r, w1) := getTask reviewDir JSON_parse id (world s) in
    match r with
    | Return (Some _) =>
        if Set_has VALID_ACTIVITY_TYPES (default "" type) then
          let entry :=
            {| ActivityEntry.timestamp := clock w1 (ticks w1);
               ActivityEntry.type := default "" type;
               ActivityEntry.summary := default "" summary |} in
          let entries := default [] (taskActivity s !! id) ++ [entry] in
          ({| statusCode := 200; json := J_entries entries |},
           {| world := {| files := files w1; clock := clock w1;
                          ticks := S (ticks w1) |};
              taskActivity := <[id := entries]> (taskActivity s);
              sseClients :=
                (λ out, out ++ [{| event := "task_activity";
                                  data := J_activity id entry |}])
                  <$> sseClients s |})
        else
          ({| statusCode := 400;
              json :=
                J_error
                  ("Invalid activity type: " +:+ default "undefined" type +:+
                   ". Must be one of: tool_start, tool_end, text, error, result") |},
           {| world := w1; taskActivity := taskActivity s;
              sseClients := sseClients s |})
    | Return None =>
        ({| statusCode := 404; json := J_error "Task not found" |},
         {| world := w1; taskActivity := taskActivity s;
            sseClients := sseClients s |})
    | Throw e =>
        ({| statusCode := 500; json := J_error (message e) |},
         {| world := w1; taskActivity := taskActivity s;
            sseClients := sseClients s |})
    end.
Proof.
  unfold post_activity, asyncHandler, bind at 1, call.
  destruct (getTask reviewDir JSON_parse id (world s)) as [[[t|]|e] w1];
    [|done..].
  destruct (Set_has VALID_ACTIVITY_TYPES (default "" type)); by cbn.
Qed.

Lemma post_task_cases uuid body s :
  post_task reviewDir JSON_stringify JSON_parse Buffer_from_base64 uuid body s =
    match RequestBody.note body, RequestBody.page body with
    | Some note, Some page =>
        if String.eqb note "" then
          ({| statusCode := 400;
              json := J_error "note and page are required" |}, s)
        else
          let input :=
            {| CreateTaskInput.url := RequestBody.url body;
               CreateTaskInput.note := note;
               CreateTaskInput.category := RequestBody.category body;
               CreateTaskInput.priority := RequestBody.priority body;
               CreateTaskInput.type := RequestBody.type body;
               CreateTaskInput.screenshot :=
                 default "" (RequestBody.screenshot body);
               CreateTaskInput.element := RequestBody.element body;
               CreateTaskInput.page := page;
               CreateTaskInput.region := RequestBody.region body |} in
          let '(r, w1) :=
            addTask reviewDir JSON_stringify JSON_parse Buffer_from_base64
              uuid input (world s) in
          match r with
          | Return t =>
              ({| statusCode := 201; json := J_task t |},
               {| world := w1; taskActivity := taskActivity s;
                  sseClients :=
                    (λ out, out ++ [{| event := "task_created";
                                      data := J_task t |}]) <$> sseClients s |})
          | Throw e =>
              ({| statusCode := 500; json := J_error (message e) |},
               {| world := w1; taskActivity := taskActivity s;
                  sseClients := sseClients s |})
          end
    | _, _ =>
        ({| statusCode := 400; json := J_error "note and page are required" |},
         s)
    end.
Proof.
  unfold post_task, asyncHandler, bind, call, respond, ret, broadcast.
  destruct (RequestBody.note body) as [note|]; [|done].
  destruct (RequestBody.page body) as [page|]; [|done].
  destruct (String.eqb note ""); [done|].
  by destruct (addTask _ _ _ _ _ _ _) as [[t|e] w1].
Qed.

Lemma delete_task_cases id s :
  delete_task reviewDir JSON_stringify JSON_parse id s =
    let '(r, w1) :=
      deleteTask reviewDir JSON_stringify JSON_parse id (world s) in
    match r with
    | Return true =>
        ({| statusCode := 200; json := J_ok |},
         {| world := w1; taskActivity := delete id (taskActivity s);
            sseClients :=
              (λ out, out ++ [{| event := "task_deleted"; data := J_id id |}])
                <$> sseClients s |})
    | Return false =>
        ({| statusCode := 404; json := J_error "Task not found" |},
         {| world := w1; taskActivity := taskActivity s;
            sseClients := sseClients s |})
    | Throw e =>
        ({| statusCode := 500; json := J_error (message e) |},
         {| world := w1; taskActivity := taskActivity s;
            sseClients := sseClients s |})
    end.
Proof.
  unfold delete_task, asyncHandler, bind, call, respond, ret, broadcast,
    taskActivity_delete, set_taskActivity.
  by destruct (deleteTask _ _ _ _ _) as [[[|]|e] w1].
Qed.


(** *** Requests that fail *)

Lemma read_world w :
  ∃ queue,
    read reviewDir JSON_parse w =
      (Return queue, exec (read reviewDir JSON_parse) w).
Proof.
  destruct (read_total reviewDir JSON_parse w) as (q & w1 & H).
  exists q. unfold exec. by rewrite H.
Qed.

Lemma getTask_world id w :
  snd (getTask reviewDir JSON_parse id w) = exec (read reviewDir JSON_parse) w ∧
  ∃ r, fst (getTask reviewDir JSON_parse id w) = Return r.
Proof.
  rewrite getTask_cases. destruct (read_world w) as (q & ->).
  split; [done|]. by eexists.
Qed.

Lemma updateTask_fails id updates w :
  (∀ t, eval (updateTask reviewDir JSON_stringify JSON_parse id updates) w ≠
        Return (Some t)) →
  exec (updateTask reviewDir JSON_stringify JSON_parse id updates) w =
    exec (read reviewDir JSON_parse) w.
Proof.
  unfold eval, exec. rewrite updateTask_cases.
  destruct (read_world w) as (q & ->).
  destruct (list_find _ _) as [[i t]|]; [|done].
  destruct (match get_status updates with Some _ => _ | None => _ end);
    [done|].
  simpl. intros H. by destruct (H _ eq_refl).
Qed.

Lemma deleteTask_fails id w :
  eval (deleteTask reviewDir JSON_stringify JSON_parse id) w ≠ Return true →
  exec (deleteTask reviewDir JSON_stringify JSON_parse id) w =
    exec (read reviewDir JSON_parse) w.
Proof.
  unfold eval, exec. rewrite deleteTask_cases.
  destruct (read_world w) as (q & ->).
  by destruct (list_find _ _) as [[i t]|].
Qed.

Lemma saveAfterScreenshot_fails id png w :
  (∀ t, eval (saveAfterScreenshot reviewDir JSON_stringify JSON_parse
                Buffer_from_base64 id png) w ≠ Return (Some t)) →
  let w' :=
    exec (saveAfterScreenshot reviewDir JSON_stringify JSON_parse
            Buffer_from_base64 id png) w in
  w' = w ∨ w' = exec (read reviewDir JSON_parse) w.
Proof.
  unfold eval, exec. rewrite saveAfterScreenshot_cases.
  destruct (isValidPngBase64 _ _); [|by left].
  destruct (read_world w) as (q & ->).
  destruct (list_find _ _) as [[i t]|]; [|by right].
  simpl. intros H. by destruct (H _ eq_refl).
Qed.

Lemma addTask_fails uuid input w e :
  eval (addTask reviewDir JSON_stringify JSON_parse Buffer_from_base64
          uuid input) w = Throw e →
  isValidPngBase64 Buffer_from_base64 (CreateTaskInput.screenshot input) = false ∧
  e = Error "Invalid screenshot: not a valid base64-encoded PNG" ∧
  exec (addTask reviewDir JSON_stringify JSON_parse Buffer_from_base64
          uuid input) w = w.
Proof.
  unfold eval, exec. rewrite addTask_cases.
  destruct (isValidPngBase64 _ _).
  - by destruct (read_world w) as (q & ->).
  - simpl. by intros [= <-].
Qed.

(** X12. A request that is not answered with a success tells the
    subscribers nothing and leaves the activity lists alone, and all it can
    have done to the files is the repair that a [read] makes.  This holds for
    the routes that create, update, delete and cancel a task, that save an
    after-screenshot and that record an activity. *)
Theorem failed_requests_are_silent s :
  let silent (answer : Response * Server) :=
    ¬ succeeded (fst answer) →
    taskActivity (snd answer) = taskActivity s ∧
    sseClients (snd answer) = sseClients s ∧
    (world (snd answer) = world s ∨
     world (snd answer) = exec (read reviewDir JSON_parse) (world s)) in
  (∀ uuid body,
     silent (post_task reviewDir JSON_stringify JSON_parse Buffer_from_base64
               uuid body s)) ∧
  (∀ id updates,
     silent (put_task reviewDir JSON_stringify JSON_parse id updates s)) ∧
  (∀ id, silent (delete_task reviewDir JSON_stringify JSON_parse id s)) ∧
  (∀ id screenshot,
     silent (post_after_screenshot reviewDir JSON_stringify JSON_parse
               Buffer_from_base64 id screenshot s)) ∧
  (∀ id type summary,
     silent (post_activity reviewDir JSON_parse id type summary s)) ∧
  (∀ id, silent (post_cancel reviewDir JSON_stringify JSON_parse id s)).
Proof.
  unfold succeeded. split_and!.
  - intros uuid body. rewrite post_task_cases.
    destruct (RequestBody.note body) as [note|]; [|by auto].
    destruct (RequestBody.page body) as [page|]; [|by auto].
    destruct (String.eqb note ""); [by auto|]. simpl.
    match goal with |- context [addTask ?a ?b ?c ?d ?e ?f ?g] =>
      pose proof (addTask_fails e f g) as Hfail;
      unfold eval, exec in Hfail;
      destruct (addTask a b c d e f g) as [[t|err] w1]
    end; simpl.
    + intros H. destruct H. by right.
    + intros _. destruct (Hfail err eq_refl) as (_ & _ & Hw).
      simpl in Hw. auto.
  - intros id updates. rewrite put_task_cases.
    destruct (match get_status updates with Some _ => _ | None => _ end);
      [by auto|].
    pose proof (updateTask_fails id updates (world s)) as Hfail.
    unfold eval, exec in Hfail.
    destruct (updateTask _ _ _ _ _ _) as [[[t|]|err] w1]; simpl.
    + intros H. destruct H. by left.
    + intros _. split_and!; [done..|]. right. by apply Hfail.
    + intros _. split_and!; [done..|]. right. by apply Hfail.
  - intros id. rewrite delete_task_cases.
    pose proof (deleteTask_fails id (world s)) as Hfail.
    unfold eval, exec in Hfail.
    destruct (deleteTask _ _ _ _ _) as [[[|]|err] w1]; simpl.
    + intros H. destruct H. by left.
    + intros _. split_and!; [done..|]. right. by apply Hfail.
    + intros _. split_and!; [done..|]. right. by apply Hfail.
  - intros id screenshot. rewrite post_after_screenshot_cases.
    destruct screenshot as [[|c png]|]; [by auto| |by auto].
    pose proof (saveAfterScreenshot_fails id (String c png) (world s)) as Hfail.
    unfold eval, exec in Hfail.
    destruct (saveAfterScreenshot _ _ _ _ _ _ _) as [[[t|]|err] w1]; simpl.
    + intros H. destruct H. by left.
    + intros _. split_and!; [done..|]. by apply Hfail.
    + intros _. split_and!; [done..|]. by apply Hfail.
  - intros id type summary. rewrite post_activity_cases.
    destruct (getTask_world id (world s)) as (Hw & _).
    destruct (getTask reviewDir JSON_parse id (world s)) as [[[t|]|err] w1];
      simpl in *; [|by auto..].
    destruct (Set_has _ _); simpl; [|by auto].
    intros H. destruct H. by left.
  - intros id. rewrite post_cancel_cases.
    pose proof (updateTask_fails id [P_status "done"] (world s)) as Hfail.
    unfold eval, exec in Hfail.
    destruct (updateTask _ _ _ _ _ _) as [[[t|]|err] w1]; simpl.
    + intros H. destruct H. by left.
    + intros _. split_and!; [done..|]. right. by apply Hfail.
    + intros _. split_and!; [done..|]. right. by apply Hfail.
Qed.


(** X13. [POST /api/tasks] rejects a body without a note (missing or
    empty) or without a page with 400, and a body whose screenshot is
    missing or is not a PNG in base64 with 500 and the message of
    [addTask]; either way the server is exactly as it was. *)
Theorem post_task_rejects uuid body s :
  let answer :=
    post_task reviewDir JSON_stringify JSON_parse Buffer_from_base64
      uuid body s in
  (RequestBody.note body = None ∨ RequestBody.note body = Some "" ∨
   RequestBody.page body = None →
   answer =
     ({| statusCode := 400; json := J_error "note and page are required" |},
      s)) ∧
  (∀ note page,
     RequestBody.note body = Some note → note ≠ "" →
     RequestBody.page body = Some page →
     isValidPngBase64 Buffer_from_base64
       (default "" (RequestBody.screenshot body)) = false →
     answer =
       ({| statusCode := 500;
           json :=
             J_error "Invalid screenshot: not a valid base64-encoded PNG" |},
        s)) ∧
  (RequestBody.screenshot body = None →
   isValidPngBase64 Buffer_from_base64
     (default "" (RequestBody.screenshot body)) = false).
Proof.
  intros answer. subst answer. rewrite post_task_cases. split_and!.
  - intros [H|[H|H]]; rewrite H; [done| |].
    + by destruct (RequestBody.page body).
    + by destruct (RequestBody.note body).
  - intros note page -> Hnote -> Hpng.
    rewrite (proj2 (String.eqb_neq _ _) Hnote).
    cbv zeta. rewrite addTask_cases. cbn [CreateTaskInput.screenshot].
    rewrite Hpng. by destruct s.
  - by intros ->.
Qed.

Lemma getTask_files id w w' :
  files w = files w' →
  eval (getTask reviewDir JSON_parse id) w =
  eval (getTask reviewDir JSON_parse id) w'.
Proof.
  intros H. unfold eval. rewrite !getTask_cases, !read_cases.
  unfold document. rewrite H.
  destruct (files w' !! primary ≫= JSON_parse); [done|].
  destruct (files w' !! backupPath reviewDir) as [b|]; [|done].
  by destruct (JSON_parse b).
Qed.

Lemma get_task_cases id s :
  fst (get_task reviewDir JSON_parse id s) =
    match eval (getTask reviewDir JSON_parse id) (world s) with
    | Return (Some t) => {| statusCode := 200; json := J_task t |}
    | Return None => {| statusCode := 404; json := J_error "Task not found" |}
    | Throw e => {| statusCode := 500; json := J_error (message e) |}
    end.
Proof.
  unfold get_task, asyncHandler, bind, call, eval, respond, ret.
  by destruct (getTask reviewDir JSON_parse id (world s)) as [[[t|]|e] w1].
Qed.

(** X14. What the subscribers are told of a change: an update and a saved
    after-screenshot send [task_updated] with the task as returned, a
    cancellation sends [task_cancel] with the id and then [task_updated], and
    a recorded activity sends [task_activity] with the entry that was
    appended. *)
Theorem changes_are_announced s id :
  (∀ updates task,
     let answer := put_task reviewDir JSON_stringify JSON_parse id updates s in
     fst answer = {| statusCode := 200; json := J_task task |} →
     delivered [{| event := "task_updated"; data := J_task task |}]
       s (snd answer)) ∧
  (∀ screenshot task,
     let answer :=
       post_after_screenshot reviewDir JSON_stringify JSON_parse
         Buffer_from_base64 id screenshot s in
     fst answer = {| statusCode := 200; json := J_task task |} →
     delivered [{| event := "task_updated"; data := J_task task |}]
       s (snd answer)) ∧
  (∀ task,
     let answer := post_cancel reviewDir JSON_stringify JSON_parse id s in
     fst answer = {| statusCode := 200; json := J_task task |} →
     delivered [{| event := "task_cancel"; data := J_id id |};
                {| event := "task_updated"; data := J_task task |}]
       s (snd answer)) ∧
  (∀ type summary entries,
     let answer := post_activity reviewDir JSON_parse id type summary s in
     fst answer = {| statusCode := 200; json := J_entries entries |} →
     ∃ entry,
       list.last entries = Some entry ∧
       delivered [{| event := "task_activity"; data := J_activity id entry |}]
         s (snd answer)).
Proof.
  unfold delivered. split_and!.
  - intros updates task. cbv zeta. rewrite put_task_cases.
    destruct (match get_status updates with Some _ => _ | None => _ end);
      [done|].
    destruct (updateTask _ _ _ _ _ _) as [[[t|]|err] w1]; simpl; [|done..].
    by intros [= ->].
  - intros screenshot task. cbv zeta. rewrite post_after_screenshot_cases.
    destruct screenshot as [[|c png]|]; [done| |done].
    destruct (saveAfterScreenshot _ _ _ _ _ _ _) as [[[t|]|err] w1]; simpl;
      [|done..].
    by intros [= ->].
  - intros task. cbv zeta. rewrite post_cancel_cases.
    destruct (updateTask _ _ _ _ _ _) as [[[t|]|err] w1]; simpl; [|done..].
    by intros [= ->].
  - intros type summary entries. cbv zeta. rewrite post_activity_cases.
    destruct (getTask reviewDir JSON_parse id (world s)) as [[[t|]|err] w1];
      [|done..].
    destruct (Set_has _ _); simpl; [|done].
    intros [= <-]. eexists. split; [apply last_snoc|done].
Qed.

(** X15. An activity is recorded for a stored task whatever the status of
    the task is: with one of the five kinds of entry the route answers 200
    with the earlier entries followed by the new one, stamped with the
    current time, and the activity route then returns that same list. *)
Theorem post_activity_appends_for_any_status id type summary s task :
  eval (getTask reviewDir JSON_parse id) (world s) = Return (Some task) →
  type ∈ VALID_ACTIVITY_TYPES →
  let w1 := exec (read reviewDir JSON_parse) (world s) in
  let entry :=
    {| ActivityEntry.timestamp := clock w1 (ticks w1);
       ActivityEntry.type := type;
       ActivityEntry.summary := default "" summary |} in
  let entries := default [] (taskActivity s !! id) ++ [entry] in
  let answer := post_activity reviewDir JSON_parse id (Some type) summary s in
  fst answer = {| statusCode := 200; json := J_entries entries |} ∧
  fst (get_activity reviewDir JSON_parse id (snd answer)) =
    {| statusCode := 200; json := J_entries entries |} ∧
  files (world (snd answer)) = files w1.
Proof.
  intros Hget Htype w1 entry entries answer.
  subst answer entries entry w1.
  rewrite post_activity_cases.
  destruct (getTask_world id (world s)) as (Hw & _).
  unfold eval in Hget.
  destruct (getTask reviewDir JSON_parse id (world s)) as [r w1] eqn:Hg.
  simpl in Hget, Hw. subst r w1. cbn [default].
  unfold Set_has. rewrite bool_decide_true by done.
  cbv zeta. cbn [fst snd]. split_and!; [done| |done].
  rewrite get_activity_cases. cbn [world taskActivity].
  rewrite lookup_insert_eq. cbn [default].
  erewrite (getTask_files id _ (exec (read reviewDir JSON_parse) (world s)))
    by done.
  destruct (read_world (world s)) as (q & Hr).
  unfold eval. rewrite getTask_cases in Hg |- *. rewrite Hr in Hg.
  injection Hg as Hg.
  destruct (read_items_again reviewDir JSON_parse _ _ _ Hr) as (q' & -> & Hq').
  simpl. by rewrite Hq', Hg.
Qed.


Hypothesis JSON_roundtrip : ∀ q, JSON_parse (JSON_stringify q) = Some q.

(** X16. [POST /api/tasks] with a note, a page and a valid screenshot
    answers 201 with the new task: pending, under the given id, with the
    note and the page of the body.  Every subscriber is sent [task_created]
    with that task, the activity lists are untouched, and when no stored task
    had the id, [GET /api/tasks/:id] now answers 200 with the task. *)
Theorem post_task_creates_and_announces uuid body s note page png queue :
  RequestBody.note body = Some note → note ≠ "" →
  RequestBody.page body = Some page →
  RequestBody.screenshot body = Some png →
  isValidPngBase64 Buffer_from_base64 png = true →
  eval (read reviewDir JSON_parse) (world s) = Return queue →
  Forall (λ t, Task.id t ≠ uuid) (Queue.items queue) →
  let answer :=
    post_task reviewDir JSON_stringify JSON_parse Buffer_from_base64
      uuid body s in
  ∃ task,
    fst answer = {| statusCode := 201; json := J_task task |} ∧
    Task.id task = uuid ∧
    Task.status task = "pending" ∧
    Task.note task = note ∧
    Task.page task = page ∧
    Task.attempts task = [] ∧
    delivered [{| event := "task_created"; data := J_task task |}]
      s (snd answer) ∧
    taskActivity (snd answer) = taskActivity s ∧
    fst (get_task reviewDir JSON_parse uuid (snd answer)) =
      {| statusCode := 200; json := J_task task |} ∧
    Queue.items <$> document JSON_parse (world (snd answer)) primary =
      Some (Queue.items queue ++ [task]).
Proof.
  intros Hnote Hne Hpage Hshot Hpng Hq Hfresh answer. subst answer.
  rewrite post_task_cases, Hnote, Hpage, Hshot.
  rewrite (proj2 (String.eqb_neq _ _) Hne). cbv zeta. cbn [default].
  match goal with |- context [addTask ?a ?b ?c ?d ?e ?f ?g] =>
    destruct (addTask_appends_pending_task a b c d JSON_roundtrip e f g Hpng)
      as (queue' & task & Hq' & Hadd & Hid & Hstatus & _ & _ & _ & _ & Hn & _ &
          _ & _ & Hp & _ & _ & _ & _ & _ & Hatt & _ & Hdoc);
    destruct (addTask_then_getTask a b c d JSON_roundtrip e f g queue
                Hpng Hq Hfresh) as (task' & Hadd' & Hget & _);
    unfold eval, exec in Hadd, Hadd', Hget, Hdoc;
    destruct (addTask a b c d e f g) as [r w1]
  end.
  simpl in Hadd, Hadd', Hget, Hdoc. subst r. injection Hadd' as <-.
  rewrite Hq in Hq'. injection Hq' as Hq'.
  exists task. cbn [fst snd world taskActivity sseClients].
  split_and!; try done.
  - rewrite get_task_cases. unfold eval. cbn [world]. by rewrite Hget.
  - by rewrite Hdoc, Hq'.
Qed.

(** X17. [DELETE /api/tasks/:id] of a stored task answers 200, sends
    [task_deleted] with the id to every subscriber and drops the activity
    list of the task.  From then on the task is gone: the task route, the
    activity route and a second [DELETE] all answer 404 for the id. *)
Theorem delete_task_forgets_the_task id s task :
  eval (getTask reviewDir JSON_parse id) (world s) = Return (Some task) →
  let answer := delete_task reviewDir JSON_stringify JSON_parse id s in
  let gone := {| statusCode := 404; json := J_error "Task not found" |} in
  fst answer = {| statusCode := 200; json := J_ok |} ∧
  delivered [{| event := "task_deleted"; data := J_id id |}] s (snd answer) ∧
  taskActivity (snd answer) = delete id (taskActivity s) ∧
  fst (get_task reviewDir JSON_parse id (snd answer)) = gone ∧
  fst (get_activity reviewDir JSON_parse id (snd answer)) = gone ∧
  fst (delete_task reviewDir JSON_stringify JSON_parse id (snd answer)) = gone.
Proof.
  intros Hget answer gone. subst answer gone.
  destruct (deleteTask_removes_the_task reviewDir JSON_stringify JSON_parse
              JSON_roundtrip id (world s) task Hget)
    as (queue & Hq & Hdel & Hdoc & Hnone & _).
  rewrite delete_task_cases.
  unfold eval, exec in Hdel, Hdoc, Hnone.
  destruct (deleteTask _ _ _ _ _) as [r w1]. simpl in Hdel, Hdoc, Hnone.
  subst r. cbn [fst snd world taskActivity sseClients].
  split_and!; [done|done|done| | |].
  - rewrite get_task_cases. unfold eval. cbn [world]. by rewrite Hnone.
  - rewrite get_activity_cases. unfold eval. cbn [world]. by rewrite Hnone.
  - rewrite delete_task_cases. cbn [world].
    rewrite deleteTask_cases.
    destruct (document JSON_parse w1 primary) as [q|] eqn:Hw1;
      [|discriminate Hdoc].
    rewrite (read_document _ _ _ _ Hw1).
    rewrite getTask_cases, (read_document _ _ _ _ Hw1) in Hnone.
    simpl in Hnone.
    by destruct (list_find _ (Queue.items q)) as [[i t]|].
Qed.

End Api.

(** X18. A client of the event stream is sent what is broadcast while it
    is connected and nothing else: it joins under a new key with nothing
    received, the other clients keep what they have, a broadcast reaches it
    as one message, and after its connection closed a broadcast does not
    reach it.  A broadcast without clients changes nothing. *)
Theorem subscribers_get_broadcasts_while_connected s name payload :
  let res := fst (get_events s) in
  let s1 := snd (get_events s) in
  sseClients s !! res = None ∧
  sseClients s1 !! res = Some [] ∧
  (∀ other, other ≠ res → sseClients s1 !! other = sseClients s !! other) ∧
  sseClients (snd (broadcast name payload s1)) !! res =
    Some [{| event := name; data := payload |}] ∧
  sseClients (snd (broadcast name payload (events_close res s1))) !! res =
    None ∧
  (∀ other, other ≠ res →
     sseClients (events_close res s1) !! other = sseClients s !! other) ∧
  (sseClients s = ∅ → snd (broadcast name payload s) = s).
Proof.
  intros res s1. subst res s1. unfold get_events, broadcast, events_close.
  cbn [fst snd sseClients].
  split_and!.
  - apply not_elem_of_dom, is_fresh.
  - apply lookup_insert_eq.
  - intros other Hne. by rewrite lookup_insert_ne.
  - by rewrite lookup_fmap, lookup_insert_eq.
  - by rewrite lookup_fmap, lookup_delete_eq.
  - intros other Hne. by rewrite lookup_delete_ne, lookup_insert_ne.
  - intros H. rewrite H, fmap_empty. destruct s. simpl in H. by subst.
Qed.

(** ** The watcher: lines of the event stream and of the agent output *)

Lemma append_cons c (a b : string) : String c a +:+ b = String c (a +:+ b).
Proof. done. Qed.

Lemma append_nil_r (a : string) : a +:+ "" = a.
Proof. induction a as [|c a IH]; [done|]. by rewrite append_cons, IH. Qed.

Lemma String_split_nonempty sep s : String_split sep s ≠ [].
Proof.
  destruct s as [|c s]; simpl; [done|].
  destruct (Ascii.eqb c sep); [done|].
  by destruct (String_split sep s).
Qed.

Lemma removelast_last {A} (l : list A) x :
  list.last l = Some x → l = List.removelast l ++ [x].
Proof.
  induction l as [|y l IH]; [done|].
  destruct l as [|z l]; simpl in *; [by intros [= ->]|].
  intros H. by rewrite <- IH.
Qed.

Lemma String_split_last sep s :
  String_split sep s =
    List.removelast (String_split sep s) ++
    [default "" (list.last (String_split sep s))].
Proof.
  destruct (list.last (String_split sep s)) as [x|] eqn:H.
  - by apply removelast_last.
  - apply last_None in H. by destruct (String_split_nonempty sep s).
Qed.

Lemma removelast_app_last {A} (l k : list A) :
  k ≠ [] →
  List.removelast (l ++ k) = l ++ List.removelast k ∧
  list.last (l ++ k) = list.last k.
Proof.
  intros Hk. split.
  - by apply List.removelast_app.
  - destruct k as [|x k]; [done|]. by rewrite last_app_cons.
Qed.

(** Splitting a text in two and splitting the pieces: the complete lines
    of the first piece, then the lines of its incomplete last line followed
    by the second piece. *)
Lemma String_split_app sep a b :
  String_split sep (a +:+ b) =
    List.removelast (String_split sep a) ++
    String_split sep (default "" (list.last (String_split sep a)) +:+ b).
Proof.
  induction a as [|c a IH]; [done|].
  rewrite append_cons. simpl.
  destruct (Ascii.eqb c sep) eqn:Hc.
  - rewrite IH.
    pose proof (String_split_nonempty sep a) as Hne.
    destruct (String_split sep a) as [|l ls] eqn:Ha; [done|].
    change (list.last ("" :: l :: ls)) with (list.last (l :: ls)).
    by change (List.removelast ("" :: l :: ls))
      with ("" :: List.removelast (l :: ls)).
  - rewrite IH.
    pose proof (String_split_nonempty sep a) as Hne.
    destruct (String_split sep a) as [|l ls] eqn:Ha; [done|].
    destruct ls as [|l' ls].
    + simpl. by rewrite Hc.
    + change (list.last (String c l :: l' :: ls)) with (list.last (l' :: ls)).
      change (list.last (l :: l' :: ls)) with (list.last (l' :: ls)).
      by change (List.removelast (String c l :: l' :: ls))
        with (String c l :: List.removelast (l' :: ls)).
Qed.

Lemma one_line_cons c s : one_line (String c s) ↔ c ≠ LF ∧ one_line s.
Proof.
  unfold one_line. simpl. rewrite not_elem_of_cons. intuition congruence.
Qed.

Lemma String_split_one_line s : one_line s → String_split LF s = [s].
Proof.
  induction s as [|c s IH]; [done|].
  intros [Hc Hs]%one_line_cons. simpl.
  rewrite (proj2 (Ascii.eqb_neq _ _) Hc). by rewrite IH.
Qed.

Lemma String_split_line a b :
  one_line a → String_split LF (a +:+ String LF b) = a :: String_split LF b.
Proof.
  induction a as [|c a IH].
  - by intros _.
  - intros [Hc Ha]%one_line_cons. rewrite append_cons. simpl.
    rewrite (proj2 (Ascii.eqb_neq _ _) Hc). by rewrite IH.
Qed.

Lemma String_split_rest_one_line s :
  one_line (default "" (list.last (String_split LF s))).
Proof.
  induction s as [|c s IH]; simpl.
  - unfold one_line. simpl. apply not_elem_of_nil.
  - pose proof (String_split_nonempty LF s) as Hne.
    destruct (Ascii.eqb c LF) eqn:Hc.
    + by destruct (String_split LF s).
    + destruct (String_split LF s) as [|l [|l' ls]] eqn:Hs; [done| |done].
      simpl in *. apply one_line_cons. split; [|done].
      by apply Ascii.eqb_neq.
Qed.

Lemma prefix_app p x : String.prefix p (p +:+ x) = true.
Proof.
  induction p as [|c p IH]; [by destruct x|].
  rewrite append_cons. simpl. by destruct (ascii_dec c c).
Qed.

Lemma String_slice_app p x : String_slice (String.length p) (p +:+ x) = x.
Proof. induction p as [|c p IH]; [done|]. by rewrite append_cons. Qed.

Section EventStreamClient.
Context {A : Type}.
Variable Buffer_toString : Buffer → string.
Variable JSON_stringify : Json → string.
Variable JSON_parse : string → option Json.
Variable String_trim : string → string.
Variable handlers : string → option (Json → A).

Local Abbreviation lines := (connectSSE_lines JSON_parse String_trim handlers).
Local Abbreviation on_text := (connectSSE_text JSON_parse String_trim handlers).
Local Abbreviation on_data :=
  (connectSSE_data Buffer_toString JSON_parse String_trim handlers).
Local Abbreviation on_chunks :=
  (connectSSE_chunks Buffer_toString JSON_parse String_trim handlers).

Lemma connectSSE_lines_app ev l k :
  lines ev (l ++ k) =
    (fst (lines (fst (lines ev l)) k),
     snd (lines ev l) ++ snd (lines (fst (lines ev l)) k)).
Proof.
  revert ev. induction l as [|x l IH]; intros ev; simpl.
  - by destruct (lines ev k).
  - destruct (connectSSE_line _ _ _ ev x) as [ev1 c1]. rewrite IH.
    destruct (lines ev1 l) as [ev2 c2]. simpl.
    destruct (lines ev2 k) as [ev3 c3]. simpl. by rewrite app_assoc.
Qed.

Lemma connectSSE_text_eq text st :
  on_text text st =
    let text := buffer st +:+ text in
    ({| buffer := default "" (list.last (String_split LF text));
        currentEvent :=
          fst (lines (currentEvent st)
                 (List.removelast (String_split LF text))) |},
     snd (lines (currentEvent st) (List.removelast (String_split LF text)))).
Proof.
  unfold connectSSE_text. cbv zeta. by destruct (lines _ _).
Qed.

(** Two texts appended one after the other are read as their
    concatenation is. *)
Lemma connectSSE_text_app text1 text2 st :
  on_text (text1 +:+ text2) st =
    (fst (on_text text2 (fst (on_text text1 st))),
     snd (on_text text1 st) ++ snd (on_text text2 (fst (on_text text1 st)))).
Proof.
  rewrite !connectSSE_text_eq. cbv zeta. cbn [fst snd buffer currentEvent].
  rewrite <- append_assoc.
  rewrite (String_split_app LF (buffer st +:+ text1) text2).
  set (done1 := List.removelast (String_split LF (buffer st +:+ text1))).
  set (rest1 := default "" (list.last (String_split LF (buffer st +:+ text1)))).
  destruct (removelast_app_last done1 (String_split LF (rest1 +:+ text2))
              (String_split_nonempty _ _)) as [-> ->].
  by rewrite connectSSE_lines_app.
Qed.

Lemma connectSSE_text_one_line text st :
  one_line (buffer (fst (on_text text st))).
Proof.
  rewrite connectSSE_text_eq. cbv zeta. cbn [fst buffer].
  apply String_split_rest_one_line.
Qed.

Lemma connectSSE_text_nil st :
  one_line (buffer st) → on_text "" st = (st, []).
Proof.
  intros Hst. rewrite connectSSE_text_eq. cbv zeta.
  rewrite append_nil_r, (String_split_one_line _ Hst).
  cbn [List.removelast list.last default from_option Datatypes.id
       connectSSE_lines fst snd].
  by destruct st.
Qed.

(** The chunks are read as the one text that their texts make up. *)
Lemma connectSSE_chunks_text chunks st :
  one_line (buffer st) →
  on_chunks chunks st = on_text (decoded Buffer_toString chunks) st.
Proof.
  revert st. induction chunks as [|chunk chunks IH]; intros st Hst.
  - cbn [connectSSE_chunks decoded foldr]. by rewrite connectSSE_text_nil.
  - cbn [connectSSE_chunks decoded foldr]. fold (decoded Buffer_toString chunks).
    rewrite connectSSE_text_app. unfold connectSSE_data.
    destruct (on_text (Buffer_toString chunk) st) as [st1 calls1] eqn:H1.
    assert (Hst1 : one_line (buffer st1)).
    { pose proof (connectSSE_text_one_line (Buffer_toString chunk) st) as H.
      by rewrite H1 in H. }
    rewrite (IH st1 Hst1). cbn [fst snd].
    by destruct (on_text (decoded Buffer_toString chunks) st1).
Qed.

(** X19. The client decodes every chunk on its own.  When a cut falls on a
    character boundary, so that the texts of the two chunks make up the
    text of the two as one chunk, the cut does not matter: taking the two
    chunks one after the other leaves the same buffer and current event
    name, and makes the same handler calls in the same order, as taking
    them as one chunk. *)
Theorem connectSSE_chunks_do_not_matter chunk1 chunk2 st :
  Buffer_toString (chunk1 ++ chunk2) =
    Buffer_toString chunk1 +:+ Buffer_toString chunk2 →
  let first :=
    connectSSE_data Buffer_toString JSON_parse String_trim handlers
      chunk1 st in
  let second :=
    connectSSE_data Buffer_toString JSON_parse String_trim handlers
      chunk2 (fst first) in
  connectSSE_data Buffer_toString JSON_parse String_trim handlers
    (chunk1 ++ chunk2) st =
    (fst second, snd first ++ snd second).
Proof.
  intros Hcut first second. subst first second. unfold connectSSE_data.
  rewrite Hcut. apply connectSSE_text_app.
Qed.

Hypothesis JSON_roundtrip : ∀ d, JSON_parse (JSON_stringify d) = Some d.
Hypothesis JSON_one_line : ∀ d, one_line (JSON_stringify d).

Lemma one_line_app a b : one_line a → one_line b → one_line (a +:+ b).
Proof.
  induction a as [|c a IH]; [done|].
  intros [Hc Ha]%one_line_cons Hb. rewrite append_cons.
  apply one_line_cons. auto.
Qed.

Lemma one_line_literal s :
  forallb (λ c, negb (Ascii.eqb c LF)) (String.list_ascii_of_string s) = true →
  one_line s.
Proof.
  induction s as [|c s IH]; simpl.
  - intros _. unfold one_line. simpl. apply not_elem_of_nil.
  - intros [Hc Hs]%andb_true_iff. apply one_line_cons. split; [|auto].
    apply negb_true_iff in Hc. by apply Ascii.eqb_neq.
Qed.

Lemma String_split_broadcast_msg m rest :
  one_line (event m) →
  String_split LF (broadcast_msg JSON_stringify m +:+ rest) =
    ("event: " +:+ event m) :: ("data: " +:+ JSON_stringify (data m)) ::
    "" :: String_split LF rest.
Proof.
  intros Hm.
  assert (broadcast_msg JSON_stringify m +:+ rest =
          ("event: " +:+ event m) +:+
          String LF (("data: " +:+ JSON_stringify (data m)) +:+
                     String LF ("" +:+ String LF rest))) as ->.
  { unfold broadcast_msg.
    repeat (rewrite append_assoc || rewrite append_cons). reflexivity. }
  rewrite String_split_line
    by (apply one_line_app; [by apply one_line_literal|done]).
  rewrite String_split_line
    by (apply one_line_app; [by apply one_line_literal|done]).
  by rewrite String_split_line by (by apply one_line_literal).
Qed.

Lemma connectSSE_lines_msg m :
  String_trim (event m) = event m →
  lines "message"
    ["event: " +:+ event m; "data: " +:+ JSON_stringify (data m); ""] =
    ("message", received handlers m).
Proof.
  intros Htrim. unfold received.
  cbn [connectSSE_lines].
  assert (H1 : connectSSE_line JSON_parse String_trim handlers "message"
                 ("event: " +:+ event m) = (event m, [])).
  { unfold connectSSE_line.
    rewrite prefix_app.
    change 7%nat with (String.length "event: ").
    by rewrite String_slice_app, Htrim. }
  assert (H2 : connectSSE_line JSON_parse String_trim handlers (event m)
                 ("data: " +:+ JSON_stringify (data m)) =
               ("message", received handlers m)).
  { unfold connectSSE_line, received.
    change (String.prefix "event: " ("data: " +:+ JSON_stringify (data m)))
      with false.
    rewrite prefix_app.
    change 6%nat with (String.length "data: ").
    by rewrite String_slice_app, JSON_roundtrip. }
  rewrite H1, H2. unfold received.
  change (connectSSE_line JSON_parse String_trim handlers "message" "")
    with ("message", @nil A).
  cbn [app]. by rewrite ?app_nil_r.
Qed.

(** The text that the server writes, read as one text. *)
Lemma event_stream_text out :
  Forall (λ m, one_line (event m) ∧ String_trim (event m) = event m) out →
  on_text (event_stream JSON_stringify out) connectSSE_start =
    (connectSSE_start, out ≫= received handlers).
Proof.
  intros Hout.
  assert (Hmsgs :
    ∃ ls, String_split LF (foldr (λ m rest, broadcast_msg JSON_stringify m +:+ rest) "" out)
            = ls ++ [""] ∧
          lines "message" ls = ("message", out ≫= received handlers)).
  { induction Hout as [|m out [Hm Htrim] _ (ls & Hls & Hrun)].
    - by exists [].
    - exists (("event: " +:+ event m) ::
              ("data: " +:+ JSON_stringify (data m)) :: "" :: ls).
      split.
      + cbn [foldr]. by rewrite String_split_broadcast_msg, Hls.
      + change (?a :: ?b :: ?c :: ls) with ([a; b; c] ++ ls).
        rewrite connectSSE_lines_app, (connectSSE_lines_msg m Htrim).
        cbn [fst snd]. by rewrite Hrun. }
  destruct Hmsgs as (ls & Hls & Hrun).
  assert (Hsplit :
    String_split LF (buffer connectSSE_start +:+ event_stream JSON_stringify out) =
      ([":"; ""] ++ ls) ++ [""]).
  { change (buffer connectSSE_start +:+ event_stream JSON_stringify out)
      with (":" +:+ String LF ("" +:+ String LF
              (foldr (λ m rest, broadcast_msg JSON_stringify m +:+ rest) "" out))).
    rewrite String_split_line by (by apply one_line_literal).
    rewrite String_split_line by (by apply one_line_literal).
    by rewrite Hls. }
  rewrite connectSSE_text_eq. cbv zeta. rewrite Hsplit.
  destruct (removelast_app_last ([":"; ""] ++ ls) [""] ltac:(done))
    as [-> ->].
  cbn [List.removelast list.last default]. rewrite app_nil_r.
  rewrite connectSSE_lines_app.
  change (lines (currentEvent connectSSE_start) [":"; ""])
    with ("message", @nil A).
  cbn [fst snd]. by rewrite Hrun.
Qed.

(** X20. What the server writes, the client of the watcher receives: the
    text that a subscriber has been sent for a list of broadcasts, the
    keepalive comment first, makes the client call the handler of every
    message with its payload, in the order of the broadcasts, and leaves it
    ready for the next message, with an empty buffer.  A message without a
    handler is dropped.  The text may arrive in any number of chunks, each
    decoded on its own, as long as the texts of the chunks make up the text
    that was written. *)
Theorem event_stream_is_received out chunks :
  Forall (λ m, one_line (event m) ∧ String_trim (event m) = event m) out →
  decoded Buffer_toString chunks = event_stream JSON_stringify out →
  connectSSE_chunks Buffer_toString JSON_parse String_trim handlers
    chunks connectSSE_start =
    (connectSSE_start, out ≫= received handlers).
Proof.
  intros Hout Htext.
  rewrite connectSSE_chunks_text by (by apply one_line_literal).
  rewrite Htext. by apply event_stream_text.
Qed.

End EventStreamClient.

Lemma length_append (a b : string) :
  String.length (a +:+ b) = (String.length a + String.length b)%nat.
Proof.
  induction a as [|c a IH]; [done|]. rewrite append_cons. simpl. by rewrite IH.
Qed.

Lemma length_substring n m s : (String.length (String.substring n m s) ≤ m)%nat.
Proof.
  revert n m. induction s as [|c s IH]; intros [|n] [|m]; simpl;
    try apply Nat.le_0_l; try apply IH.
  apply le_n_S, IH.
Qed.

Lemma length_pos s : (0 <? String.length s)%nat = true → s ≠ "".
Proof. by destruct s. Qed.

Lemma summarizeTool_nonempty name input : summarizeTool name input ≠ "".
Proof.
  unfold summarizeTool.
  repeat (destruct (String.eqb name _); [done|]). done.
Qed.

Section AgentOutput.
Variable Buffer_toString : Buffer → string.
Variable String_trim : string → string.
Variable Number_toFixed : Number.t → nat → string.
Variable Number_toString : Number.t → string.
Variable JSON_parse : string → option StreamEvent.t.

Local Abbreviation extract :=
  (extractActivities String_trim Number_toFixed Number_toString).
Local Abbreviation line :=
  (stdout_line String_trim Number_toFixed Number_toString JSON_parse).

Lemma extractActivities_block_spec block a :
  a ∈ extractActivities_block String_trim block →
  (Activity.type a = "tool_start" ∨ Activity.type a = "text") ∧
  Activity.summary a ≠ "" ∧
  (Activity.type a = "text" → (String.length (Activity.summary a) ≤ 83)%nat).
Proof.
  unfold extractActivities_block.
  destruct (_ && _).
  { intros ->%list_elem_of_singleton. simpl.
    split_and!; [by left|apply summarizeTool_nonempty|done]. }
  destruct (_ && _); [|by intros ?%elem_of_nil].
  cbv zeta.
  destruct (0 <? _)%nat eqn:Hpos; [|by intros ?%elem_of_nil].
  intros ->%list_elem_of_singleton. simpl.
  destruct (80 <? _)%nat eqn:Hlong.
  - split_and!; [by right| |].
    + intros H. apply (f_equal String.length) in H.
      rewrite length_append in H. simpl in H.
      by rewrite Nat.add_comm in H.
    + intros _. rewrite length_append. simpl.
      pose proof (length_substring 0 80 (String_trim (default "" (ContentBlock.text block)))).
      change 83%nat with (80 + 3)%nat.
      apply Nat.add_le_mono; [done|]. apply le_n.
  - split_and!; [by right|by apply length_pos|].
    intros _. apply Nat.ltb_ge in Hlong.
    etrans; [exact Hlong|]. by repeat constructor.
Qed.

(** X21. Every activity that [extractActivities] finds in an event of the
    agent is a tool start, a text or a result, with a summary that is not
    empty and, for a text, at most 83 characters long.  The activity route
    therefore accepts it for a stored task: it answers 200 with a list that
    ends with an entry of that kind and summary. *)
Theorem extracted_activities_are_accepted event a :
  a ∈ extract event →
  (Activity.type a = "tool_start" ∨ Activity.type a = "text" ∨
   Activity.type a = "result") ∧
  Activity.summary a ≠ "" ∧
  (Activity.type a = "text" → (String.length (Activity.summary a) ≤ 83)%nat) ∧
  ∀ reviewDir JSON_parse_queue id s task,
    eval (getTask reviewDir JSON_parse_queue id) (world s) =
      Return (Some task) →
    ∃ entries entry,
      fst (post_activity reviewDir JSON_parse_queue id
             (Some (Activity.type a)) (Some (Activity.summary a)) s) =
        {| statusCode := 200; json := J_entries entries |} ∧
      list.last entries = Some entry ∧
      ActivityEntry.type entry = Activity.type a ∧
      ActivityEntry.summary entry = Activity.summary a.
Proof.
  intros Ha.
  assert (H : (Activity.type a = "tool_start" ∨ Activity.type a = "text" ∨
               Activity.type a = "result") ∧
              Activity.summary a ≠ "" ∧
              (Activity.type a = "text" →
               (String.length (Activity.summary a) ≤ 83)%nat)).
  { unfold extractActivities in Ha. cbv zeta in Ha.
    destruct (_ && _).
    - apply list_elem_of_bind in Ha as (block & Ha & _).
      destruct (extractActivities_block_spec block a Ha) as ([?|?] & ? & ?);
        split_and!; auto.
    - destruct (String.eqb _ "result"); [|by apply elem_of_nil in Ha].
      apply list_elem_of_singleton in Ha as ->. simpl.
      split_and!; [by auto| |done].
      by destruct (String.eqb _ ""). }
  destruct H as (Htype & Hsummary & Hlen).
  split_and!; [done..|].
  intros reviewDir JSON_parse_queue id s task Hget.
  rewrite post_activity_cases. unfold eval in Hget.
  destruct (getTask reviewDir JSON_parse_queue id (world s)) as [r w1].
  simpl in Hget. subst r. cbn [from_option Datatypes.id].
  assert (Hvalid : Set_has VALID_ACTIVITY_TYPES (Activity.type a) = true).
  { apply bool_decide_eq_true, VALID_ACTIVITY_TYPES_elem.
    destruct Htype as [-> | [-> | ->]]; auto. }
  rewrite Hvalid. cbv zeta. cbn [fst].
  eexists _, _. split_and!; [reflexivity|apply last_snoc|done|done].
Qed.

Lemma stdout_end_line b :
  stdout_end String_trim Number_toFixed Number_toString JSON_parse b = line b.
Proof.
  unfold stdout_end, stdout_line. by destruct (String.eqb _ _).
Qed.

Lemma stdout_chunks_lines chunks b :
  one_line b →
  stdout_chunks Buffer_toString String_trim Number_toFixed Number_toString
    JSON_parse chunks b =
    String_split LF (b +:+ decoded Buffer_toString chunks) ≫= line.
Proof.
  revert b. induction chunks as [|chunk chunks IH]; intros b Hb.
  - cbn [stdout_chunks decoded foldr]. rewrite append_nil_r.
    rewrite (String_split_one_line b Hb), stdout_end_line.
    by rewrite bind_cons, app_nil_r.
  - cbn [stdout_chunks decoded foldr]. fold (decoded Buffer_toString chunks).
    unfold stdout_data. cbv zeta.
    rewrite IH by apply String_split_rest_one_line.
    rewrite <- append_assoc,
      (String_split_app LF (b +:+ Buffer_toString chunk)).
    by rewrite bind_app.
Qed.

(** X22. The handler of the output of the agent decodes every chunk on
    its own and appends the text.  Of the text that the chunks make up in
    this way no line is lost or read twice, however long the chunks are:
    once the output has ended, the activities posted are those of its lines,
    in order, and a last line without a line feed counts.  When every cut
    falls on a character boundary, that text is the text of the whole
    output. *)
Theorem agent_output_is_read_line_by_line chunks :
  let posted :=
    stdout_chunks Buffer_toString String_trim Number_toFixed Number_toString
      JSON_parse chunks "" in
  posted = String_split LF (decoded Buffer_toString chunks) ≫= line ∧
  (Buffer_toString (concat chunks) = decoded Buffer_toString chunks →
   posted = String_split LF (Buffer_toString (concat chunks)) ≫= line).
Proof.
  intros posted.
  assert (H : posted =
              String_split LF (decoded Buffer_toString chunks) ≫= line).
  { unfold posted. rewrite stdout_chunks_lines; [done|].
    by apply one_line_literal. }
  split; [exact H|]. intros Hwhole. by rewrite Hwhole.
Qed.

End AgentOutput.

(** ** The watcher: reconnection and shutdown *)

Lemma reconnect_bounds delay e :
  1000 ≤ delay ≤ 30000 →
  1000 ≤ fst (reconnect delay e) ≤ 30000 ∧
  ∀ t, snd (reconnect delay e) = Some t → 1000 ≤ t ≤ 30000.
Proof.
  intros H. destruct e; simpl.
  - split; [lia|done].
  - split; [done|]. by intros t [= <-].
  - split; [lia|done].
Qed.

(** X23. The wait before a reconnection stays between one and thirty
    seconds: from the initial delay of one second, whatever the order of
    connections, disconnections and timers, [reconnectDelay] and the delay of
    every timer set are within these bounds.  Each timer that fires doubles
    the delay up to the cap, and a connection resets it to one second. *)
Theorem reconnect_delay_is_bounded events :
  let run := reconnect_run 1000 events in
  1000 ≤ fst run ≤ 30000 ∧
  Forall (λ t, 1000 ≤ t ≤ 30000) (snd run) ∧
  (∀ n, fst (reconnect_run 1000 (replicate n ReconnectTimer)) =
        Z.min (1000 * 2 ^ Z.of_nat n) 30000) ∧
  fst (reconnect_run 1000 (events ++ [OnConnect])) = 1000.
Proof.
  assert (Hinv : ∀ events delay, 1000 ≤ delay ≤ 30000 →
            1000 ≤ fst (reconnect_run delay events) ≤ 30000 ∧
            Forall (λ t, 1000 ≤ t ≤ 30000) (snd (reconnect_run delay events))).
  { clear events. induction events as [|e events IH]; intros delay Hd.
    - by split.
    - simpl. destruct (reconnect_bounds delay e Hd) as [H1 H2].
      destruct (reconnect delay e) as [delay' timer]. simpl in H1, H2.
      destruct (IH delay' H1) as [H3 H4].
      destruct (reconnect_run delay' events) as [delay'' timers].
      simpl in *. split; [done|].
      apply Forall_app. split; [|done].
      destruct timer as [t|]; simpl; [|done].
      apply Forall_singleton. by apply H2. }
  assert (Hgrow : ∀ n delay, 1000 ≤ delay ≤ 30000 →
            fst (reconnect_run delay (replicate n ReconnectTimer)) =
            Z.min (delay * 2 ^ Z.of_nat n) 30000).
  { induction n as [|n IH]; intros delay Hd.
    - simpl. lia.
    - cbn [replicate reconnect_run reconnect].
      specialize (IH (Z.min (delay * 2) 30000) ltac:(lia)).
      destruct (reconnect_run _ (replicate n ReconnectTimer))
        as [delay' timers]. cbn [fst] in *. subst delay'.
      rewrite Nat2Z.inj_succ, Z.pow_succ_r by lia.
      assert (1 ≤ 2 ^ Z.of_nat n)
        by (apply (Z.pow_le_mono_r 2 0); lia).
      destruct (Z.le_gt_cases (delay * 2) 30000).
      + rewrite (Z.min_l (delay * 2)) by lia. f_equal. lia.
      + rewrite (Z.min_r (delay * 2)) by lia. rewrite !Z.min_r; nia. }
  intros run. subst run. split; [|split; [|split]].
  - apply Hinv. lia.
  - apply Hinv. lia.
  - intros n. apply Hgrow. lia.
  - clear. generalize 1000 at 1. induction events as [|e events IH]; intros d.
    + done.
    + cbn [app reconnect_run]. destruct (reconnect d e) as [d' t].
      specialize (IH d').
      destruct (reconnect_run d' (events ++ [OnConnect])). by simpl in *.
Qed.

Section Running.
Variable options : WatcherOptions.t.

Lemma kickProcessing_stopped s :
  stopped s = true → kickProcessing s = (s, []).
Proof.
  intros H. unfold kickProcessing. by rewrite H, orb_true_r.
Qed.

Lemma enqueue_stopped id s :
  stopped s = true →
  stopped (fst (enqueue id s)) = true ∧ snd (enqueue id s) = [] ∧
  calls (fst (enqueue id s)) = calls s ∧
  currentProcess (fst (enqueue id s)) = currentProcess s.
Proof.
  intros H. unfold enqueue. destruct (_ && _); [|done].
  by rewrite kickProcessing_stopped.
Qed.

Lemma enqueue_all_stopped ids s :
  stopped s = true →
  stopped (fst (enqueue_all ids s)) = true ∧ snd (enqueue_all ids s) = [] ∧
  calls (fst (enqueue_all ids s)) = calls s ∧
  currentProcess (fst (enqueue_all ids s)) = currentProcess s.
Proof.
  revert s. induction ids as [|id ids IH]; intros s H; [done|].
  simpl. destruct (enqueue_stopped id s H) as (H1 & H2 & H3 & H4).
  destruct (enqueue id s) as [s1 a1]. simpl in *.
  destruct (IH s1 H1) as (H5 & H6 & H7 & H8).
  destruct (enqueue_all ids s1) as [s2 a2]. simpl in *. subst.
  split_and!; simpl; congruence.
Qed.

Lemma after_processTask_stopped call s :
  stopped s = true →
  after_processTask call s = (set_processing false (ends call s), []).
Proof. intros H. unfold after_processTask. simpl. by rewrite H. Qed.

Lemma resume_stopped call r s :
  stopped s = true →
  stopped (fst (resume options call r s)) = true ∧
  GetNext ∉ snd (resume options call r s).
Proof.
  intros H. unfold resume, processTask_returns, caught.
  destruct (calls s !! call) as [[ | task | task child | task | task]|];
    [| | | | |by split; [|apply not_elem_of_nil]].
  - destruct r as [[ | task | | | | | | ]|];
      try (split; [done|by intros [=]%list_elem_of_singleton]);
      try (split; [done|apply not_elem_of_nil]).
    destruct (_ && _); simpl.
    + split; [done|apply not_elem_of_nil].
    + split; [done|by intros [=]%list_elem_of_singleton].
  - destruct r.
    + split; [done|by intros [=]%list_elem_of_singleton].
    + rewrite after_processTask_stopped by done.
      split; [done|apply not_elem_of_nil].
  - by split; [|apply not_elem_of_nil].
  - destruct r as [[ | updated | | | | | | ]|];
      try (rewrite after_processTask_stopped by done;
           split; [done|apply not_elem_of_nil]).
    destruct (String.eqb _ "review");
      [rewrite after_processTask_stopped by done;
       split; [done|apply not_elem_of_nil]|].
    destruct (String.eqb _ "in_progress").
    + split; [done|by intros [=]%list_elem_of_singleton].
    + rewrite after_processTask_stopped by done.
      split; [done|apply not_elem_of_nil].
  - rewrite after_processTask_stopped by done.
    split; [done|apply not_elem_of_nil].
Qed.

Lemma exited_no_fetch child s :
  stopped (fst (exited child s)) = stopped s ∧ GetNext ∉ snd (exited child s).
Proof.
  split; [done|]. intros H. by apply exited_actions in H as [id H].
Qed.

Lemma step_stopped s e :
  stopped s = true →
  stopped (fst (step options s e)) = true ∧ GetNext ∉ snd (step options s e).
Proof.
  intros H.
  destruct e as [r|r|t|t|id|id| |call r|child|child| ]; simpl.
  - destruct r as [body|msg]; simpl.
    + destruct (0 <? _)%nat; [|by split; [|apply not_elem_of_nil]].
      rewrite kickProcessing_stopped by done.
      by split; [|apply not_elem_of_nil].
    + destruct (0 <? _)%nat; [|by split; [|apply not_elem_of_nil]].
      rewrite kickProcessing_stopped by done.
      by split; [|apply not_elem_of_nil].
  - destruct r as [body|msg]; [|by split; [|apply not_elem_of_nil]].
    destruct (enqueue_all_stopped (pending_ids body) s H) as (H1 & H2 & _).
    rewrite H2. by split; [|apply not_elem_of_nil].
  - destruct (enqueue_stopped (Task.id t) s H) as (H1 & H2 & _).
    rewrite H2. by split; [|apply not_elem_of_nil].
  - destruct (String.eqb _ _); [|by split; [|apply not_elem_of_nil]].
    destruct (enqueue_stopped (Task.id t) s H) as (H1 & H2 & _).
    rewrite H2. by split; [|apply not_elem_of_nil].
  - by split; [|apply not_elem_of_nil].
  - destruct (currentProcess s); [|by split; [|apply not_elem_of_nil]].
    destruct (bool_decide _); [|by split; [|apply not_elem_of_nil]].
    split; [done|by intros [=]%list_elem_of_singleton].
  - rewrite kickProcessing_stopped by done.
    by split; [|apply not_elem_of_nil].
  - by apply resume_stopped.
  - destruct (_ <? _)%nat; [|by split; [|apply not_elem_of_nil]].
    destruct (exited_no_fetch child
                (set_currentProcess None
                   (set_active (filter (λ c, c ≠ child) (active s)) s)))
      as [H1 H2].
    split; [by rewrite H1|done].
  - destruct (bool_decide _); [|by split; [|apply not_elem_of_nil]].
    destruct (exited_no_fetch child
                (set_active (filter (λ c, c ≠ child) (active s)) s))
      as [H1 H2].
    split; [by rewrite H1|done].
  - split; [done|].
    destruct (currentProcess s); [|apply not_elem_of_nil].
    by intros [=]%list_elem_of_singleton.
Qed.

Lemma step_stopped_idle s e :
  stopped s = true → calls s = [] → currentProcess s = None →
  snd (step options s e) = [] ∧
  calls (fst (step options s e)) = [] ∧
  currentProcess (fst (step options s e)) = None.
Proof.
  intros H Hc Hp.
  destruct e as [r|r|t|t|id|id| |call r|child|child| ]; simpl.
  - destruct r as [body|msg]; simpl;
      (destruct (0 <? _)%nat; [|done]);
      by rewrite kickProcessing_stopped.
  - destruct r as [body|msg]; [|done].
    destruct (enqueue_all_stopped (pending_ids body) s H) as (_ & H2 & H3 & H4).
    split_and!; congruence.
  - destruct (enqueue_stopped (Task.id t) s H) as (_ & H2 & H3 & H4).
    split_and!; congruence.
  - destruct (String.eqb _ _); [|done].
    destruct (enqueue_stopped (Task.id t) s H) as (_ & H2 & H3 & H4).
    split_and!; congruence.
  - done.
  - by rewrite Hp.
  - by rewrite kickProcessing_stopped.
  - unfold resume. by rewrite Hc.
  - destruct (_ <? _)%nat; [|done]. unfold exited. simpl. by rewrite Hc.
  - destruct (bool_decide _); [|done]. unfold exited. simpl. by rewrite Hc.
  - by rewrite Hp.
Qed.

(** X24. After [stop()] the dispatch loop takes no further task: whatever
    happens next, it stays stopped and never again fetches the next task,
    and a loop that was idle when it was stopped sends no request and
    spawns nothing afterwards. *)
Theorem no_task_is_fetched_after_stop s0 events :
  let s := fst (step options s0 Stop) in
  let after := run options s events in
  stopped (fst after) = true ∧
  (GetNext ∉ snd after) ∧
  (calls s0 = [] → currentProcess s0 = None → snd after = []).
Proof.
  intros s after. subst s after.
  assert (Hrun : ∀ events s, stopped s = true →
            stopped (fst (run options s events)) = true ∧
            GetNext ∉ snd (run options s events)).
  { clear. induction events as [|e events IH]; intros s H.
    - split; [done|apply not_elem_of_nil].
    - rewrite run_cons. cbn [fst snd].
      destruct (step_stopped s e H) as [H1 H2].
      destruct (IH _ H1) as [H3 H4].
      split; [done|]. rewrite elem_of_app. tauto. }
  assert (Hidle : ∀ events s, stopped s = true → calls s = [] →
            currentProcess s = None → snd (run options s events) = []).
  { clear. induction events as [|e events IH]; intros s H Hc Hp; [done|].
    rewrite run_cons. cbn [snd].
    destruct (step_stopped_idle s e H Hc Hp) as (H1 & H2 & H3).
    destruct (step_stopped s e H) as [H4 _].
    by rewrite H1, (IH _ H4 H2 H3). }
  split_and!; [by apply Hrun|by apply Hrun|].
  intros Hc Hp. by apply Hidle.
Qed.


(** X25. While it runs, the dispatch loop puts a task back to pending in
    one case only: the agent has ended, the loop has fetched the task, and
    the task is still in progress.  A task that the agent left in review, or
    in any other state, is not touched.  (The reset that [stop()] makes on
    its way out is not part of the loop.) *)
Theorem task_is_reset_only_when_left_in_progress s e id :
  e ≠ Stop →
  PutStatus id "pending" ∈ snd (step options s e) ↔
  ∃ call task updated,
    e = Settled call (Resolved (J_task updated)) ∧
    calls s !! call = Some (AwaitTask task) ∧
    id = Task.id task ∧
    Task.status updated = "in_progress".
Proof.
  intros Hstop. split.
  - intros Hin.
    destruct e as [r|r|t|t|id'|id'| |call r|child|child| ]; simpl in Hin.
    + destruct r; simpl in Hin;
        (destruct (0 <? _)%nat; [|by apply elem_of_nil in Hin]);
        by apply kickProcessing_actions in Hin.
    + destruct r; [|by apply elem_of_nil in Hin].
      by apply enqueue_all_actions in Hin.
    + by apply enqueue_actions in Hin.
    + destruct (String.eqb _ _); [|by apply elem_of_nil in Hin].
      by apply enqueue_actions in Hin.
    + by apply elem_of_nil in Hin.
    + destruct (currentProcess s); [|by apply elem_of_nil in Hin].
      destruct (bool_decide _); [|by apply elem_of_nil in Hin].
      by apply list_elem_of_singleton in Hin.
    + by apply kickProcessing_actions in Hin.
    + unfold resume, processTask_returns, caught in Hin.
      destruct (calls s !! call) as [[ | task | task child | task | task]|]
        eqn:Hcall; [| | | | |by apply elem_of_nil in Hin].
      * destruct r as [[ | task | | | | | | ]|];
          try (by apply list_elem_of_singleton in Hin);
          try (by apply elem_of_nil in Hin).
        destruct (_ && _); simpl in Hin; [by apply elem_of_nil in Hin|].
        by apply list_elem_of_singleton in Hin.
      * destruct r; [by apply list_elem_of_singleton in Hin|].
        by apply after_processTask_actions in Hin.
      * by apply elem_of_nil in Hin.
      * destruct r as [[ | updated | | | | | | ]|];
          try (by apply after_processTask_actions in Hin).
        destruct (String.eqb _ "review") eqn:Hreview;
          [by apply after_processTask_actions in Hin|].
        destruct (String.eqb _ "in_progress") eqn:Hprogress;
          [|by apply after_processTask_actions in Hin].
        apply list_elem_of_singleton in Hin. injection Hin as ->.
        exists call, task, updated. by apply String.eqb_eq in Hprogress.
      * by apply after_processTask_actions in Hin.
    + destruct (_ <? _)%nat; [|by apply elem_of_nil in Hin].
      by apply exited_actions in Hin as [? ?].
    + destruct (bool_decide _); [|by apply elem_of_nil in Hin].
      by apply exited_actions in Hin as [? ?].
    + done.
  - intros (call & task & updated & -> & Hcall & -> & Hstatus).
    simpl. unfold resume. rewrite Hcall, Hstatus. simpl.
    apply list_elem_of_singleton. done.
Qed.


Lemma without_NoDup id queue : NoDup queue → NoDup (without id queue).
Proof. apply list.NoDup_filter. Qed.

Lemma without_elem id id' queue :
  id' ∈ without id queue ↔ id' ≠ id ∧ id' ∈ queue.
Proof. unfold without. by rewrite list_elem_of_filter. Qed.

Lemma kickProcessing_queue s :
  pendingQueue (fst (kickProcessing s)) = pendingQueue s ∧
  currentTaskId (fst (kickProcessing s)) = currentTaskId s.
Proof. unfold kickProcessing. by destruct (_ || _). Qed.

Lemma kickProcessing_distinct s :
  queue_distinct s → queue_distinct (fst (kickProcessing s)).
Proof.
  unfold queue_distinct. by destruct (kickProcessing_queue s) as [-> ->].
Qed.

Lemma enqueue_distinct id s :
  queue_distinct s → queue_distinct (fst (enqueue id s)).
Proof.
  intros [Hnd Hcur]. unfold enqueue.
  destruct (negb (bool_decide (id ∈ pendingQueue s))) eqn:Hin; [|done].
  destruct (negb (bool_decide (Some id = currentTaskId s))) eqn:Hid; [|done].
  apply negb_true_iff, bool_decide_eq_false in Hin, Hid.
  apply kickProcessing_distinct. split; simpl.
  - apply list.NoDup_app. split_and!; [done| |apply list.NoDup_singleton].
    intros x Hx ->%list_elem_of_singleton. done.
  - intros id' Hid'. rewrite elem_of_app, list_elem_of_singleton.
    intros [H| ->]; [by apply (Hcur id')|]. by rewrite Hid' in Hid.
Qed.

Lemma enqueue_all_distinct ids s :
  queue_distinct s → queue_distinct (fst (enqueue_all ids s)).
Proof.
  revert s. induction ids as [|id ids IH]; intros s H; [done|].
  simpl. pose proof (enqueue_distinct id s H) as H1.
  destruct (enqueue id s) as [s1 a1]. simpl in H1.
  specialize (IH s1 H1). by destruct (enqueue_all ids s1).
Qed.

Lemma after_processTask_distinct call s :
  NoDup (pendingQueue s) →
  queue_distinct (fst (after_processTask call (set_currentTaskId None s))).
Proof.
  intros H. unfold after_processTask. simpl.
  destruct (negb (stopped s)); [|by split].
  destruct (0 <? _)%nat; [|by split].
  apply kickProcessing_distinct. by split.
Qed.

Lemma resume_distinct call r s :
  queue_distinct s → queue_distinct (fst (resume options call r s)).
Proof.
  intros [Hnd Hcur]. unfold resume, processTask_returns, caught.
  destruct (calls s !! call) as [[ | task | task child | task | task]|];
    [| | | | |by split].
  - destruct r as [[ | task | | | | | | ]|]; try (by split).
    + split; simpl; [apply NoDup_nil_2|]. intros id _. apply not_elem_of_nil.
    + destruct (_ && _); simpl.
      * split; simpl; [by apply without_NoDup|].
        intros id Hid Hin%without_elem. by apply (Hcur id), Hin.
      * split; simpl; [by apply without_NoDup|].
        intros id [= <-] Hin%without_elem. by destruct Hin.
  - destruct r; [by split|]. by apply after_processTask_distinct.
  - by split.
  - destruct r as [[ | updated | | | | | | ]|];
      try (by apply after_processTask_distinct).
    destruct (String.eqb _ "review");
      [by apply after_processTask_distinct|].
    destruct (String.eqb _ "in_progress");
      [by split|by apply after_processTask_distinct].
  - by apply after_processTask_distinct.
Qed.

Lemma step_distinct s e :
  (∀ r, e ≠ InitFetched r) →
  queue_distinct s → queue_distinct (fst (step options s e)).
Proof.
  intros Hinit H.
  destruct e as [r|r|t|t|id|id| |call r|child|child| ]; simpl.
  - by destruct (Hinit r).
  - destruct r; [by apply enqueue_all_distinct|done].
  - by apply enqueue_distinct.
  - destruct (String.eqb _ _); [by apply enqueue_distinct|done].
  - destruct H as [Hnd Hcur]. split; simpl; [by apply without_NoDup|].
    intros id' Hid' Hin%without_elem. by apply (Hcur id'), Hin.
  - destruct (currentProcess s); [|done]. by destruct (bool_decide _).
  - by apply kickProcessing_distinct.
  - by apply resume_distinct.
  - by destruct (_ <? _)%nat.
  - by destruct (bool_decide _).
  - done.
Qed.

(** X26. The local queue of the watcher holds every id at most once and
    never the id of the task being processed, from the initial fetch of the
    tasks on, provided the pending tasks of that first answer have distinct
    ids: [enqueue] skips an id that is queued or current, and a task that is
    taken for processing leaves the queue. *)
Theorem local_queue_holds_each_id_once r events :
  (∀ body, r = Resolved body → NoDup (pending_ids body)) →
  Forall (λ e, ∀ r', e ≠ InitFetched r') events →
  let s := fst (run options startWatcher (InitFetched r :: events)) in
  NoDup (pendingQueue s) ∧
  ∀ id, currentTaskId s = Some id → id ∉ pendingQueue s.
Proof.
  intros Hids Hevents s. subst s. rewrite run_cons. cbn [fst].
  assert (Hfirst :
    queue_distinct (fst (step options startWatcher (InitFetched r)))).
  { simpl. destruct r as [body|msg]; simpl.
    - specialize (Hids body eq_refl).
      destruct (0 <? _)%nat; [apply kickProcessing_distinct|]; by split.
    - split; simpl; [apply NoDup_nil_2|done]. }
  revert Hfirst. generalize (fst (step options startWatcher (InitFetched r))).
  induction Hevents as [|e events He _ IH]; intros s Hs; [done|].
  rewrite run_cons. cbn [fst]. apply IH. by apply step_distinct.
Qed.

(** X27. At start-up the watcher queues the pending tasks that
    [GET /api/tasks] returns, in the order of the document, and fetches the
    next task exactly when there is one; when the request fails it queues
    nothing and waits for events. *)
Theorem init_queues_the_pending_tasks reviewDir JSON_parse srv :
  ∃ queue,
    eval (read reviewDir JSON_parse) (world srv) = Return queue ∧
    let answer := fst (get_tasks reviewDir JSON_parse srv) in
    let ids :=
      Task.id <$>
        filter (λ t, Task.status t = "pending") (Queue.items queue) in
    let next :=
      step options startWatcher (InitFetched (Resolved (json answer))) in
    answer = {| statusCode := 200; json := J_queue queue |} ∧
    pendingQueue (fst next) = ids ∧
    snd next = (if bool_decide (ids = []) then [] else [GetNext]) ∧
    ∀ message,
      step options startWatcher (InitFetched (Rejected message)) =
        (startWatcher, []).
Proof.
  destruct (read_total reviewDir JSON_parse (world srv)) as (queue & w1 & Hr).
  exists queue. unfold eval. rewrite Hr. split; [done|].
  assert (Hanswer : fst (get_tasks reviewDir JSON_parse srv) =
                    {| statusCode := 200; json := J_queue queue |}).
  { unfold get_tasks, asyncHandler, bind, call, respond, ret.
    by rewrite Hr. }
  cbv zeta. rewrite Hanswer. cbn [json].
  change (pending_ids (J_queue queue))
    with (Task.id <$>
            filter (λ t, Task.status t = "pending") (Queue.items queue)).
  assert (Hstep : ∀ ids next,
    next = (if (0 <? length ids)%nat
            then kickProcessing (set_pendingQueue ids startWatcher)
            else (set_pendingQueue ids startWatcher, [])) →
    pendingQueue (fst next) = ids ∧
    snd next = (if bool_decide (ids = []) then [] else [GetNext])).
  { intros ids next ->. by destruct ids. }
  split_and!; [done| | |done]; by eapply Hstep.
Qed.


(** X28. Whether a task that the loop has put back to pending is tried
    again depends on what arrives first.  The update event of the reset names
    the task that is still current, so when it arrives before the answer to
    the reset, [enqueue] skips it: the loop ends the cycle with an empty
    queue and fetches nothing.  When the answer arrives first, the event
    queues the task and the loop fetches the next task. *)
Theorem reset_task_is_queued_only_after_the_answer s task updated r :
  calls s = [AwaitReset task] →
  currentTaskId s = Some (Task.id task) →
  pendingQueue s = [] → processing s = true → stopped s = false →
  Task.id updated = Task.id task → Task.status updated = "pending" →
  let event_first := run options s [TaskUpdated updated; Settled 0 r] in
  let answer_first := run options s [Settled 0 r; TaskUpdated updated] in
  snd event_first = [] ∧
  pendingQueue (fst event_first) = [] ∧
  calls (fst event_first) = [] ∧
  processing (fst event_first) = false ∧
  snd answer_first = [GetNext] ∧
  pendingQueue (fst answer_first) = [Task.id task] ∧
  calls (fst answer_first) = [AwaitNext].
Proof.
  intros Hcalls Hcur Hqueue Hproc Hstop Hid Hstatus event_first answer_first.
  subst event_first answer_first.
  assert (Hevent : step options s (TaskUpdated updated) = (s, [])).
  { simpl. rewrite Hstatus. simpl. unfold enqueue.
    rewrite Hid, Hcur, (bool_decide_true (Some _ = Some _)) by done.
    by rewrite andb_false_r. }
  assert (Hanswer :
    step options s (Settled 0 r) =
      (set_processing false (ends 0 (set_currentTaskId None s)), [])).
  { simpl. unfold resume. rewrite Hcalls. simpl.
    unfold processTask_returns, after_processTask. simpl.
    by rewrite Hstop, Hqueue. }
  rewrite !run_cons. cbn [run]. rewrite Hevent. cbn [fst snd].
  rewrite Hanswer. cbn [fst snd app].
  assert (Hlate :
    step options (set_processing false (ends 0 (set_currentTaskId None s)))
      (TaskUpdated updated) =
      (set_calls [AwaitNext]
         (set_processing true
            (set_pendingQueue [Task.id task]
               (set_processing false (ends 0 (set_currentTaskId None s))))),
       [GetNext])).
  { simpl. rewrite Hstatus. simpl. unfold enqueue. simpl.
    rewrite Hqueue, Hid. simpl.
    unfold kickProcessing. simpl. by rewrite Hstop, Hcalls. }
  rewrite Hlate. cbn [fst snd]. unfold ends. simpl. by rewrite Hcalls, Hqueue.
Qed.

End Running.

(** ** The further operations on the example data *)

Lemma testServer_read items :
  read ".review" scan (world (testServer items)) =
    (Return (testQueue items), world (testServer items)).
Proof. apply read_document, testServer_document. Qed.

Lemma testServer_getTask items id :
  eval (getTask ".review" scan id) (world (testServer items)) =
    Return (snd <$> list_find (λ t, Task.id t = id) items).
Proof. unfold eval. by rewrite getTask_cases, testServer_read. Qed.

Lemma scan_json_print_json j : scan_json (print_json j) = Some j.
Proof.
  unfold scan_json, print_json. rewrite bits_unbits. simpl.
  apply decode_encode.
Qed.

Lemma print_json_one_line j : one_line (print_json j).
Proof.
  unfold print_json. generalize (encode j). intros p.
  induction p as [p IH|p IH|]; simpl.
  - apply one_line_cons. by split.
  - apply one_line_cons. by split.
  - unfold one_line. simpl. apply not_elem_of_nil.
Qed.

(** The store holds one task and is written without tasks: the document
    with the task is now the backup. *)
Lemma write_keeps_previous_generation_witness :
  let w := world (testServer [reviewTask]) in
  let save := write ".review" print (testQueue []) in
  eval save w = Return tt ∧
  files (exec save w) !! queuePath ".review" =
    Some (print (Queue.set_lastUpdated "2026-02-22T10:00:01.000Z"
                   (testQueue []))) ∧
  files (exec save w) !! backupPath ".review" =
    Some (print (testQueue [reviewTask])) ∧
  files (exec save w) !! (queuePath ".review" +:+ ".tmp") = None.
Proof.
  intros w save.
  assert (Hreturns : eval save w = Return tt).
  { unfold eval, save. by rewrite write_cases. }
  destruct (write_keeps_previous_generation ".review" print (testQueue []) w
              Hreturns) as (Hprimary & Hbackup & Htmp & _).
  split_and!; [exact Hreturns|exact Hprimary| |exact Htmp].
  etrans; [exact Hbackup|].
  unfold w, testServer, testWorld. cbn [world files].
  by rewrite ?lookup_singleton_eq.
Defined.

(** The first test of [addTask]: a task is created in an empty directory. *)
Lemma addTask_appends_pending_task_witness :
  let add := addTask ".review" print scan base64_decode "t1" testInput in
  isValidPngBase64 base64_decode (CreateTaskInput.screenshot testInput) = true ∧
  ∃ task,
    eval add (testWorld ∅) = Return task ∧
    Task.id task = "t1" ∧
    Task.status task = "pending" ∧
    Task.note task = "Fix this" ∧
    Task.attempts task = [] ∧
    Queue.items <$> document scan (exec add (testWorld ∅)) (queuePath ".review") =
      Some [task].
Proof.
  intros add. split; [exact testPng_valid|].
  destruct (addTask_appends_pending_task ".review" print scan base64_decode
              scan_print "t1" testInput (testWorld ∅) testPng_valid)
    as (queue & task & Hq & Hadd & Hid & Hstatus & _ & _ & _ & _ & Hnote & _ &
        _ & _ & _ & _ & _ & _ & _ & _ & Hatt & _ & Hdoc).
  injection Hq as <-.
  exists task. split_and!; [exact Hadd|exact Hid|exact Hstatus|exact Hnote|
                            exact Hatt|exact Hdoc].
Defined.

(** A second task is added next to a stored one: each is found under its
    own id. *)
Lemma addTask_then_getTask_witness :
  let first := testTask "t1" "2026-02-22T09:00:00.000Z" Medium "pending" [] in
  let w := world (testServer [first]) in
  let add := addTask ".review" print scan base64_decode "t2" testInput in
  Forall (λ t, Task.id t ≠ "t2") [first] ∧
  ∃ task,
    eval add w = Return task ∧
    eval (getTask ".review" scan "t2") (exec add w) = Return (Some task) ∧
    eval (getTask ".review" scan "t1") (exec add w) = Return (Some first).
Proof.
  intros first w add.
  assert (Hfresh : Forall (λ t, Task.id t ≠ "t2") [first]).
  { by apply Forall_singleton. }
  assert (Hread : eval (read ".review" scan) w = Return (testQueue [first])).
  { unfold eval, w. by rewrite testServer_read. }
  split; [exact Hfresh|].
  destruct (addTask_then_getTask ".review" print scan base64_decode scan_print
              "t2" testInput w (testQueue [first]) testPng_valid Hread Hfresh)
    as (task & Hadd & Hget & Hother).
  exists task. split_and!; [exact Hadd|exact Hget|].
  unfold add. rewrite (Hother "t1") by done.
  apply (testServer_getTask [first] "t1").
Defined.

(** The first of two stored tasks is deleted. *)
Lemma deleteTask_removes_the_task_witness :
  let first := testTask "t1" "2026-02-22T09:00:00.000Z" Medium "pending" [] in
  let second := testTask "t2" "2026-02-22T09:00:01.000Z" Medium "pending" [] in
  let w := world (testServer [first; second]) in
  let del := deleteTask ".review" print scan "t1" in
  eval (getTask ".review" scan "t1") w = Return (Some first) ∧
  eval del w = Return true ∧
  Queue.items <$> document scan (exec del w) (queuePath ".review") =
    Some [second] ∧
  eval (getTask ".review" scan "t1") (exec del w) = Return None ∧
  eval (getTask ".review" scan "t2") (exec del w) = Return (Some second).
Proof.
  intros first second w del.
  pose proof (testServer_getTask [first; second] "t1") as Hget.
  destruct (deleteTask_removes_the_task ".review" print scan scan_print
              "t1" w first Hget)
    as (queue & Hq & Hdel & Hdoc & Hnone & Hother).
  unfold eval, w in Hq. rewrite testServer_read in Hq. injection Hq as <-.
  split_and!; [exact Hget|exact Hdel|exact Hdoc|exact Hnone|].
  unfold del. rewrite (Hother "t2") by done.
  apply (testServer_getTask [first; second] "t2").
Defined.

(** The tests of the repository for an unknown id. *)
Lemma unknown_id_is_a_no_op_witness :
  let first := testTask "t1" "2026-02-22T09:00:00.000Z" Medium "pending" [] in
  let w := world (testServer [first]) in
  getTask ".review" scan "nonexistent" w = (Return None, w) ∧
  updateTask ".review" print scan "nonexistent" [P_status "invalid"] w =
    (Return None, w) ∧
  deleteTask ".review" print scan "nonexistent" w = (Return false, w) ∧
  saveAfterScreenshot ".review" print scan base64_decode "nonexistent"
    testPng w = (Return None, w).
Proof.
  intros first w.
  assert (Hread : eval (read ".review" scan) w = Return (testQueue [first])).
  { unfold eval, w. by rewrite testServer_read. }
  assert (Hnone : Forall (λ t, Task.id t ≠ "nonexistent")
                    (Queue.items (testQueue [first]))).
  { by apply Forall_singleton. }
  destruct (unknown_id_is_a_no_op ".review" print scan base64_decode
              "nonexistent" w (testQueue [first]) Hread Hnone)
    as (Hget & Hupdate & Hdelete & Hsave).
  assert (Hw : exec (read ".review" scan) w = w).
  { unfold exec, w. by rewrite testServer_read. }
  rewrite Hw in Hget, Hupdate, Hdelete, Hsave.
  split_and!; [exact Hget|apply Hupdate|exact Hdelete|].
  apply Hsave, testPng_valid.
Defined.

(** A pending task is set to review. *)
Lemma store_keeps_statuses_valid_witness :
  let first := testTask "t1" "2026-02-22T09:00:00.000Z" Medium "pending" [] in
  let w := world (testServer [first]) in
  statuses_valid ".review" scan w ∧
  statuses_valid ".review" scan
    (exec (updateTask ".review" print scan "t1" [P_status "review"]) w) ∧
  statuses_valid ".review" scan
    (exec (addTask ".review" print scan base64_decode "t2" testInput) w).
Proof.
  intros first w.
  assert (Hvalid : statuses_valid ".review" scan w).
  { intros queue Hq. unfold eval, w in Hq. rewrite testServer_read in Hq.
    injection Hq as <-. apply Forall_singleton, VALID_STATUSES_elem.
    by left. }
  destruct (store_keeps_statuses_valid ".review" print scan base64_decode
              scan_print w Hvalid) as (Hadd & Hupdate & _ & _).
  split_and!; [exact Hvalid|apply Hupdate|apply Hadd].
Defined.

(** Two stored tasks; one is deleted, and a third is added under a new
    id. *)
Lemma store_keeps_ids_unique_witness :
  let first := testTask "t1" "2026-02-22T09:00:00.000Z" Medium "pending" [] in
  let second := testTask "t2" "2026-02-22T09:00:01.000Z" Medium "pending" [] in
  let w := world (testServer [first; second]) in
  NoDup (Task.id <$> [first; second]) ∧
  ids_unique ".review" scan (exec (deleteTask ".review" print scan "t1") w) ∧
  ids_unique ".review" scan
    (exec (addTask ".review" print scan base64_decode "t3" testInput) w).
Proof.
  intros first second w.
  assert (Hread : eval (read ".review" scan) w =
                  Return (testQueue [first; second])).
  { unfold eval, w. by rewrite testServer_read. }
  assert (Hnodup : NoDup (Task.id <$> [first; second])).
  { apply (bool_decide_unpack _). reflexivity. }
  destruct (store_keeps_ids_unique ".review" print scan base64_decode
              scan_print w (testQueue [first; second]) Hread Hnodup)
    as (Hadd & _ & Hdelete & _).
  split_and!; [exact Hnodup|apply Hdelete|].
  apply Hadd. apply (bool_decide_unpack _). reflexivity.
Defined.

(** The test of the server for a new task, with one subscriber on the
    event stream. *)
Lemma post_task_creates_and_announces_witness :
  let s := snd (get_events (testServer [])) in
  let res := fst (get_events (testServer [])) in
  let answer := post_task ".review" print scan base64_decode "t1" testBody s in
  ∃ task,
    fst answer = {| statusCode := 201; json := J_task task |} ∧
    Task.id task = "t1" ∧
    Task.status task = "pending" ∧
    sseClients (snd answer) !! res =
      Some [{| event := "task_created"; data := J_task task |}] ∧
    fst (get_task ".review" scan "t1" (snd answer)) =
      {| statusCode := 200; json := J_task task |}.
Proof.
  intros s res answer.
  assert (Hread : eval (read ".review" scan) (world s) = Return (testQueue [])).
  { unfold eval, s, get_events. cbn [snd world].
    by rewrite (testServer_read []). }
  destruct (post_task_creates_and_announces ".review" print scan base64_decode
              scan_print "t1" testBody s "Fix this"
              {| PageInfo.component := "App";
                 PageInfo.sourceFile := "src/App.tsx";
                 PageInfo.sourceLine := None |}
              testPng (testQueue []) eq_refl ltac:(done) eq_refl eq_refl
              testPng_valid Hread (Forall_nil_2 _))
    as (task & Hanswer & Hid & Hstatus & _ & _ & _ & Hsent & _ & Hget & _).
  exists task. split_and!; [exact Hanswer|exact Hid|exact Hstatus| |exact Hget].
  unfold answer. rewrite Hsent. unfold s, res, get_events. cbn [fst snd sseClients].
  by rewrite lookup_fmap, lookup_insert_eq.
Defined.

(** The test of the server for a deleted task. *)
Lemma delete_task_forgets_the_task_witness :
  let first := testTask "t1" "2026-02-22T09:00:00.000Z" Medium "pending" [] in
  let s := testServer [first] in
  let answer := delete_task ".review" print scan "t1" s in
  fst (get_task ".review" scan "t1" s) =
    {| statusCode := 200; json := J_task first |} ∧
  fst answer = {| statusCode := 200; json := J_ok |} ∧
  fst (get_task ".review" scan "t1" (snd answer)) =
    {| statusCode := 404; json := J_error "Task not found" |}.
Proof.
  intros first s answer.
  pose proof (testServer_getTask [first] "t1") as Hget.
  destruct (delete_task_forgets_the_task ".review" print scan scan_print
              "t1" s first Hget) as (Hanswer & _ & _ & Hgone & _ & _).
  split_and!; [|exact Hanswer|exact Hgone].
  rewrite get_task_cases. unfold s. by rewrite Hget.
Defined.

(** An entry arrives for a task that is done. *)
Lemma post_activity_appends_for_any_status_witness :
  let task := testTask "t1" "2026-02-22T09:00:00.000Z" Medium "done" [] in
  let s := testServer [task] in
  let entry :=
    {| ActivityEntry.timestamp := "2026-02-22T10:00:01.000Z";
       ActivityEntry.type := "text";
       ActivityEntry.summary := "Looking at the padding" |} in
  let answer :=
    post_activity ".review" scan "t1" (Some "text")
      (Some "Looking at the padding") s in
  fst answer = {| statusCode := 200; json := J_entries [entry] |} ∧
  fst (get_activity ".review" scan "t1" (snd answer)) =
    {| statusCode := 200; json := J_entries [entry] |}.
Proof.
  intros task s entry answer. subst s entry answer.
  pose proof (testServer_getTask [task] "t1") as Hget.
  assert (Htype : "text" ∈ VALID_ACTIVITY_TYPES).
  { apply VALID_ACTIVITY_TYPES_elem. auto. }
  destruct (post_activity_appends_for_any_status ".review" scan "t1" "text"
              (Some "Looking at the padding") (testServer [task]) task
              Hget Htype)
    as (Hanswer & Hlist & _).
  unfold exec in Hanswer, Hlist.
  rewrite testServer_read in Hanswer, Hlist.
  split; [exact Hanswer|exact Hlist].
Defined.

Lemma toString_ascii_app chunk1 chunk2 :
  toString_ascii (chunk1 ++ chunk2) =
    toString_ascii chunk1 +:+ toString_ascii chunk2.
Proof.
  unfold toString_ascii. induction chunk1 as [|b chunk1 IH]; [done|].
  cbn [app fmap list_fmap String.string_of_list_ascii].
  rewrite append_cons. f_equal. exact IH.
Qed.

Lemma toString_bytes_ascii text : toString_ascii (bytes_ascii text) = text.
Proof.
  unfold toString_ascii, bytes_ascii. induction text as [|c text IH]; [done|].
  cbn [String.list_ascii_of_string fmap list_fmap String.string_of_list_ascii].
  rewrite ascii_of_byte_of_ascii. f_equal. exact IH.
Qed.

(** The name of an event arrives in two chunks of ASCII text. *)
Lemma connectSSE_chunks_do_not_matter_witness :
  let on_data := connectSSE_data toString_ascii scan_json trim_ascii
                   connect_handlers in
  let chunk1 := bytes_ascii "event: task_can" in
  let chunk2 := bytes_ascii ("cel" +:+ String LF "data: ") in
  toString_ascii (chunk1 ++ chunk2) =
    "event: task_cancel" +:+ String LF "data: " ∧
  on_data (chunk1 ++ chunk2) connectSSE_start =
    (fst (on_data chunk2 (fst (on_data chunk1 connectSSE_start))),
     snd (on_data chunk1 connectSSE_start) ++
     snd (on_data chunk2 (fst (on_data chunk1 connectSSE_start)))).
Proof.
  intros on_data chunk1 chunk2. split; [reflexivity|].
  apply (connectSSE_chunks_do_not_matter toString_ascii scan_json trim_ascii
           connect_handlers chunk1 chunk2 connectSSE_start).
  apply toString_ascii_app.
Defined.

(** The two messages of a cancellation, as text and back: the watcher
    gets the cancellation first and then the update.  The text arrives in
    two chunks, cut between the messages. *)
Lemma event_stream_is_received_witness :
  let task := testTask "t1" "2026-02-22T09:00:00.000Z" Medium "done" [] in
  let cancel := {| event := "task_cancel"; data := J_id "t1" |} in
  let update := {| event := "task_updated"; data := J_task task |} in
  let chunks :=
    [bytes_ascii (event_stream print_json [cancel]);
     bytes_ascii (broadcast_msg print_json update)] in
  connectSSE_chunks toString_ascii scan_json trim_ascii connect_handlers
    chunks connectSSE_start =
    (connectSSE_start, [Some (TaskCancel "t1"); Some (TaskUpdated task)]).
Proof.
  intros task cancel update chunks.
  apply (event_stream_is_received toString_ascii print_json scan_json
           trim_ascii connect_handlers scan_json_print_json
           print_json_one_line [cancel; update] chunks).
  - repeat apply Forall_cons_2; [| |apply Forall_nil_2];
      (split; [by apply one_line_literal|reflexivity]).
  - unfold chunks, decoded. cbn [foldr]. rewrite !toString_bytes_ascii.
    unfold event_stream. cbn [foldr].
    by rewrite !append_nil_r, <- !append_assoc.
Defined.

(** The activities of [testEvent]. *)
Lemma extracted_activities_are_accepted_witness :
  let task := testTask "t1" "2026-02-22T09:00:00.000Z" Medium "in_progress" [] in
  let activity :=
    {| Activity.type := "tool_start";
       Activity.summary := "Reading src/App.tsx" |} in
  extractActivities trim_ascii whole_toFixed whole_toString testEvent =
    [{| Activity.type := "text"; Activity.summary := "Looking at the padding" |};
     activity] ∧
  ∃ entries,
    fst (post_activity ".review" scan "t1" (Some "tool_start")
           (Some "Reading src/App.tsx") (testServer [task])) =
      {| statusCode := 200; json := J_entries entries |}.
Proof.
  intros task activity.
  assert (Hall :
    extractActivities trim_ascii whole_toFixed whole_toString testEvent =
    [{| Activity.type := "text"; Activity.summary := "Looking at the padding" |};
     activity]).
  { vm_compute. reflexivity. }
  split; [exact Hall|].
  assert (Hin : activity ∈
            extractActivities trim_ascii whole_toFixed whole_toString testEvent).
  { rewrite Hall. apply list_elem_of_further, list_elem_of_here. }
  destruct (extracted_activities_are_accepted trim_ascii whole_toFixed
              whole_toString testEvent activity Hin) as (_ & _ & _ & Hpost).
  destruct (Hpost ".review" scan "t1" (testServer [task]) task
              (testServer_getTask [task] "t1"))
    as (entries & entry & Hanswer & _).
  exists entries. exact Hanswer.
Defined.

(** The agent has ended and the task is still in progress. *)
Lemma task_is_reset_only_when_left_in_progress_witness :
  let s := set_calls [AwaitTask freshTask] startWatcher in
  let updated := Task.set_status "in_progress" freshTask in
  PutStatus "t2" "pending" ∈
    snd (step testOptions s (Settled 0 (Resolved (J_task updated)))).
Proof.
  intros s updated.
  apply (task_is_reset_only_when_left_in_progress testOptions s
           (Settled 0 (Resolved (J_task updated))) "t2" ltac:(done)).
  by exists 0%nat, freshTask, updated.
Defined.

(** Two pending tasks at start-up; the first is taken, then an update of
    the second and a new task arrive. *)
Lemma local_queue_holds_each_id_once_witness :
  let created := testTask "t3" "2026-02-22T09:10:00.000Z" Medium "pending" [] in
  let events :=
    [Settled 0 (Resolved (J_task freshTask)); TaskUpdated freshTask;
     TaskCreated created; TaskCreated created] in
  let s :=
    fst (run testOptions startWatcher
           (InitFetched (Resolved (J_queue (testQueue [blockedTask; freshTask])))
            :: events)) in
  NoDup (pendingQueue s) ∧
  ∀ id, currentTaskId s = Some id → id ∉ pendingQueue s.
Proof.
  intros created events.
  apply (local_queue_holds_each_id_once testOptions
           (Resolved (J_queue (testQueue [blockedTask; freshTask]))) events).
  - intros body [= <-]. apply (bool_decide_unpack _). reflexivity.
  - repeat apply Forall_cons_2; [..|apply Forall_nil_2]; done.
Defined.

(** A stored pending task is set to review. *)
Lemma updateTask_sets_status_and_stamp_witness :
  let first := testTask "t1" "2026-02-22T09:00:00.000Z" Medium "pending" [] in
  let w := world (testServer [first]) in
  ∃ task',
    eval (updateTask ".review" print scan "t1" [P_status "review"]) w =
      Return (Some task') ∧
    Task.status task' = "review" ∧
    Task.updatedAt task' = clock w (ticks w).
Proof.
  intros first w.
  assert (Hupdate :
    eval (updateTask ".review" print scan "t1" [P_status "review"]) w =
      Return (Some (Task.set_updatedAt (clock w (ticks w))
                      (Object_assign first (filter allowed [P_status "review"]))))).
  { unfold eval, w. rewrite updateTask_cases, testServer_read. reflexivity. }
  destruct (updateTask_sets_status_and_stamp ".review" print scan "t1"
              [P_status "review"] w _ Hupdate)
    as (task & Hget & Hstatus & _ & Hstamp).
  eexists. split_and!; [exact Hupdate|exact Hstatus|].
  rewrite Hstamp. unfold exec, w. by rewrite testServer_read.
Defined.

(** The agent left the task in progress and the loop has sent the reset:
    the two orders in which the update event and the answer can arrive. *)
Lemma reset_task_is_queued_only_after_the_answer_witness :
  let s :=
    set_currentTaskId (Some "t2")
      (set_processing true (set_calls [AwaitReset freshTask] startWatcher)) in
  let answer := Settled 0 (Resolved (J_task freshTask)) in
  snd (run testOptions s [TaskUpdated freshTask; answer]) = [] ∧
  pendingQueue (fst (run testOptions s [TaskUpdated freshTask; answer])) = [] ∧
  snd (run testOptions s [answer; TaskUpdated freshTask]) = [GetNext].
Proof.
  intros s answer.
  destruct (reset_task_is_queued_only_after_the_answer testOptions s
              freshTask freshTask (Resolved (J_task freshTask))
              eq_refl eq_refl eq_refl eq_refl eq_refl eq_refl eq_refl)
    as (Hfirst & Hqueue & _ & _ & Hlate & _).
  split_and!; [exact Hfirst|exact Hqueue|exact Hlate].
Defined.

